(** * promptexify: request-boundary security core and cache layer

    A shallow embedding of [lib/security/csp.ts] (CSRF guard, CSP nonce,
    security header composer, CSRF action wrapper), of [lib/cache.ts]
    (cache tags, in-memory cache store, cache key generators) and of the
    cache-tag bookkeeping of the post actions and cached queries.

    JavaScript strings are modelled as [string], a sequence of code units
    below 256 (Latin-1).  Asynchronous functions are modelled by their
    sequential result: a [Promise] that resolves is a value, one that
    rejects is an error value.  Part I holds the definitions, Part II the
    theorems. *)

From Stdlib Require Import ZArith NArith Ascii String List Lia Bool.
From Stdlib Require Import Decimal DecimalString DecimalPos DecimalZ.
From stdpp Require Import gmap strings list.

(* ===================================================================== *)
(** * Part I: definitions                                                 *)
(* ===================================================================== *)

(** ** JavaScript string and value helpers *)

Definition chars (s : string) : list ascii := list_ascii_of_string s.
Definition str (l : list ascii) : string := string_of_list_ascii l.
Definition code (c : ascii) : N := N_of_ascii c.

(** Truthiness of [string | null | undefined]: only a non-empty string. *)
Definition truthy (o : option string) : bool :=
  match o with
  | Some s => negb (String.eqb s "")
  | None => false
  end.

(** [x || null] on an optional string. *)
Definition or_null (o : option string) : option string :=
  if truthy o then o else None.

(** [s.replace(/c/g, "")] for a single character [c]. *)
Fixpoint remove_char (c : ascii) (l : list ascii) : list ascii :=
  match l with
  | [] => []
  | x :: r => if Ascii.eqb x c then remove_char c r else x :: remove_char c r
  end.

(** [s.replace(/c/g, d)] for single characters [c] and [d]. *)
Definition replace_char (c d : ascii) (l : list ascii) : list ascii :=
  map (fun x => if Ascii.eqb x c then d else x) l.

(** [s.startsWith(p)] on character lists. *)
Fixpoint starts_with (p l : list ascii) : bool :=
  match p, l with
  | [], _ => true
  | _ :: _, [] => false
  | a :: p', b :: l' => Ascii.eqb a b && starts_with p' l'
  end.

(** [s.includes(p)]. *)
Fixpoint includes_chars (p l : list ascii) : bool :=
  starts_with p l ||
  match l with
  | [] => false
  | _ :: r => includes_chars p r
  end.

Definition includes (s p : string) : bool := includes_chars (chars p) (chars s).

(** [s.replace(p, q)] with a string pattern: the first occurrence only. *)
Fixpoint replace_first_chars (p q l : list ascii) : list ascii :=
  if starts_with p l then q ++ drop (length p) l
  else match l with
       | [] => []
       | x :: r => x :: replace_first_chars p q r
       end.

Definition replace_first (s p q : string) : string :=
  str (replace_first_chars (chars p) (chars q) (chars s)).

(** [parts.join(sep)]. *)
Fixpoint join (sep : string) (parts : list string) : string :=
  match parts with
  | [] => ""
  | [x] => x
  | x :: r => x +:+ sep +:+ join sep r
  end.

(** [s.split(" ")]; [word] holds the characters of the current piece,
    last one first. *)
Fixpoint split_spaces_chars (word l : list ascii) : list string :=
  match l with
  | [] => [str (rev word)]
  | c :: r =>
      if Ascii.eqb c " " then str (rev word) :: split_spaces_chars [] r
      else split_spaces_chars (c :: word) r
  end.

Definition split_spaces (s : string) : list string :=
  split_spaces_chars [] (chars s).

Definition has_space (s : string) : bool :=
  existsb (fun c => Ascii.eqb c " ") (chars s).

(** ** Base64: [btoa] *)

Definition base64_alphabet : list ascii :=
  chars "ABCDEFGHIJKLMNOPQRSTUVWXYZabcdefghijklmnopqrstuvwxyz0123456789+/".

Definition b64_char (i : N) : ascii :=
  nth (N.to_nat i) base64_alphabet "A"%char.

Definition pad_char : ascii := "="%char.

(** [btoa] on the bytes of a binary string: three bytes give four
    characters, a rest of one or two bytes is padded with [=]. *)
Fixpoint btoa_chars (l : list ascii) : list ascii :=
  match l with
  | [] => []
  | [a] =>
      let x := code a in
      [b64_char (N.shiftr x 2); b64_char (N.shiftl (N.land x 3) 4);
       pad_char; pad_char]
  | [a; b] =>
      let x := code a in
      let y := code b in
      [b64_char (N.shiftr x 2);
       b64_char (N.lor (N.shiftl (N.land x 3) 4) (N.shiftr y 4));
       b64_char (N.shiftl (N.land y 15) 2);
       pad_char]
  | a :: b :: c :: rest =>
      let x := code a in
      let y := code b in
      let z := code c in
      b64_char (N.shiftr x 2)
      :: b64_char (N.lor (N.shiftl (N.land x 3) 4) (N.shiftr y 4))
      :: b64_char (N.lor (N.shiftl (N.land y 15) 2) (N.shiftr z 6))
      :: b64_char (N.land z 63)
      :: btoa_chars rest
  end.

Definition btoa (s : string) : string := str (btoa_chars (chars s)).

(** ** CSRFProtection.generateToken *)

(** The shape of a [crypto.randomUUID()] result: a version 4 UUID in
    lower-case hexadecimal, [xxxxxxxx-xxxx-4xxx-yxxx-xxxxxxxxxxxx] with
    [y] one of 8, 9, a, b. *)
Inductive uuid_class := Hex | Dash | Version | Variant.

Definition is_hex (c : ascii) : bool :=
  let n := code c in
  ((48 <=? n) && (n <=? 57) || (97 <=? n) && (n <=? 102))%N.

Definition class_ok (k : uuid_class) (c : ascii) : bool :=
  match k with
  | Hex => is_hex c
  | Dash => Ascii.eqb c "-"
  | Version => Ascii.eqb c "4"
  | Variant => Ascii.eqb c "8" || Ascii.eqb c "9" || Ascii.eqb c "a" || Ascii.eqb c "b"
  end.

Definition uuid_pattern : list uuid_class :=
  repeat Hex 8 ++ [Dash] ++ repeat Hex 4 ++ [Dash] ++
  [Version] ++ repeat Hex 3 ++ [Dash] ++
  [Variant] ++ repeat Hex 3 ++ [Dash] ++ repeat Hex 12.

Fixpoint matches (p : list uuid_class) (l : list ascii) : bool :=
  match p, l with
  | [], [] => true
  | k :: p', c :: l' => class_ok k c && matches p' l'
  | _, _ => false
  end.

Definition is_uuid (s : string) : bool := matches uuid_pattern (chars s).

(** [.replace(/\+/g, "-").replace(/\//g, "_").replace(/=/g, "")]. *)
Definition url_safe (l : list ascii) : list ascii :=
  remove_char "=" (replace_char "/" "_" (replace_char "+" "-" l)).

(** The token computed from the two UUIDs drawn by [generateToken]:
    dashes removed, concatenated, [btoa], made URL-safe, cut to 43. *)
Definition token_of_uuids (u1 u2 : string) : string :=
  let uuid1 := remove_char "-" (chars u1) in
  let uuid2 := remove_char "-" (chars u2) in
  let combined := uuid1 ++ uuid2 in
  let base64 := btoa_chars combined in
  str (take 43 (url_safe base64)).

(** Whether the UUID starts with a decimal digit (and not with a letter). *)
Definition leading_digit (u : string) : bool :=
  match chars u with
  | c :: _ => ((48 <=? code c) && (code c <=? 57))%N
  | [] => false
  end.

(** [url_safe] on one character: what it becomes, [None] when it is
    removed; and on a Base64 digit, which always stays. *)
Definition url_safe_char (c : ascii) : option ascii :=
  let c1 := if Ascii.eqb c "+" then "-"%char else c in
  let c2 := if Ascii.eqb c1 "/" then "_"%char else c1 in
  if Ascii.eqb c2 "=" then None else Some c2.

Definition url_safe_digit (i : N) : ascii :=
  default "A"%char (url_safe_char (b64_char i)).

(** The number of hexadecimal digits a UUID pattern asks for. *)
Definition hex_count (p : list uuid_class) : nat :=
  length (List.filter (fun k => match k with Dash => false | _ => true end) p).

Definition is_base64url_char (c : ascii) : bool :=
  let n := code c in
  ((65 <=? n) && (n <=? 90) || (97 <=? n) && (n <=? 122) ||
   (48 <=? n) && (n <=? 57) || (n =? 45) || (n =? 95))%N.

(** ** The request world of the CSRF guard *)

Record CookieOptions := {
  httpOnly : bool;
  secure : bool;
  sameSite : string;
  path : string;
  maxAge : Z
}.

Record Cookie := {
  cookie_value : string;
  cookie_options : CookieOptions
}.

(** What a call of the guard can read and change: [process.env], the
    cookie store of [next/headers] ([None] when [cookies()] rejects, as
    outside a request scope), whether [cookieStore.set] is allowed (it
    throws where cookies are read-only), and the random source: the
    successive results of [crypto.randomUUID()] with a read position. *)
Record World := {
  env : gmap string string;
  cookieStore : option (gmap string Cookie);
  cookiesWritable : bool;
  uuidSource : nat -> string;
  rngIndex : nat
}.

Definition with_cookies (jar : gmap string Cookie) (w : World) : World :=
  {| env := env w; cookieStore := Some jar; cookiesWritable := cookiesWritable w;
     uuidSource := uuidSource w; rngIndex := rngIndex w |}.

Definition with_rng (n : nat) (w : World) : World :=
  {| env := env w; cookieStore := cookieStore w; cookiesWritable := cookiesWritable w;
     uuidSource := uuidSource w; rngIndex := n |}.

Definition node_env_is (e : gmap string string) (v : string) : bool :=
  match e !! "NODE_ENV" with
  | Some x => String.eqb x v
  | None => false
  end.

Definition CSRF_COOKIE_NAME (e : gmap string string) : string :=
  if node_env_is e "production" then "csrf-token-secure" else "csrf-token".

Definition randomUUID (w : World) : string * World :=
  (uuidSource w (rngIndex w), with_rng (S (rngIndex w)) w).

Definition generateToken (w : World) : string * World :=
  let (uuid1, w1) := randomUUID w in
  let (uuid2, w2) := randomUUID w1 in
  (token_of_uuids uuid1 uuid2, w2).

(** Two request worlds for examples: a development server with an empty,
    writable cookie store; their random sources agree on the first UUID
    and differ from the second on. *)
Definition example_world : World :=
  {| env := {[ "NODE_ENV" := "development" ]};
     cookieStore := Some ∅;
     cookiesWritable := true;
     uuidSource := fun n =>
       match n with
       | 0 => "123e4567-e89b-42d3-a456-426614174000"
       | _ => "f47ac10b-58cc-4372-a567-0e02b2c3d479"
       end;
     rngIndex := 0 |}.

Definition example_world' : World :=
  {| env := {[ "NODE_ENV" := "development" ]};
     cookieStore := Some ∅;
     cookiesWritable := true;
     uuidSource := fun n =>
       match n with
       | 0 => "123e4567-e89b-42d3-a456-426614174000"
       | _ => "a0eebc99-9c0b-4ef8-bb6d-6bb9bd380a11"
       end;
     rngIndex := 0 |}.

(** A development server whose cookie store holds the debug cookie only. *)
Definition dev_debug_jar : gmap string Cookie :=
  {[ "csrf-token-debug" :=
       {| cookie_value := "left-over";
          cookie_options :=
            {| httpOnly := false; secure := false; sameSite := "strict";
               path := "/"; maxAge := 60 * 60 * 24 |} |} ]}.

Definition dev_world_debug_cookie : World :=
  {| env := {[ "NODE_ENV" := "development" ]};
     cookieStore := Some dev_debug_jar;
     cookiesWritable := true;
     uuidSource := uuidSource example_world;
     rngIndex := 0 |}.

(** [setToken]: [None] when the call throws (the store is missing or
    read-only); no cookie is written then. *)
Definition setToken (token : string) (w : World) : option World :=
  match cookieStore w with
  | None => None
  | Some jar =>
      if cookiesWritable w then
        let isProduction := node_env_is (env w) "production" in
        let cookieOptions :=
          {| httpOnly := true; secure := isProduction; sameSite := "strict";
             path := "/"; maxAge := 60 * 60 * 24 |} in
        let name := CSRF_COOKIE_NAME (env w) in
        let jar1 := <[name := {| cookie_value := token; cookie_options := cookieOptions |}]> jar in
        let jar2 := <[name +:+ "-backup" :=
                       {| cookie_value := token; cookie_options := cookieOptions |}]> jar1 in
        let jar3 :=
          if negb isProduction then
            <[name +:+ "-debug" :=
               {| cookie_value := token;
                  cookie_options :=
                    {| httpOnly := false; secure := isProduction; sameSite := "strict";
                       path := "/"; maxAge := 60 * 60 * 24 |} |}]> jar2
          else jar2 in
        Some (with_cookies jar3 w)
      else None
  end.

(** [cookieStore.get(name)?.value || null]. *)
Definition cookie_get (jar : gmap string Cookie) (name : string) : option string :=
  or_null (cookie_value <$> jar !! name).

Definition getTokenFromCookie (w : World) : option string :=
  match cookieStore w with
  | None => None
  | Some jar =>
      let isProduction := node_env_is (env w) "production" in
      let name := CSRF_COOKIE_NAME (env w) in
      let token := cookie_get jar name in
      let token := if negb (truthy token) then cookie_get jar (name +:+ "-backup") else token in
      let token :=
        if negb (truthy token) && negb isProduction
        then cookie_get jar (name +:+ "-debug") else token in
      token
  end.

(** [FormData] as its list of entries; [get] returns the first entry of
    that name. *)
Definition FormData := list (string * string).

Fixpoint formdata_get (fd : FormData) (name : string) : option string :=
  match fd with
  | [] => None
  | (k, v) :: r => if String.eqb k name then Some v else formdata_get r name
  end.

Definition getTokenFromFormData (formData : FormData) : option string :=
  formdata_get formData "csrf_token".

(** [TextEncoder.encode]: UTF-8 of code units below 256. *)
Definition utf8_encode (s : string) : list Z :=
  flat_map (fun c =>
    let n := Z.of_N (code c) in
    if (n <? 128)%Z then [n]
    else [Z.lor 192 (Z.shiftr n 6); Z.lor 128 (Z.land n 63)]) (chars s).

(** The comparison loop of [timingSafeEqual]: [result |= sigA[i] ^ sigB[i]]
    for every index of [sigA]; a read past the end of [sigB] gives 0. *)
Fixpoint xor_accumulate (result : Z) (sigA sigB : list Z) : Z :=
  match sigA with
  | [] => result
  | a :: ra =>
      xor_accumulate (Z.lor result (Z.lxor a (hd 0%Z sigB))) ra (tl sigB)
  end.

(** Errors a server action rejects with. *)
Inductive Thrown :=
| SecureActionError (message code : string) (statusCode : Z)
| DigestError (digest : string)
| OtherError (message : string).

Inductive Arg :=
| ArgFormData (fd : FormData)
| ArgValue (v : string).

(** [args.find(arg => arg instanceof FormData)]. *)
Fixpoint find_formdata (args : list Arg) : option FormData :=
  match args with
  | [] => None
  | ArgFormData fd :: _ => Some fd
  | ArgValue _ :: r => find_formdata r
  end.

Section WebCrypto.

(** Web Crypto is taken as given: [generateKey n] is the HMAC key drawn
    at read position [n] of the random source, [sign k bytes] its
    HMAC-SHA256 signature; [None] stands for a rejected promise. *)
Variable CryptoKey : Type.
Variable generateKey : nat -> option CryptoKey.
Variable sign : CryptoKey -> list Z -> option (list Z).

Definition timingSafeEqual (a b : string) (w : World) : option bool * World :=
  let aBytes := utf8_encode a in
  let bBytes := utf8_encode b in
  let w1 := with_rng (S (rngIndex w)) w in
  match generateKey (rngIndex w) with
  | None => (None, w1)
  | Some key =>
      match sign key aBytes, sign key bBytes with
      | Some sigA, Some sigB =>
          let result := xor_accumulate 0%Z sigA sigB in
          (Some (result =? 0)%Z, w1)
      | _, _ => (None, w1)
      end
  end.

Definition validateToken (submittedToken : option string) (w : World) : bool * World :=
  if negb (truthy submittedToken) then (false, w)
  else
    let cookieToken := getTokenFromCookie w in
    if negb (truthy cookieToken) then
      let (newToken, w1) := generateToken w in
      match setToken newToken w1 with
      | Some w2 => (false, w2)
      | None => (false, w1)
      end
    else
      match timingSafeEqual (default "" submittedToken) (default "" cookieToken) w with
      | (Some isValid, w1) => (isValid, w1)
      | (None, w1) => (false, w1)
      end.

(** The [catch] block of the wrapper: a redirect and a
    [SecureActionError] are thrown again, anything else becomes
    [ACTION_ERROR]. *)
Definition rethrow (error : Thrown) : Thrown :=
  match error with
  | DigestError d =>
      if includes d "NEXT_REDIRECT" then error
      else SecureActionError "Action failed" "ACTION_ERROR" 500
  | SecureActionError _ _ _ => error
  | OtherError _ => SecureActionError "Action failed" "ACTION_ERROR" 500
  end.

Section Wrapper.

Variable R : Type.
Variable action : list Arg -> World -> (R + Thrown) * World.

Definition withCSRFProtection (args : list Arg) (w : World) : (R + Thrown) * World :=
  match find_formdata args with
  | None =>
      (inr (rethrow (SecureActionError "CSRF protection requires FormData"
                       "CSRF_NO_FORM_DATA" 400)), w)
  | Some formData =>
      let submittedToken := getTokenFromFormData formData in
      let (isValid, w1) := validateToken submittedToken w in
      if negb isValid then
        (inr (rethrow (SecureActionError "Invalid CSRF token" "CSRF_TOKEN_INVALID" 403)), w1)
      else
        match action args w1 with
        | (inl r, w2) => (inl r, w2)
        | (inr error, w2) => (inr (rethrow error), w2)
        end
  end.

End Wrapper.
End WebCrypto.

(** ** SecurityHeaders *)

(** A [Record<string, string>] with its property order: assigning an
    existing key keeps its place, a new key goes last. *)
Fixpoint obj_set (o : list (string * string)) (k v : string) : list (string * string) :=
  match o with
  | [] => [(k, v)]
  | (k', v') :: r => if String.eqb k' k then (k', v) :: r else (k', v') :: obj_set r k v
  end.

Record CdnDomains := {
  cloudfront : option string;
  cloudflare : option string;
  custom : option string
}.

Record ExternalDomains := {
  supabase : string;
  sanity : string;
  stripe : list string;
  cdn : CdnDomains
}.

(** [cond ? [x] : []] on an optional string. *)
Definition spread_if (o : option string) : list string :=
  if truthy o then [default "" o] else [].

Definition buildScriptSrc_sources (nonce : option string) (isDevelopment : bool) : list string :=
  let scriptSources :=
    [ "'self'";
      "'sha256-n46vPwSWuMC0W703pBofImv82Z26xo4LXymv0E9caPk='";
      "https://www.googletagmanager.com";
      "https://www.google-analytics.com";
      "https://googleads.g.doubleclick.net";
      "https://www.google.com";
      "https://accounts.google.com";
      "https://apis.google.com";
      "https://accounts.google.com";
      "https://oauth2.googleapis.com";
      "https://www.googleapis.com";
      "https://identitytoolkit.googleapis.com";
      "https://securetoken.googleapis.com";
      "https://js.stripe.com";
      "https://checkout.stripe.com";
      "https://va.vercel-scripts.com" ] in
  let scriptSources :=
    if isDevelopment then scriptSources ++ ["'unsafe-eval'"] else scriptSources in
  if truthy nonce then
    scriptSources ++ ["'nonce-" +:+ default "" nonce +:+ "'"; "'strict-dynamic'"]
  else if isDevelopment then
    scriptSources ++ ["'unsafe-inline'"]
  else scriptSources.

(** A source expression that carries a nonce. *)
Definition is_nonce_source (s : string) : bool :=
  starts_with (chars "'nonce-") (chars s).

Definition buildScriptSrc (nonce : option string) (isDevelopment : bool) : string :=
  "script-src " +:+ join " " (buildScriptSrc_sources nonce isDevelopment).

Definition buildStyleSrc : string :=
  "style-src " +:+ join " "
    [ "'self'"; "'unsafe-inline'"; "https://fonts.googleapis.com";
      "https://checkout.stripe.com"; "https://accounts.google.com" ].

Definition buildFontSrc : string :=
  "font-src " +:+ join " "
    [ "'self'"; "https://fonts.gstatic.com"; "https://fonts.googleapis.com" ].

Definition buildFrameSrc : string :=
  "frame-src " +:+ join " "
    [ "'self'"; "https://accounts.google.com"; "https://www.google.com";
      "https://checkout.stripe.com"; "https://js.stripe.com";
      "https://googleads.g.doubleclick.net"; "https://tpc.googlesyndication.com" ].

Definition buildImgSrc_of (domains : ExternalDomains) : string :=
  "img-src " +:+ join " "
    ([ "'self'"; "blob:"; "data:"; "https:" ]
     ++ spread_if (cloudfront (cdn domains))
     ++ spread_if (cloudflare (cdn domains))
     ++ spread_if (custom (cdn domains))
     ++ [ supabase domains;
          "https://*.supabase.co";
          "https://*.googleusercontent.com";
          "https://*.googleapis.com";
          "https://lh3.googleusercontent.com";
          "https://*.amazonaws.com";
          "https://*.s3.amazonaws.com";
          "https://s3.amazonaws.com";
          "https://*.digitaloceanspaces.com";
          "https://*.sanity.io";
          "https://cdn.sanity.io";
          "https://googleads.g.doubleclick.net";
          "https://www.google.com";
          "https://ssl.gstatic.com";
          "https://www.gstatic.com";
          "https://checkout.stripe.com";
          "https://q.stripe.com" ]).

Definition buildConnectSrc_of (domains : ExternalDomains) (isDevelopment : bool) : string :=
  let connectSources :=
    [ "'self'" ]
    ++ spread_if (cloudfront (cdn domains))
    ++ spread_if (cloudflare (cdn domains))
    ++ spread_if (custom (cdn domains))
    ++ [ supabase domains;
         replace_first (supabase domains) "https://" "wss://";
         sanity domains;
         "https://*.apicdn.sanity.io";
         "https://cdn.sanity.io";
         "https://www.google-analytics.com";
         "https://analytics.google.com";
         "https://www.googletagmanager.com";
         "https://accounts.google.com";
         "https://apis.google.com";
         "https://region1.google-analytics.com";
         "https://www.google.com";
         "https://oauth2.googleapis.com";
         "https://www.googleapis.com";
         "https://identitytoolkit.googleapis.com";
         "https://securetoken.googleapis.com";
         "https://identitytoolkit.googleapis.com";
         "https://api.stripe.com";
         "https://events.stripe.com";
         "https://m.stripe.com" ]
    ++ stripe domains
    ++ [ "https://*.amazonaws.com";
         "https://*.s3.amazonaws.com";
         "https://s3.amazonaws.com";
         "https://*.digitaloceanspaces.com";
         "https://*.redislabs.com";
         "https://*.redis.cloud";
         "https://vitals.vercel-insights.com";
         "https://vitals.vercel-analytics.com" ] in
  let connectSources :=
    if isDevelopment then
      connectSources ++ [ "http://localhost:*"; "ws://localhost:*";
                          "wss://localhost:*"; "http://127.0.0.1:*" ]
    else connectSources in
  "connect-src " +:+ join " " connectSources.

Section Url.

(** [new URL(s).origin] is taken as given; [None] when the constructor
    throws on a string that is no URL. *)
Variable url_origin : string -> option string.

Definition getExternalDomains (w : World) : option ExternalDomains :=
  let e := env w in
  let supabase_url := e !! "NEXT_PUBLIC_SUPABASE_URL" in
  let sanity_id := e !! "NEXT_PUBLIC_SANITY_PROJECT_ID" in
  let rest (origin : string) :=
    {| supabase := origin;
       sanity :=
         if truthy sanity_id
         then "https://" +:+ default "" sanity_id +:+ ".api.sanity.io"
         else "https://*.sanity.io";
       stripe :=
         if node_env_is e "production"
         then ["https://js.stripe.com"; "https://checkout.stripe.com"]
         else ["https://js.stripe.com"; "https://checkout.stripe.com"];
       cdn := {| cloudfront := e !! "NEXT_PUBLIC_CLOUDFRONT_URL";
                 cloudflare := e !! "NEXT_PUBLIC_CLOUDFLARE_URL";
                 custom := e !! "NEXT_PUBLIC_CDN_URL" |} |} in
  if truthy supabase_url
  then rest <$> url_origin (default "" supabase_url)
  else Some (rest "https://*.supabase.co").

Definition buildImgSrc (w : World) : option string :=
  buildImgSrc_of <$> getExternalDomains w.

Definition buildConnectSrc (w : World) (isDevelopment : bool) : option string :=
  (fun d => buildConnectSrc_of d isDevelopment) <$> getExternalDomains w.

(** [generateCSP]: [None] when building a directive throws. *)
Definition generateCSP (w : World) (nonce : option string) (isDevelopment : bool)
  : option string :=
  match buildImgSrc w, buildConnectSrc w isDevelopment with
  | Some imgSrc, Some connectSrc =>
      let cspDirectives :=
        [ "default-src 'self'";
          buildScriptSrc nonce isDevelopment;
          buildStyleSrc;
          imgSrc;
          buildFontSrc;
          connectSrc;
          buildFrameSrc;
          "object-src 'none'";
          "base-uri 'self'";
          "form-action 'self'";
          "frame-ancestors 'none'";
          "block-all-mixed-content" ]
        ++ (if isDevelopment then [] else ["upgrade-insecure-requests"]) in
      Some (join "; " cspDirectives)
  | _, _ => None
  end.

Definition getSecurityHeaders (w : World) (nonce : option string)
  : option (list (string * string)) :=
  let isDevelopment := node_env_is (env w) "development" in
  let headers :=
    [ ("X-Content-Type-Options", "nosniff");
      ("X-XSS-Protection", "1; mode=block");
      ("Referrer-Policy", "strict-origin-when-cross-origin");
      ("X-Frame-Options", "DENY");
      ("Permissions-Policy", "geolocation=(), microphone=(), camera=()") ] in
  let headers :=
    if negb isDevelopment then
      obj_set
        (obj_set headers "Strict-Transport-Security"
           "max-age=63072000; includeSubDomains; preload")
        "X-DNS-Prefetch-Control" "off"
    else obj_set headers "X-Frame-Options" "SAMEORIGIN" in
  obj_set headers "Content-Security-Policy" <$> generateCSP w nonce isDevelopment.

End Url.

(** ** Cache tags and cached read functions *)

Module CACHE_TAGS.
Definition POSTS : string := "posts".
Definition POST_BY_SLUG : string := "post-by-slug".
Definition POST_BY_ID : string := "post-by-id".
Definition CATEGORIES : string := "categories".
Definition TAGS : string := "tags".
Definition USER_POSTS : string := "user-posts".
Definition RELATED_POSTS : string := "related-posts".
Definition SEARCH_RESULTS : string := "search-results".
Definition USER_BOOKMARKS : string := "user-bookmarks".
Definition USER_FAVORITES : string := "user-favorites".
Definition POPULAR_POSTS : string := "popular-posts".
Definition ANALYTICS : string := "analytics".
End CACHE_TAGS.

(** The function a cached read wraps: the query itself, or a
    module-level [memoize] wrapper of the query. *)
Inductive Wrapped :=
| Query
| MemoizedQuery.

(** The arguments of [createCachedFunction(fn, keyPrefix, revalidate,
    tags)]: the wrapped function, and what is handed to [unstable_cache]
    for the key parts and the tags of the entry. *)
Record CachedFunction := {
  fn : Wrapped;
  keyPrefix : string;
  revalidate : Z;
  declaredTags : list string
}.

Definition allTags (f : CachedFunction) : list string :=
  declaredTags f ++ [keyPrefix f].

(** The key parts: [args_json] are the [JSON.stringify] images of the
    call's arguments. *)
Definition keyParts (f : CachedFunction) (args_json : list string) : list string :=
  keyPrefix f :: args_json.

Module CACHE_DURATIONS.
Definition POSTS_LIST : Z := 600.
Definition POST_DETAIL : Z := 600.
Definition STATIC_DATA : Z := 3600.
Definition USER_DATA : Z := 60.
Definition SEARCH : Z := 180.
Definition POPULAR_CONTENT : Z := 1800.
Definition ANALYTICS : Z := 1800.
End CACHE_DURATIONS.

Definition cached (prefix : string) (ttl : Z) (tags : list string) : CachedFunction :=
  {| fn := Query; keyPrefix := prefix; revalidate := ttl; declaredTags := tags |}.

(** A cached read whose first argument is a [memoize] wrapper. *)
Definition cached_memoized (prefix : string) (ttl : Z) (tags : list string)
  : CachedFunction :=
  {| fn := MemoizedQuery; keyPrefix := prefix; revalidate := ttl; declaredTags := tags |}.

(** The cached post reads of [lib/query.ts]. *)
Definition getCachedPosts :=
  cached_memoized "posts-paginated" CACHE_DURATIONS.POSTS_LIST [CACHE_TAGS.POSTS].
Definition getCachedPostSearch :=
  cached_memoized "posts-search" CACHE_DURATIONS.SEARCH
    [CACHE_TAGS.SEARCH_RESULTS; CACHE_TAGS.POSTS].
Definition getCachedRelatedPosts :=
  cached_memoized "related-posts" CACHE_DURATIONS.POSTS_LIST [CACHE_TAGS.RELATED_POSTS].
Definition getCachedPostById :=
  cached "post-by-id" CACHE_DURATIONS.POST_DETAIL [CACHE_TAGS.POST_BY_ID].
Definition getCachedPostBySlug :=
  cached "post-by-slug" CACHE_DURATIONS.POST_DETAIL [CACHE_TAGS.POST_BY_SLUG].
Definition getCachedPopularPosts :=
  cached "popular-posts" CACHE_DURATIONS.POPULAR_CONTENT [CACHE_TAGS.POPULAR_POSTS].

(** The cached post reads of the content module. *)
Definition getAllPosts :=
  cached "get-all-posts" CACHE_DURATIONS.POSTS_LIST [CACHE_TAGS.POSTS].
Definition getPostById :=
  cached "get-post-by-id" CACHE_DURATIONS.POST_DETAIL [CACHE_TAGS.POST_BY_ID].
Definition getPostsByCategory :=
  cached "get-posts-by-category" CACHE_DURATIONS.POSTS_LIST [CACHE_TAGS.POSTS].
Definition searchPosts :=
  cached "search-posts" CACHE_DURATIONS.SEARCH [CACHE_TAGS.SEARCH_RESULTS].
Definition getUserPosts :=
  cached "get-user-posts" CACHE_DURATIONS.USER_DATA [CACHE_TAGS.USER_POSTS; CACHE_TAGS.POSTS].

Definition post_reads : list CachedFunction :=
  [ getCachedPosts; getCachedPostSearch; getCachedRelatedPosts; getCachedPostById;
    getCachedPostBySlug; getCachedPopularPosts; getAllPosts; getPostById;
    getPostsByCategory; searchPosts; getUserPosts ].

(** The post mutations of the post actions module and the tags each one
    passes to [revalidateCache]. *)
Inductive PostAction :=
| createPostAction
| updatePostAction
| approvePostAction
| rejectPostAction
| deletePostAction
| togglePostPublishAction
| togglePostFeaturedAction.

Definition post_actions : list PostAction :=
  [ createPostAction; updatePostAction; approvePostAction; rejectPostAction;
    deletePostAction; togglePostPublishAction; togglePostFeaturedAction ].

Definition revalidated (a : PostAction) : list string :=
  match a with
  | createPostAction =>
      [ CACHE_TAGS.POSTS; CACHE_TAGS.POST_BY_SLUG; CACHE_TAGS.POST_BY_ID;
        CACHE_TAGS.CATEGORIES; CACHE_TAGS.TAGS; CACHE_TAGS.SEARCH_RESULTS;
        CACHE_TAGS.USER_POSTS; CACHE_TAGS.ANALYTICS ]
  | updatePostAction | approvePostAction | rejectPostAction | deletePostAction
  | togglePostPublishAction | togglePostFeaturedAction =>
      [ CACHE_TAGS.POSTS; CACHE_TAGS.POST_BY_ID; CACHE_TAGS.POST_BY_SLUG;
        CACHE_TAGS.CATEGORIES; CACHE_TAGS.TAGS; CACHE_TAGS.SEARCH_RESULTS;
        CACHE_TAGS.USER_POSTS; CACHE_TAGS.ANALYTICS ]
  end.

(** The tags the favorite toggle passes to [revalidateCache]. *)
Definition revalidated_by_toggleFavorite : list string :=
  [ CACHE_TAGS.USER_FAVORITES; CACHE_TAGS.POST_BY_ID; CACHE_TAGS.POPULAR_POSTS ].

Definition mem (t : string) (l : list string) : bool :=
  existsb (String.eqb t) l.

(** [revalidateCache(tags)] calls [revalidateTag] on each tag; an entry
    is dropped when one of its tags is revalidated. *)
Definition invalidates (tags : list string) (f : CachedFunction) : bool :=
  existsb (fun t => mem t tags) (allTags f).

(** Every tag of the entry is among the revalidated ones. *)
Definition covers (tags : list string) (f : CachedFunction) : bool :=
  forallb (fun t => mem t tags) (allTags f).

(** ** MemoryCache *)

Record Entry := {
  value : string;
  expires : Z
}.

Definition cache_get (key : string) (now : Z) (cache : gmap string Entry)
  : option string * gmap string Entry :=
  match cache !! key with
  | None => (None, delete key cache)
  | Some entry =>
      if (expires entry <? now)%Z then (None, delete key cache)
      else (Some (value entry), cache)
  end.

Definition cache_set (key val : string) (ttl : option Z) (now : Z)
  (cache : gmap string Entry) : gmap string Entry :=
  <[key := {| value := val; expires := (now + default 300 ttl * 1000)%Z |}]> cache.

Definition cache_del (key : string) (cache : gmap string Entry) : gmap string Entry :=
  delete key cache.

(** [pattern.replace(/\*/g, ".*")]. *)
Definition glob_source (pattern : string) : string :=
  str (flat_map (fun c => if Ascii.eqb c "*" then chars ".*" else [c]) (chars pattern)).

Inductive CacheOp :=
| OpGet (key : string)
| OpSet (key val : string) (ttl : option Z)
| OpDel (key : string)
| OpClear (pattern : option string).

Section Store.

(** [new RegExp(source)] is taken as given: the predicate [test] of the
    regular expression, [None] when the constructor throws. *)
Variable regexp : string -> option (string -> bool).

(** [clear]: [None] when it throws; the map is untouched then. *)
Definition cache_clear (pattern : option string) (cache : gmap string Entry)
  : option (gmap string Entry) :=
  if truthy pattern then
    match regexp (glob_source (default "" pattern)) with
    | None => None
    | Some test => Some (filter (fun kv => test kv.1 = false) cache)
    end
  else Some ∅.

(** One call on the store at clock reading [now]: the value returned by
    [get] (nothing for the other calls) and the store after it. *)
Definition cache_step (now : Z) (op : CacheOp) (cache : gmap string Entry)
  : option string * gmap string Entry :=
  match op with
  | OpGet key => cache_get key now cache
  | OpSet key val ttl => (None, cache_set key val ttl now cache)
  | OpDel key => (None, cache_del key cache)
  | OpClear pattern => (None, default cache (cache_clear pattern cache))
  end.

(** A history of calls with their clock readings, oldest first, run on a
    new store. *)
Definition cache_run (history : list (Z * CacheOp)) : gmap string Entry :=
  fold_left (fun cache ev => (cache_step ev.1 ev.2 cache).2) history ∅.

End Store.

(** ** Cache key generators *)

(** The values of a [Record<string, string | number | boolean>]; a
    property can also hold [undefined] or [null] at run time.  Numbers
    are the integers, printed in decimal as [Number.prototype.toString]
    prints them below 10^21. *)
Inductive Prim :=
| PString (s : string)
| PNumber (n : Z)
| PBoolean (b : bool)
| PUndefined
| PNull.

Definition number_to_string (n : Z) : string :=
  NilZero.string_of_int (Z.to_int n).

(** A value inside a template literal. *)
Definition template (v : Prim) : string :=
  match v with
  | PString s => s
  | PNumber n => number_to_string n
  | PBoolean true => "true"
  | PBoolean false => "false"
  | PUndefined => "undefined"
  | PNull => "null"
  end.

Definition is_space (c : ascii) : bool :=
  let n := code c in
  ((9 <=? n) && (n <=? 13) || (n =? 32) || (n =? 160))%N.

Definition is_word (c : ascii) : bool :=
  let n := code c in
  ((65 <=? n) && (n <=? 90) || (97 <=? n) && (n <=? 122) ||
   (48 <=? n) && (n <=? 57) || (n =? 95))%N.

(** [toLowerCase] on code units below 256. *)
Definition to_lower (c : ascii) : ascii :=
  let n := code c in
  if ((65 <=? n) && (n <=? 90) || (192 <=? n) && (n <=? 222) && negb (n =? 215))%N
  then ascii_of_N (n + 32) else c.

Fixpoint drop_spaces (l : list ascii) : list ascii :=
  match l with
  | [] => []
  | c :: r => if is_space c then drop_spaces r else l
  end.

Definition trim (l : list ascii) : list ascii :=
  rev (drop_spaces (rev (drop_spaces l))).

(** [replace(/\s+/g, "-")]: every maximal run of white space becomes one
    dash; [in_run] tells that the previous character was white space. *)
Fixpoint spaces_to_dash (in_run : bool) (l : list ascii) : list ascii :=
  match l with
  | [] => []
  | c :: r =>
      if is_space c then
        if in_run then spaces_to_dash true r else "-"%char :: spaces_to_dash true r
      else c :: spaces_to_dash false r
  end.

(** [replace(/[^\w-]/g, "")]. *)
Fixpoint keep_word_or_dash (l : list ascii) : list ascii :=
  match l with
  | [] => []
  | c :: r =>
      if is_word c || Ascii.eqb c "-" then c :: keep_word_or_dash r
      else keep_word_or_dash r
  end.

Definition normalizeQuery (query : string) : string :=
  str (keep_word_or_dash (spaces_to_dash false (trim (map to_lower (chars query))))).

Definition is_defined (v : Prim) : bool :=
  match v with
  | PUndefined | PNull => false
  | _ => true
  end.

Section Keys.

(** [a.localeCompare(b)] depends on the host's collation and is taken as
    given. *)
Variable localeCompare : string -> string -> Z.

(** [Array.prototype.sort] with the comparator on the keys: a stable
    sort, here by insertion. *)
Fixpoint insert_entry (e : string * Prim) (l : list (string * Prim)) : list (string * Prim) :=
  match l with
  | [] => [e]
  | x :: r =>
      if (localeCompare e.1 x.1 <=? 0)%Z then e :: l else x :: insert_entry e r
  end.

Definition sort_entries (l : list (string * Prim)) : list (string * Prim) :=
  foldr insert_entry [] l.

Definition render_entries (l : list (string * Prim)) : string :=
  join "-" (map (fun kv => kv.1 +:+ ":" +:+ template kv.2) (sort_entries l)).


Definition generateSearchKey (query : string) (filters : list (string * Prim)) : string :=
  let normalizedQuery := normalizeQuery query in
  let filterString :=
    render_entries (List.filter (fun kv => is_defined kv.2) filters) in
  "search-" +:+ normalizedQuery
  +:+ (if truthy (Some filterString) then "-" +:+ filterString else "").

End Keys.







(** Decimal numerals hold digits and a sign only. *)
Definition is_numeral_char (c : ascii) : bool :=
  let n := code c in ((48 <=? n) && (n <=? 57) || (n =? 45))%N.


(* ===================================================================== *)
(** * Part I, continued: the rest of the guard, the cache and the callers *)
(* ===================================================================== *)

(** ** CSRFProtection: getOrCreateToken, clearTokens, healthCheck *)

(** [getOrCreateToken]: the stored token when there is one; otherwise a
    new token that is stored; when storing throws, the [catch] block
    draws another token and returns it without storing it. *)
Definition getOrCreateToken (w : World) : string * World :=
  let token := getTokenFromCookie w in
  if negb (truthy token) then
    let (newToken, w1) := generateToken w in
    match setToken newToken w1 with
    | Some w2 => (newToken, w2)
    | None => generateToken w1
    end
  else (default "" token, w).

(** [clearTokens]: the three cookies are deleted; when the store is
    missing or read-only the error is logged and nothing changes. *)
Definition clearTokens (w : World) : World :=
  match cookieStore w with
  | None => w
  | Some jar =>
      if cookiesWritable w then
        let name := CSRF_COOKIE_NAME (env w) in
        with_cookies (delete (name +:+ "-debug") (delete (name +:+ "-backup") (delete name jar))) w
      else w
  end.

Record HealthCheck := {
  hasToken : bool;
  cookieIssues : list string;
  recommendations : list string
}.

Section Health.

(** The message of the error [cookies()] rejects with. *)
Variable cookies_error_message : string.

Definition healthCheck (w : World) : HealthCheck :=
  let token := getTokenFromCookie w in
  let issues := if negb (truthy token) then ["No CSRF token found in cookies"] else [] in
  let recs := if negb (truthy token) then ["Generate a new CSRF token"] else [] in
  if negb (node_env_is (env w) "production") then
    match cookieStore w with
    | None =>
        {| hasToken := truthy token;
           cookieIssues := issues ++ ["Health check failed: " +:+ cookies_error_message];
           recommendations := recs ++ ["Check cookie configuration and server setup"] |}
    | Some jar =>
        let debugToken := cookie_value <$> jar !! (CSRF_COOKIE_NAME (env w) +:+ "-debug") in
        {| hasToken := truthy token;
           cookieIssues :=
             if negb (truthy debugToken)
             then issues ++ ["Debug CSRF cookie missing in development"]
             else issues;
           recommendations := recs |}
    end
  else {| hasToken := truthy token; cookieIssues := issues; recommendations := recs |}.

End Health.

(** Whether a thrown value is a Next.js redirect, as the wrapper tests it. *)
Definition is_redirect (error : Thrown) : bool :=
  match error with
  | DigestError d => includes d "NEXT_REDIRECT"
  | _ => false
  end.

(** The world after [setToken "t0ken"] in [example_world]. *)
Definition issued_world : World :=
  default example_world (setToken "t0ken" example_world).

(** Web Crypto stand-ins for examples: a key that is always drawn and a
    signature that is the message itself; and a key that is never drawn. *)
Definition example_key (n : nat) : option unit := Some tt.
Definition example_sign (key : unit) (message : list Z) : option (list Z) := Some message.
Definition no_key (n : nat) : option unit := None.

(** A development server without a cookie store (no request scope). *)
Definition no_store_world : World :=
  {| env := {[ "NODE_ENV" := "development" ]};
     cookieStore := None;
     cookiesWritable := false;
     uuidSource := uuidSource example_world;
     rngIndex := 0 |}.

(** ** SecurityHeaders: reading the bundle *)

(** [headers[name]]. *)
Fixpoint obj_get (o : list (string * string)) (k : string) : option string :=
  match o with
  | [] => None
  | (k', v) :: r => if String.eqb k' k then Some v else obj_get r k
  end.

(** [s.endsWith(p)]. *)
Definition ends_with (s p : string) : bool :=
  starts_with (rev (chars p)) (rev (chars s)).

(** The environment variables the header composer reads. *)
Definition header_env_names : list string :=
  [ "NODE_ENV"; "NEXT_PUBLIC_SUPABASE_URL"; "NEXT_PUBLIC_SANITY_PROJECT_ID";
    "NEXT_PUBLIC_CLOUDFRONT_URL"; "NEXT_PUBLIC_CLOUDFLARE_URL"; "NEXT_PUBLIC_CDN_URL" ].

(** A production server with a Supabase URL and one more variable. *)
Definition production_world : World :=
  {| env := {[ "NODE_ENV" := "production";
               "NEXT_PUBLIC_SUPABASE_URL" := "https://abc.supabase.co/rest";
               "REDIS_URL" := "redis://cache:6379" ]};
     cookieStore := Some ∅;
     cookiesWritable := true;
     uuidSource := uuidSource example_world;
     rngIndex := 0 |}.

(** A parser for examples: the origin of [https://abc.supabase.co/rest]
    and nothing else. *)
Definition example_origin (s : string) : option string :=
  if String.eqb s "https://abc.supabase.co/rest" then Some "https://abc.supabase.co" else None.

(** The same server with another cache address and a stored token. *)
Definition production_world' : World :=
  {| env := {[ "NODE_ENV" := "production";
               "NEXT_PUBLIC_SUPABASE_URL" := "https://abc.supabase.co/rest";
               "REDIS_URL" := "redis://other:6379";
               "NEXT_RUNTIME" := "edge" ]};
     cookieStore := cookieStore issued_world;
     cookiesWritable := false;
     uuidSource := uuidSource example_world';
     rngIndex := 7 |}.

(** ** MemoryCache: what a call does to one key *)

Section Touch.

Variable regexp : string -> option (string -> bool).

(** The call can change the entry of [key]: it names the key, or it is
    a [clear] without pattern, or with a pattern whose regular
    expression accepts the key. *)
Definition touches (key : string) (op : CacheOp) : bool :=
  match op with
  | OpGet k | OpSet k _ _ | OpDel k => String.eqb k key
  | OpClear pattern =>
      if truthy pattern then
        match regexp (glob_source (default "" pattern)) with
        | None => false
        | Some test => test key
        end
      else true
  end.

(** The call removes the entry of [key] whatever the store holds. *)
Definition removes (key : string) (op : CacheOp) : bool :=
  match op with
  | OpDel _ | OpClear _ => touches key op
  | OpGet _ | OpSet _ _ _ => false
  end.

(** The call, made at clock reading [ev.1], leaves in place an entry of
    [key] that expires at [expiry]. *)
Definition leaves (key : string) (expiry : Z) (ev : Z * CacheOp) : bool :=
  negb (touches key ev.2) ||
  match ev.2 with
  | OpGet _ => (ev.1 <=? expiry)%Z
  | _ => false
  end.

Definition is_set_of (key : string) (op : CacheOp) : bool :=
  match op with
  | OpSet k _ _ => String.eqb k key
  | _ => false
  end.

End Touch.

(** ** The cache probe of the status route *)

Record CacheTest := {
  set_time : string;
  get_success : bool;
  get_time : string;
  delete_success : bool;
  delete_time : string;
  totalTime : string
}.

(** [MemoryCache.get] with the clock as a sequence of readings:
    [Date.now()] is read only when the key has an entry, [n] counts the
    readings made so far. *)
Definition cache_get_reading (key : string) (clock : nat -> Z) (n : nat)
  (cache : gmap string Entry) : option string * gmap string Entry * nat :=
  match cache !! key with
  | None => (None, delete key cache, n)
  | Some _ => (cache_get key (clock n) cache, S n)
  end.

(** [testCacheOperations] on a [MemoryCache]; [clock n] is the [n]-th
    reading of [Date.now()].  No call of the store throws, the [catch]
    block is not reached. *)
Definition testCacheOperations (clock : nat -> Z) (cache : gmap string Entry)
  : CacheTest * gmap string Entry :=
  let testKey := "test:" +:+ number_to_string (clock 0) in
  let testValue := "cache-test-value" in
  let setStart := clock 1 in
  let cache := cache_set testKey testValue (Some 60%Z) (clock 2) cache in
  let setTime := (clock 3%nat - setStart)%Z in
  let getStart := clock 4 in
  let '(retrievedValue, cache, n) := cache_get_reading testKey clock 5 cache in
  let getTime := (clock n - getStart)%Z in
  let delStart := clock (S n) in
  let cache := cache_del testKey cache in
  let delTime := (clock (S (S n)) - delStart)%Z in
  let '(deletedValue, cache, _) := cache_get_reading testKey clock (S (S (S n))) cache in
  ({| set_time := number_to_string setTime +:+ "ms";
      get_success := bool_decide (retrievedValue = Some testValue);
      get_time := number_to_string getTime +:+ "ms";
      delete_success := bool_decide (deletedValue = None);
      delete_time := number_to_string delTime +:+ "ms";
      totalTime := number_to_string (setTime + getTime + delTime) +:+ "ms" |},
   cache).

(** ** Invalidation: [clearAllCaches] *)

(** The cached metadata reads of [lib/query.ts] and of the content
    module. *)
Definition getCachedCategories :=
  cached "all-categories" CACHE_DURATIONS.STATIC_DATA [CACHE_TAGS.CATEGORIES].
Definition getCachedTags :=
  cached "all-tags" CACHE_DURATIONS.STATIC_DATA [CACHE_TAGS.TAGS].
Definition getCachedPopularTags :=
  cached "popular-tags" CACHE_DURATIONS.STATIC_DATA [CACHE_TAGS.TAGS].
Definition getAllCategories :=
  cached "get-all-categories" CACHE_DURATIONS.STATIC_DATA [CACHE_TAGS.CATEGORIES].
Definition getAllTags :=
  cached "get-all-tags" CACHE_DURATIONS.STATIC_DATA [CACHE_TAGS.TAGS].
Definition getTagsPaginated :=
  cached "get-tags-paginated" CACHE_DURATIONS.STATIC_DATA [CACHE_TAGS.TAGS].
Definition searchTags :=
  cached "search-tags" CACHE_DURATIONS.SEARCH [CACHE_TAGS.SEARCH_RESULTS].

Definition metadata_reads : list CachedFunction :=
  [ getCachedCategories; getCachedTags; getCachedPopularTags; getAllCategories;
    getAllTags; getTagsPaginated; searchTags ].

(** [Object.values(CACHE_TAGS)], in the order of the declaration. *)
Definition cache_tag_values : list string :=
  [ CACHE_TAGS.POSTS; CACHE_TAGS.POST_BY_SLUG; CACHE_TAGS.POST_BY_ID;
    CACHE_TAGS.CATEGORIES; CACHE_TAGS.TAGS; CACHE_TAGS.USER_POSTS;
    CACHE_TAGS.RELATED_POSTS; CACHE_TAGS.SEARCH_RESULTS; CACHE_TAGS.USER_BOOKMARKS;
    CACHE_TAGS.USER_FAVORITES; CACHE_TAGS.POPULAR_POSTS; CACHE_TAGS.ANALYTICS ].

(** [clearAllCaches]: the store afterwards and the tags handed to
    [revalidateTag].  [clear] is the store's [clear()], [None] when it
    throws; the [catch] block then only logs. *)
Definition clearAllCaches {Store : Type} (clear : Store -> option Store) (store : Store)
  : Store * list string :=
  match clear store with
  | Some store' => (store', cache_tag_values)
  | None => (store, [])
  end.

(** ** CacheMetrics and memoize *)

(** The static counters of [CacheMetrics]. *)
Record Metrics := {
  hits : Z;
  misses : Z;
  errors : Z
}.

Definition recordHit (m : Metrics) : Metrics :=
  {| hits := hits m + 1; misses := misses m; errors := errors m |}.

Definition recordMiss (m : Metrics) : Metrics :=
  {| hits := hits m; misses := misses m + 1; errors := errors m |}.

Definition recordError (m : Metrics) : Metrics :=
  {| hits := hits m; misses := misses m; errors := errors m + 1 |}.

Definition metrics_reset : Metrics :=
  {| hits := 0; misses := 0; errors := 0 |}.

(** The [total] of [getStats]. *)
Definition stats_total (m : Metrics) : Z := (hits m + misses m)%Z.

(** What a call of the wrapped function does: its promise fulfils,
    its promise rejects, or the call itself throws. *)
Inductive Outcome (R : Type) :=
| Fulfils (r : R)
| Rejects (error : string)
| Throws (error : string).

Arguments Fulfils {R} r.
Arguments Rejects {R} error.
Arguments Throws {R} error.

Section JsMap.

Context {V : Type}.

(** A [Map<string, V>] with its insertion order, oldest entry first. *)
Fixpoint jsmap_get (m : list (string * V)) (k : string) : option V :=
  match m with
  | [] => None
  | (k', v) :: r => if String.eqb k' k then Some v else jsmap_get r k
  end.

(** [Map.set]: an existing key keeps its place. *)
Fixpoint jsmap_set (m : list (string * V)) (k : string) (v : V) : list (string * V) :=
  match m with
  | [] => [(k, v)]
  | (k', v') :: r => if String.eqb k' k then (k', v) :: r else (k', v') :: jsmap_set r k v
  end.

Fixpoint jsmap_delete (m : list (string * V)) (k : string) : list (string * V) :=
  match m with
  | [] => []
  | (k', v') :: r => if String.eqb k' k then r else (k', v') :: jsmap_delete r k
  end.

End JsMap.

Section Memoize.

Context {A R : Type}.

(** [getKey(...args)], or [JSON.stringify(args)] when no [getKey] is
    given. *)
Variable key_of : A -> string.
Variable maxSize : Z.

(** The state of one memoized function: its map of promises, each with
    the way it settled, and the shared counters. *)
Definition MemoState : Type := list (string * Outcome R) * Metrics.

(** One call of the memoized function, awaited before the next call is
    made.  [run] is what [fn(...args)] does if it is called now.  The
    result is what the caller observes, whether [fn] was called, and the
    state when the returned promise has settled. *)
Definition memo_call (args : A) (run : Outcome R) (st : MemoState)
  : Outcome R * bool * MemoState :=
  let '(cache, m) := st in
  let key := key_of args in
  match jsmap_get cache key with
  | Some promise => (promise, false, (cache, recordHit m))
  | None =>
      let m := recordMiss m in
      let cache :=
        if (maxSize <=? Z.of_nat (length cache))%Z then
          match cache with
          | [] => cache
          | (firstKey, _) :: _ => jsmap_delete cache firstKey
          end
        else cache in
      match run with
      | Fulfils r => (Fulfils r, true, (jsmap_set cache key (Fulfils r), m))
      | Rejects e =>
          (Rejects e, true,
           (jsmap_delete (jsmap_set cache key (Rejects e)) key, recordError m))
      | Throws e => (Throws e, true, (cache, m))
      end
  end.

(** The map after the eviction step of a miss: without its oldest entry
    when it holds [maxSize] entries or more. *)
Definition memo_evicted (cache : list (string * Outcome R)) : list (string * Outcome R) :=
  if (maxSize <=? Z.of_nat (length cache))%Z then tl cache else cache.

(** The shape of the map of a memoized function that started empty:
    distinct keys, fulfilled promises only, a bounded size. *)
Definition memo_ok (cache : list (string * Outcome R)) : Prop :=
  NoDup (map fst cache) /\
  Forall (fun kp => exists r, kp.2 = Fulfils r) cache /\
  (Z.of_nat (length cache) <= Z.max maxSize 1)%Z.

(** A sequence of calls, oldest first: what each call returned and
    whether it called [fn], and the state at the end. *)
Fixpoint memo_run (calls : list (A * Outcome R)) (st : MemoState)
  : list (Outcome R * bool) * MemoState :=
  match calls with
  | [] => ([], st)
  | (args, run) :: rest =>
      let '(result, called, st') := memo_call args run st in
      let '(results, st'') := memo_run rest st' in
      ((result, called) :: results, st'')
  end.

End Memoize.

(** ** Reading through the data cache and a memoize map *)

Section CachedReads.

Context {R : Type}.

(** The Next.js data cache behind [unstable_cache] is taken as given:
    a fulfilled result is stored under the key parts of the call with
    the tags of the function, and [revalidateTag] drops the entries that
    carry the tag.  Expiry after [revalidate] seconds is not modelled:
    the reads are made within that time. *)
Definition DataCache : Type := list (list string * (R * list string)).

Fixpoint data_get (entries : DataCache) (key : list string) : option R :=
  match entries with
  | [] => None
  | (k, (r, _)) :: rest => if bool_decide (k = key) then Some r else data_get rest key
  end.

Definition revalidateTag (tag : string) (entries : DataCache) : DataCache :=
  List.filter (fun e => negb (mem tag e.2.2)) entries.

(** [revalidateCache(tags)] with an array of tags. *)
Definition revalidateCache (tags : list string) (entries : DataCache) : DataCache :=
  fold_left (fun es tag => revalidateTag tag es) tags entries.

(** One awaited call of a function made by [createCachedFunction],
    without [transform]: [args_json] are the [JSON.stringify] images of
    the arguments, [memo_key] is the key the wrapped [memoize] wrapper
    computes for them (its [maxSize] is the default, 1000), and [run]
    is what the query does if it is run now.  The result the caller
    observes, whether the query was run, and the data cache and the
    state of the memoize wrapper afterwards. *)
Definition cached_call (f : CachedFunction) (args_json : list string) (memo_key : string)
  (run : Outcome R) (st : DataCache * @MemoState R)
  : Outcome R * bool * (DataCache * @MemoState R) :=
  let '(entries, memo) := st in
  match data_get entries (keyParts f args_json) with
  | Some r => (Fulfils r, false, st)
  | None =>
      let '(outcome, called, memo') :=
        match fn f with
        | Query => (run, true, memo)
        | MemoizedQuery => memo_call id 1000 memo_key run memo
        end in
      match outcome with
      | Fulfils r =>
          (Fulfils r, called,
           ((keyParts f args_json, (r, allTags f)) :: entries, memo'))
      | Rejects e | Throws e => (Rejects e, called, (entries, memo'))
      end
  end.

End CachedReads.

(** ** The alphabet of normalised queries *)

(** Lower-case letters, digits, underscore and dash. *)
Definition is_key_char (c : ascii) : bool :=
  let n := code c in
  ((97 <=? n) && (n <=? 122) || (48 <=? n) && (n <=? 57) || (n =? 95) || (n =? 45))%N.

Definition is_upper (c : ascii) : bool :=
  let n := code c in ((65 <=? n) && (n <=? 90))%N.

(** ** Post actions: the posts table *)

Inductive PostStatus :=
| DRAFT
| PENDING_APPROVAL
| APPROVED
| REJECTED.

Definition status_eqb (a b : PostStatus) : bool :=
  match a, b with
  | DRAFT, DRAFT | PENDING_APPROVAL, PENDING_APPROVAL
  | APPROVED, APPROVED | REJECTED, REJECTED => true
  | _, _ => false
  end.

(** The columns of a post that the status actions read or write. *)
Record Post := {
  title : string;
  slug : string;
  authorId : string;
  isPublished : bool;
  isFeatured : bool;
  status : PostStatus;
  updatedAt : Z
}.

(** The posts table, by post id. *)
Abbreviation Posts := (gmap string Post).

(** [currentUser.userData]. *)
Record UserData := {
  user_id : string;
  role : string
}.

(** ** Post actions: the slug of a new or edited post *)

(** [title.toLowerCase().replace(/\s+/g, "-").replace(/[^\w-]/g, "")]. *)
Definition slug_of_title (title : string) : string :=
  str (keep_word_or_dash (spaces_to_dash false (map to_lower (chars title)))).

(** [rawSlug || <slug of the title>]. *)
Definition baseSlug_of (rawSlug : option string) (title : string) : string :=
  if truthy rawSlug then default "" rawSlug else slug_of_title title.

(** [prisma.post.findFirst({ where: { slug, NOT: { id } } })] finds a
    post; [exclude] is absent in [createPostAction]. *)
Definition slug_taken (posts : Posts) (exclude : option string) (s : string) : bool :=
  existsb
    (fun kv => String.eqb (slug kv.2) s && negb (bool_decide (exclude = Some kv.1)))
    (map_to_list posts).

(** The [while (true)] loop that looks for a free slug, with [fuel]
    bounding its iterations: the slug found, or the message of the
    error thrown; [None] when the fuel runs out. *)
Fixpoint unique_slug_loop (fuel : nat) (taken : string -> bool) (baseSlug slug : string)
  (counter : Z) : option (string + string) :=
  match fuel with
  | O => None
  | S fuel' =>
      if negb (taken slug) then Some (inl slug)
      else
        let slug := baseSlug +:+ "-" +:+ number_to_string counter in
        let counter := (counter + 1)%Z in
        if (counter >? 1000)%Z then Some (inr "Unable to generate unique slug")
        else unique_slug_loop fuel' taken baseSlug slug counter
  end.

Definition ensureUniqueSlug (taken : string -> bool) (baseSlug : string)
  : option (string + string) :=
  unique_slug_loop 1000 taken baseSlug baseSlug 1.

(** The slugs the loop can try, in order. *)
Definition slug_candidates (baseSlug : string) : list string :=
  baseSlug ::
  map (fun n => baseSlug +:+ "-" +:+ number_to_string (Z.of_nat n)) (seq 1 999).

(** ** Post actions: publication and status *)

(** The [isPublished] and [status] that [createPostAction] and
    [updatePostAction] write: [requestedPublish] is
    [formData.get("isPublished") === "on"].  Other roles are rejected
    before. *)
Definition written_status (userRole : string) (requestedPublish : bool)
  : bool * PostStatus :=
  if String.eqb userRole "ADMIN" then
    (requestedPublish, if requestedPublish then APPROVED else DRAFT)
  else (false, PENDING_APPROVAL).

(** What a status action leaves behind: its result (the message of the
    success object, or the message of the [Error] it rejects with), the
    posts table, and the tags and paths it revalidated. *)
Record ActionOutcome := {
  result : string + string;
  posts_after : Posts;
  revalidated_tags : list string;
  revalidated_paths : list string
}.

Definition action_failed (message : string) (posts : Posts) : ActionOutcome :=
  {| result := inr message; posts_after := posts;
     revalidated_tags := []; revalidated_paths := [] |}.

Definition quote : string := String "034"%char EmptyString.

Section StatusActions.

(** Without [currentUser.userData] the action calls
    [handleAuthRedirect()] and, if that returns, reads a property of
    null: either way something is thrown inside the [try] block.
    [auth_error] is the message of that error when it is an [Error]. *)
Variable auth_error : option string.

(** The checks shared by the four actions: an administrator, a post id,
    a post. *)
Definition admin_post (fallback : string) (currentUser : option UserData)
  (postId : string) (posts : Posts) : string + Post :=
  match currentUser with
  | None => inl (default fallback auth_error)
  | Some userData =>
      if negb (String.eqb (role userData) "ADMIN") then
        inl "Unauthorized: Admin access required"
      else if negb (truthy (Some postId)) then inl "Invalid post ID"
      else
        match posts !! postId with
        | None => inl "Post not found"
        | Some existingPost => inr existingPost
        end
  end.

Definition post_tags : list string :=
  [ CACHE_TAGS.POSTS; CACHE_TAGS.POST_BY_ID; CACHE_TAGS.POST_BY_SLUG;
    CACHE_TAGS.CATEGORIES; CACHE_TAGS.TAGS; CACHE_TAGS.SEARCH_RESULTS;
    CACHE_TAGS.USER_POSTS; CACHE_TAGS.ANALYTICS ].

(** [approvePostAction]; [now] is the reading of [new Date()]. *)
Definition approvePost (now : Z) (currentUser : option UserData) (postId : string)
  (posts : Posts) : ActionOutcome :=
  match admin_post "Failed to approve post" currentUser postId posts with
  | inl message => action_failed message posts
  | inr existingPost =>
      if negb (status_eqb (status existingPost) PENDING_APPROVAL) then
        action_failed "Post is not pending approval" posts
      else
        {| result :=
             inl ("Post " +:+ quote +:+ title existingPost +:+ quote
                  +:+ " approved and published successfully");
           posts_after :=
             <[postId := {| title := title existingPost; slug := slug existingPost;
                            authorId := authorId existingPost;
                            isPublished := true;
                            isFeatured := isFeatured existingPost;
                            status := APPROVED;
                            updatedAt := now |}]> posts;
           revalidated_tags := post_tags;
           revalidated_paths := ["/dashboard/posts"] |}
  end.

(** [rejectPostAction]; [now] is the reading of [new Date()]. *)
Definition rejectPost (now : Z) (currentUser : option UserData) (postId : string)
  (posts : Posts) : ActionOutcome :=
  match admin_post "Failed to reject post" currentUser postId posts with
  | inl message => action_failed message posts
  | inr existingPost =>
      if negb (status_eqb (status existingPost) PENDING_APPROVAL) then
        action_failed "Only posts pending approval can be rejected" posts
      else
        {| result :=
             inl ("Post " +:+ quote +:+ title existingPost +:+ quote
                  +:+ " rejected successfully");
           posts_after :=
             <[postId := {| title := title existingPost; slug := slug existingPost;
                            authorId := authorId existingPost;
                            isPublished := false;
                            isFeatured := isFeatured existingPost;
                            status := REJECTED;
                            updatedAt := now |}]> posts;
           revalidated_tags := post_tags;
           revalidated_paths := ["/dashboard/posts"] |}
  end.

(** [togglePostPublishAction]; [now] is the reading of [new Date()]. *)
Definition togglePostPublish (now : Z) (currentUser : option UserData) (postId : string)
  (posts : Posts) : ActionOutcome :=
  match admin_post "Failed to update post status" currentUser postId posts with
  | inl message => action_failed message posts
  | inr existingPost =>
      let newPublishedState := negb (isPublished existingPost) in
      let newStatus := if newPublishedState then APPROVED else DRAFT in
      {| result :=
           inl ("Post " +:+ (if isPublished existingPost then "unpublished" else "published")
                +:+ " successfully");
         posts_after :=
           <[postId := {| title := title existingPost; slug := slug existingPost;
                          authorId := authorId existingPost;
                          isPublished := newPublishedState;
                          isFeatured := isFeatured existingPost;
                          status := newStatus;
                          updatedAt := now |}]> posts;
         revalidated_tags := post_tags;
         revalidated_paths := ["/dashboard/posts"; "/"] |}
  end.

(** [togglePostFeaturedAction]; [now] is the reading of [new Date()]. *)
Definition togglePostFeatured (now : Z) (currentUser : option UserData) (postId : string)
  (posts : Posts) : ActionOutcome :=
  match admin_post "Failed to update post featured status" currentUser postId posts with
  | inl message => action_failed message posts
  | inr existingPost =>
      let newFeaturedState := negb (isFeatured existingPost) in
      {| result :=
           inl ("Post " +:+ (if isFeatured existingPost then "unfeatured" else "featured")
                +:+ " successfully");
         posts_after :=
           <[postId := {| title := title existingPost; slug := slug existingPost;
                          authorId := authorId existingPost;
                          isPublished := isPublished existingPost;
                          isFeatured := newFeaturedState;
                          status := status existingPost;
                          updatedAt := now |}]> posts;
         revalidated_tags := post_tags;
         revalidated_paths := ["/dashboard/posts"; "/"] |}
  end.

(** The four status actions. *)
Inductive StatusAction :=
| Approve
| Reject
| TogglePublish
| ToggleFeatured.

Definition run_status_action (a : StatusAction)
  : Z -> option UserData -> string -> Posts -> ActionOutcome :=
  match a with
  | Approve => approvePost
  | Reject => rejectPost
  | TogglePublish => togglePostPublish
  | ToggleFeatured => togglePostFeatured
  end.

(** A sequence of calls of the status actions, oldest first, each with
    its clock reading, caller and post id: the posts table at the end. *)
Definition run_status_actions
  (calls : list (StatusAction * Z * option UserData * string)) (posts : Posts) : Posts :=
  fold_left
    (fun table call =>
       posts_after (run_status_action call.1.1.1 call.1.1.2 call.1.2 call.2 table))
    calls posts.

End StatusActions.

(** A post is published exactly when its status is [APPROVED]. *)
Definition publication_consistent (p : Post) : bool :=
  Bool.eqb (isPublished p) (status_eqb (status p) APPROVED).

(** A table for examples: a pending post and a rejected one. *)
Definition example_posts : Posts :=
  {[ "p1" := {| title := "Hello"; slug := "hello"; authorId := "u1";
                isPublished := false; isFeatured := false;
                status := PENDING_APPROVAL; updatedAt := 0 |};
     "p2" := {| title := "Again"; slug := "again"; authorId := "u2";
                isPublished := false; isFeatured := true;
                status := REJECTED; updatedAt := 0 |} ]}.

Definition example_admin : UserData := {| user_id := "a1"; role := "ADMIN" |}.

(** ** The middleware *)

(** What the middleware reads of a request: [csrf_header] is
    [request.headers.get("x-csrf-token")]. *)
Record Request := {
  method : string;
  pathname : string;
  csrf_header : option string
}.

Definition state_changing_methods : list string := ["POST"; "PUT"; "DELETE"; "PATCH"].

Definition skipCSRF : list string :=
  [ "/api/webhooks/"; "/api/upload/"; "/api/media/resolve"; "/auth/callback";
    "/api/auth/"; "/api/security/csp-report" ].

(** [skipCSRF.some((path) => pathname.startsWith(path))]. *)
Definition shouldSkipCSRF (pathname : string) : bool :=
  existsb (fun path => starts_with (chars path) (chars pathname)) skipCSRF.

Definition is_api_path (pathname : string) : bool :=
  starts_with (chars "/api/") (chars pathname).

(** The requests whose CSRF token the middleware checks. *)
Definition csrf_checked (request : Request) : bool :=
  mem (method request) state_changing_methods &&
  (negb (shouldSkipCSRF (pathname request)) && is_api_path (pathname request)).

Record RateLimitResult := {
  allowed : bool;
  resetTime : Z
}.

(** The [csp-nonce] cookie set on the response. *)
Record NonceCookie := {
  nonce_value : string;
  nonce_httpOnly : bool;
  nonce_secure : bool;
  nonce_sameSite : string;
  nonce_maxAge : Z
}.

(** The responses of the middleware: the response of [updateSession]
    as it is; a JSON response with its status, its [code], the
    [retryAfter] of its body and the headers object it is built with;
    or [NextResponse.next] with the [x-nonce] request header, the nonce
    cookie and the headers set on the session response, in order. *)
Inductive Reply :=
| SessionReply
| JsonReply (status_code : Z) (code : string) (retryAfter : option Z)
    (headers : list (string * string))
| NextReply (x_nonce : string) (cookie : NonceCookie) (header_sets : list (string * string)).

Definition basicSecurityHeaders : list (string * string) :=
  [ ("X-Content-Type-Options", "nosniff");
    ("X-Frame-Options", "DENY");
    ("X-XSS-Protection", "1; mode=block") ].

(** The response of the [catch] block. *)
Definition middleware_error : Reply :=
  JsonReply 500 "MIDDLEWARE_ERROR" None basicSecurityHeaders.

(** [Math.ceil(ms / 1000)] on an integer number of milliseconds. *)
Definition ceil_seconds (ms : Z) : Z := (- ((- ms) / 1000))%Z.

Section Middleware.

Variable CryptoKey : Type.
Variable generateKey : nat -> option CryptoKey.
Variable sign : CryptoKey -> list Z -> option (list Z).
Variable url_origin : string -> option string.

(** The helpers of the edge library and of Supabase are taken as given:
    [nonce] is the value of [CSPNonce.generate()]; [updateSession]
    tells whether the session response has a [Location] header, [None]
    when it throws; [rate_limit] is [rateLimits.api], [None] when it
    throws; [getRateLimitHeaders] gives the entries of the rate-limit
    headers with their values as strings; [rateLimitExceeded] tells
    whether the security event is recorded without an error.
    [getClientIP], [getClientIdentifier] and [sanitizeUserAgent]
    return. *)
Variable nonce : string.
Variable updateSession : Request -> option bool.
Variable getClientIdentifier : Request -> string.
Variable rate_limit : string -> option RateLimitResult.
Variable getRateLimitHeaders : RateLimitResult -> list (string * string).
Variable rateLimitExceeded : bool.

(** The CSRF check of a state-changing request: the response to return
    at once, if any, and the world after [validateToken]. *)
Definition middleware_csrf (request : Request) (securityHeaders : list (string * string))
  (w : World) : option Reply * World :=
  if mem (method request) state_changing_methods then
    let shouldValidateCSRF := negb (shouldSkipCSRF (pathname request)) in
    if shouldValidateCSRF && is_api_path (pathname request) then
      let csrfToken := csrf_header request in
      if negb (truthy csrfToken) then
        (Some (JsonReply 403 "CSRF_TOKEN_MISSING" None securityHeaders), w)
      else
        let (isValid, w1) := validateToken CryptoKey generateKey sign csrfToken w in
        if negb isValid then
          (Some (JsonReply 403 "CSRF_TOKEN_INVALID" None securityHeaders), w1)
        else (None, w1)
    else (None, w)
  else (None, w).

(** [middleware]: the response, the world afterwards and the number of
    calls of the rate limiter.  [now1] and [now2] are the two readings
    of [Date.now()] in the rate-limit response. *)
Definition middleware (now1 now2 : Z) (request : Request) (w : World)
  : Reply * World * nat :=
  let isDevelopment := node_env_is (env w) "development" in
  match updateSession request with
  | None => (middleware_error, w, 0)
  | Some true => (SessionReply, w, 0)
  | Some false =>
      let cookie :=
        {| nonce_value := nonce; nonce_httpOnly := false;
           nonce_secure := negb isDevelopment; nonce_sameSite := "strict";
           nonce_maxAge := 60 * 60 |} in
      match getSecurityHeaders url_origin w (Some nonce) with
      | None => (middleware_error, w, 0)
      | Some securityHeaders =>
          match middleware_csrf request securityHeaders w with
          | (Some reply, w1) => (reply, w1, 0)
          | (None, w1) =>
              if is_api_path (pathname request) then
                match rate_limit (getClientIdentifier request) with
                | None => (middleware_error, w1, 1)
                | Some rateLimitResult =>
                    if negb (allowed rateLimitResult) then
                      if rateLimitExceeded then
                        (JsonReply 429 "RATE_LIMIT_EXCEEDED"
                           (Some (ceil_seconds (resetTime rateLimitResult - now1)))
                           (obj_set
                              (fold_left (fun o kv => obj_set o kv.1 kv.2)
                                 (getRateLimitHeaders rateLimitResult) securityHeaders)
                              "Retry-After"
                              (number_to_string
                                 (ceil_seconds (resetTime rateLimitResult - now2)))),
                         w1, 1)
                      else (middleware_error, w1, 1)
                    else
                      (NextReply nonce cookie
                         (securityHeaders ++ getRateLimitHeaders rateLimitResult),
                       w1, 1)
                end
              else (NextReply nonce cookie securityHeaders, w1, 0)
          end
      end
  end.

End Middleware.

(** A state-changing API request without a token, and helpers of the
    edge library for examples: no redirect, no limit reached. *)
Definition example_request : Request :=
  {| method := "POST"; pathname := "/api/posts"; csrf_header := None |}.

Definition example_middleware (request : Request) (w : World) : Reply * World * nat :=
  middleware unit example_key example_sign example_origin "n0nce"
    (fun _ => Some false) (fun _ => "client")
    (fun _ => Some {| allowed := true; resetTime := 0 |}) (fun _ => []) true
    0 0 request w.

(** A production server whose Supabase URL is no URL. *)
Definition misconfigured_world : World :=
  {| env := {[ "NODE_ENV" := "production";
               "NEXT_PUBLIC_SUPABASE_URL" := "supabase" ]};
     cookieStore := Some ∅;
     cookiesWritable := true;
     uuidSource := uuidSource example_world;
     rngIndex := 0 |}.

(* ===================================================================== *)
(** * Part II: theorems                                                   *)
(* ===================================================================== *)

(** ** Strings and Base64 *)

Lemma str_length (l : list ascii) : String.length (str l) = length l.
Proof.
  induction l as [|c l IH]; simpl; [reflexivity | now rewrite IH].
Qed.

Lemma chars_str (l : list ascii) : chars (str l) = l.
Proof. apply list_ascii_of_string_of_list_ascii. Qed.

Lemma str_chars (s : string) : str (chars s) = s.
Proof. apply string_of_list_ascii_of_string. Qed.

Lemma chars_app (s t : string) : chars (s +:+ t) = chars s ++ chars t.
Proof.
  induction s as [|c s IH]; simpl; [reflexivity | now rewrite <- IH].
Qed.

(** Lists three elements at a time, as [btoa] reads its input. *)
Lemma list_ind3 {A} (P : list A -> Prop) :
  P [] -> (forall a, P [a]) -> (forall a b, P [a; b]) ->
  (forall a b c r, P r -> P (a :: b :: c :: r)) ->
  forall l, P l.
Proof.
  intros H0 H1 H2 H3.
  refine (fix go l :=
            match l with
            | [] => H0
            | [a] => H1 a
            | [a; b] => H2 a b
            | a :: b :: c :: r => H3 a b c r (go r)
            end).
Qed.

Lemma b64_char_in_alphabet (i : N) : In (b64_char i) base64_alphabet.
Proof.
  unfold b64_char.
  destruct (Nat.lt_ge_cases (N.to_nat i) (length base64_alphabet)) as [Hlt|Hge].
  - now apply nth_In.
  - rewrite nth_overflow by exact Hge. simpl. now left.
Qed.

Lemma url_safe_cons (c : ascii) (l : list ascii) :
  url_safe (c :: l) =
  match url_safe_char c with
  | Some c' => c' :: url_safe l
  | None => url_safe l
  end.
Proof.
  unfold url_safe, url_safe_char, replace_char. simpl.
  destruct (Ascii.eqb _ "="); reflexivity.
Qed.

Lemma url_safe_alphabet (c : ascii) :
  In c base64_alphabet ->
  exists c', url_safe_char c = Some c' /\ is_base64url_char c' = true.
Proof.
  intros Hin.
  assert (Hall : forallb (fun x =>
            match url_safe_char x with
            | Some x' => is_base64url_char x'
            | None => false
            end) base64_alphabet = true) by reflexivity.
  rewrite forallb_forall in Hall. specialize (Hall c Hin).
  destruct (url_safe_char c) as [c'|]; [eauto | discriminate].
Qed.

Lemma url_safe_b64 (i : N) (l : list ascii) :
  url_safe (b64_char i :: l) = url_safe_digit i :: url_safe l.
Proof.
  destruct (url_safe_alphabet _ (b64_char_in_alphabet i)) as (c' & Hc & _).
  unfold url_safe_digit. now rewrite url_safe_cons, Hc.
Qed.

Lemma url_safe_digit_ok (i : N) : is_base64url_char (url_safe_digit i) = true.
Proof.
  destruct (url_safe_alphabet _ (b64_char_in_alphabet i)) as (c' & Hc & Hok).
  unfold url_safe_digit. now rewrite Hc.
Qed.

Lemma url_safe_pad (l : list ascii) : url_safe (pad_char :: l) = url_safe l.
Proof. reflexivity. Qed.

(** The URL-safe image of [btoa] holds URL-safe characters only. *)
Lemma url_safe_btoa_chars (l : list ascii) :
  Forall (fun c => is_base64url_char c = true) (url_safe (btoa_chars l)).
Proof.
  induction l as [|a|a b|a b c r IH] using list_ind3; cbn [btoa_chars];
    rewrite ?url_safe_b64, ?url_safe_pad;
    repeat (constructor; [apply url_safe_digit_ok|]);
    solve [constructor | exact IH].
Qed.

(** Every three input bytes give four characters that stay. *)
Lemma url_safe_btoa_length (l : list ascii) :
  4 * length l <= 3 * length (url_safe (btoa_chars l)).
Proof.
  induction l as [|a|a b|a b c r IH] using list_ind3; cbn [btoa_chars];
    rewrite ?url_safe_b64, ?url_safe_pad; simpl in *; lia.
Qed.

(** ** UUID strings *)

Lemma class_ok_dash (k : uuid_class) (c : ascii) :
  class_ok k c = true ->
  Ascii.eqb c "-" = match k with Dash => true | _ => false end.
Proof.
  destruct k; simpl; intros H; try exact H;
    destruct (Ascii.eqb_spec c "-") as [->|]; try reflexivity;
    vm_compute in H; discriminate.
Qed.

Lemma matches_remove_dash (p : list uuid_class) (l : list ascii) :
  matches p l = true -> length (remove_char "-" l) = hex_count p.
Proof.
  revert l. induction p as [|k p IH]; intros [|c l]; simpl; try discriminate.
  - reflexivity.
  - intros H. apply andb_true_iff in H as [Hk Hm].
    rewrite (class_ok_dash _ _ Hk). unfold hex_count in *.
    destruct k; simpl; rewrite (IH _ Hm); reflexivity.
Qed.

Lemma uuid_hex_length (u : string) :
  is_uuid u = true -> length (remove_char "-" (chars u)) = 32.
Proof. intros H. now rewrite (matches_remove_dash _ _ H). Qed.

(** ** CSRFProtection.generateToken *)

Lemma token_of_uuids_format (u1 u2 : string) :
  is_uuid u1 = true -> is_uuid u2 = true ->
  String.length (token_of_uuids u1 u2) = 43 /\
  Forall (fun c => is_base64url_char c = true) (chars (token_of_uuids u1 u2)).
Proof.
  intros H1 H2. unfold token_of_uuids.
  set (combined := remove_char "-" (chars u1) ++ remove_char "-" (chars u2)).
  assert (Hlen : length combined = 64).
  { unfold combined. rewrite length_app, !uuid_hex_length by assumption. reflexivity. }
  pose proof (url_safe_btoa_length combined) as Hge.
  split.
  - rewrite str_length, length_take. lia.
  - rewrite chars_str. apply Forall_take, url_safe_btoa_chars.
Qed.

Lemma url_safe_app (a b : list ascii) : url_safe (a ++ b) = url_safe a ++ url_safe b.
Proof.
  unfold url_safe, replace_char. rewrite !map_app.
  induction (map _ (map _ a)) as [|c l IH]; simpl; [reflexivity|].
  destruct (Ascii.eqb c "="); simpl; now rewrite IH.
Qed.

(** Whole groups of three bytes are encoded on their own. *)
Lemma btoa_chars_app (k : nat) (l1 l2 : list ascii) :
  length l1 = 3 * k -> btoa_chars (l1 ++ l2) = btoa_chars l1 ++ btoa_chars l2.
Proof.
  revert l1. induction k as [|k IH]; intros l1 Hlen.
  - destruct l1; [reflexivity | discriminate].
  - destruct l1 as [|a [|b [|c r]]]; simpl in Hlen; try lia.
    cbn [app btoa_chars]. rewrite IH by lia. reflexivity.
Qed.

Lemma url_safe_btoa_groups (k : nat) (l : list ascii) :
  length l = 3 * k -> length (url_safe (btoa_chars l)) = 4 * k.
Proof.
  revert l. induction k as [|k IH]; intros l Hlen.
  - destruct l; [reflexivity | discriminate].
  - destruct l as [|a [|b [|c r]]]; simpl in Hlen; try lia.
    cbn [btoa_chars]. rewrite !url_safe_b64. cbn [length]. rewrite IH by lia. lia.
Qed.

(** The first 43 characters read 32 bytes and the two high bits of the
    33rd. *)
Lemma token_prefix (h : list ascii) (c : ascii) (r : list ascii) :
  length h = 32 ->
  take 43 (url_safe (btoa_chars (h ++ c :: r))) =
  url_safe (btoa_chars (take 30 h)) ++
  match drop 30 h with
  | [x; y] =>
      [ url_safe_digit (N.shiftr (code x) 2);
        url_safe_digit (N.lor (N.shiftl (N.land (code x) 3) 4) (N.shiftr (code y) 4));
        url_safe_digit (N.lor (N.shiftl (N.land (code y) 15) 2) (N.shiftr (code c) 6)) ]
  | _ => []
  end.
Proof.
  intros Hlen.
  rewrite <- (take_drop 30 h) at 1. rewrite <- app_assoc.
  assert (Hp : length (take 30 h) = 3 * 10) by (rewrite length_take; lia).
  assert (Hq : length (drop 30 h) = 2) by (rewrite length_drop; lia).
  destruct (drop 30 h) as [|x [|y [|z q]]]; try discriminate Hq.
  rewrite (btoa_chars_app 10) by exact Hp.
  rewrite url_safe_app.
  pose proof (url_safe_btoa_groups 10 _ Hp) as H40.
  rewrite take_app_ge by lia. rewrite H40. f_equal.
  change (43 - 4 * 10) with 3.
  cbn [app btoa_chars]. rewrite !url_safe_b64. reflexivity.
Qed.

Lemma token_prefix_high_bits (h : list ascii) (c c' : ascii) (r r' : list ascii) :
  length h = 32 ->
  N.shiftr (code c) 6 = N.shiftr (code c') 6 ->
  take 43 (url_safe (btoa_chars (h ++ c :: r))) =
  take 43 (url_safe (btoa_chars (h ++ c' :: r'))).
Proof.
  intros Hlen Hbits. rewrite !token_prefix by exact Hlen. now rewrite Hbits.
Qed.

Lemma hex_high_bits (c : ascii) :
  is_hex c = true ->
  N.shiftr (code c) 6 = if ((48 <=? code c) && (code c <=? 57))%N then 0%N else 1%N.
Proof.
  destruct c as [b0 b1 b2 b3 b4 b5 b6 b7].
  destruct b0, b1, b2, b3, b4, b5, b6, b7; vm_compute; intros H;
    first [reflexivity | discriminate H].
Qed.

Lemma uuid_hex_first (u : string) :
  is_uuid u = true ->
  exists c r,
    remove_char "-" (chars u) = c :: r /\ is_hex c = true /\
    leading_digit u = ((48 <=? code c) && (code c <=? 57))%N.
Proof.
  unfold is_uuid, leading_digit. destruct (chars u) as [|c l]; [discriminate|].
  cbn [uuid_pattern repeat app matches class_ok]. intros H.
  apply andb_true_iff in H as [Hc _].
  exists c, (remove_char "-" l). split; [|auto].
  cbn [remove_char]. now rewrite (class_ok_dash Hex c Hc).
Qed.

(** The token is a function of the first UUID and of whether the second
    one starts with a digit. *)
Lemma token_of_uuids_second_uuid (u1 u2 u2' : string) :
  is_uuid u1 = true -> is_uuid u2 = true -> is_uuid u2' = true ->
  leading_digit u2 = leading_digit u2' ->
  token_of_uuids u1 u2 = token_of_uuids u1 u2'.
Proof.
  intros H1 H2 H2' Hlead. unfold token_of_uuids.
  destruct (uuid_hex_first _ H2) as (c & r & -> & Hc & Hd).
  destruct (uuid_hex_first _ H2') as (c' & r' & -> & Hc' & Hd').
  f_equal. apply token_prefix_high_bits.
  - now apply uuid_hex_length.
  - rewrite (hex_high_bits _ Hc), (hex_high_bits _ Hc'), <- Hd, <- Hd'. now rewrite Hlead.
Qed.

Lemma url_safe_chars_exclude (l : list ascii) :
  Forall (fun c => is_base64url_char c = true) l ->
  ~ In "+"%char l /\ ~ In "/"%char l /\ ~ In "="%char l.
Proof.
  intros Hall. rewrite List.Forall_forall in Hall.
  repeat split; intros Hin; apply Hall in Hin; discriminate.
Qed.

(** C9.  When the random source hands out two version 4 UUIDs,
    [generateToken] returns a string of exactly 43 characters, all of
    them from the URL-safe Base64 alphabet [A-Za-z0-9_-]; none of them is
    [+], [/] or [=]. *)
Theorem generateToken_43_url_safe_chars (w : World) :
  is_uuid (uuidSource w (rngIndex w)) = true ->
  is_uuid (uuidSource w (S (rngIndex w))) = true ->
  String.length (generateToken w).1 = 43 /\
  Forall (fun c => is_base64url_char c = true) (chars (generateToken w).1) /\
  ~ In "+"%char (chars (generateToken w).1) /\
  ~ In "/"%char (chars (generateToken w).1) /\
  ~ In "="%char (chars (generateToken w).1).
Proof.
  intros H1 H2. unfold generateToken, randomUUID. cbn [fst snd rngIndex uuidSource with_rng].
  destruct (token_of_uuids_format _ _ H1 H2) as [Hlen Hall].
  split; [exact Hlen|]. split; [exact Hall|].
  now apply url_safe_chars_exclude.
Qed.

Lemma generateToken_43_url_safe_chars_witness :
  String.length (generateToken example_world).1 = 43 /\
  Forall (fun c => is_base64url_char c = true) (chars (generateToken example_world).1) /\
  ~ In "+"%char (chars (generateToken example_world).1) /\
  ~ In "/"%char (chars (generateToken example_world).1) /\
  ~ In "="%char (chars (generateToken example_world).1).
Proof.
  apply (generateToken_43_url_safe_chars example_world); reflexivity.
Defined.

(** C2 (the code at the failing input).  [generateToken] returns the
    same token for two random sources that hand out the same first UUID
    and second UUIDs that both start with a digit or both with a letter:
    the cut to 43 characters keeps the 32 hexadecimal digits of the first
    UUID and two bits of the second.  The token is fixed by 122 random
    bits and one more, not by 256. *)
Theorem generateToken_ignores_second_uuid (w w' : World) :
  is_uuid (uuidSource w (rngIndex w)) = true ->
  is_uuid (uuidSource w (S (rngIndex w))) = true ->
  is_uuid (uuidSource w' (S (rngIndex w'))) = true ->
  uuidSource w (rngIndex w) = uuidSource w' (rngIndex w') ->
  leading_digit (uuidSource w (S (rngIndex w))) =
  leading_digit (uuidSource w' (S (rngIndex w'))) ->
  (generateToken w).1 = (generateToken w').1.
Proof.
  intros H1 H2 H2' Hsame Hlead.
  unfold generateToken, randomUUID. cbn [fst snd rngIndex uuidSource with_rng].
  rewrite <- Hsame. now apply token_of_uuids_second_uuid.
Qed.

(** Two draws that differ in the second UUID and give one token. *)
Lemma generateToken_collision :
  uuidSource example_world 1 <> uuidSource example_world' 1 /\
  (generateToken example_world).1 = (generateToken example_world').1 /\
  (generateToken example_world).1 = "MTIzZTQ1NjdlODliNDJkM2E0NTY0MjY2MTQxNzQwMDB".
Proof.
  split; [discriminate|]. split.
  - apply (generateToken_ignores_second_uuid example_world example_world');
      vm_compute; reflexivity.
  - vm_compute. reflexivity.
Defined.

(** ** CSRFProtection: stored token *)

Lemma or_null_Some (o : option string) (v : string) :
  or_null o = Some v -> truthy (Some v) = true.
Proof.
  unfold or_null. destruct (truthy o) eqn:E; [intros ->; exact E | discriminate].
Qed.

Lemma cookie_get_truthy (jar : gmap string Cookie) (name v : string) :
  cookie_get jar name = Some v -> truthy (Some v) = true.
Proof. apply or_null_Some. Qed.

(** A stored value is a non-empty cookie value. *)
Lemma cookie_get_Some (jar : gmap string Cookie) (name v : string) :
  cookie_get jar name = Some v <->
  exists c, jar !! name = Some c /\ cookie_value c = v /\ v <> "".
Proof.
  unfold cookie_get, or_null. destruct (jar !! name) as [c|]; simpl.
  - destruct (String.eqb_spec (cookie_value c) ""); simpl; split.
    + discriminate.
    + intros (c' & [= <-] & <- & Hne). contradiction.
    + intros [= <-]. eauto.
    + intros (c' & [= <-] & <- & _). reflexivity.
  - split; [discriminate | intros (c & [=] & _)].
Qed.

(** The three reads of [getTokenFromCookie] in one expression. *)
Lemma getTokenFromCookie_cases (w : World) (jar : gmap string Cookie) :
  cookieStore w = Some jar ->
  getTokenFromCookie w =
    match cookie_get jar (CSRF_COOKIE_NAME (env w)) with
    | Some primary => Some primary
    | None =>
        match cookie_get jar (CSRF_COOKIE_NAME (env w) +:+ "-backup") with
        | Some backup => Some backup
        | None =>
            if node_env_is (env w) "production" then None
            else cookie_get jar (CSRF_COOKIE_NAME (env w) +:+ "-debug")
        end
    end.
Proof.
  intros Hjar. unfold getTokenFromCookie. rewrite Hjar. cbv zeta.
  destruct (cookie_get jar (CSRF_COOKIE_NAME (env w))) as [p|] eqn:Hp.
  - rewrite (cookie_get_truthy _ _ _ Hp). cbn [negb].
    rewrite (cookie_get_truthy _ _ _ Hp). reflexivity.
  - cbn [truthy negb].
    destruct (cookie_get jar (CSRF_COOKIE_NAME (env w) +:+ "-backup")) as [b|] eqn:Hb.
    + rewrite (cookie_get_truthy _ _ _ Hb). reflexivity.
    + cbn [truthy negb andb]. destruct (node_env_is (env w) "production"); reflexivity.
Qed.

(** C7 as the code has it.  [getTokenFromCookie] returns the primary
    cookie's stored (non-empty) value; without one, the backup cookie's;
    without either, nothing in production and the debug cookie's stored
    value (if any) elsewhere.  It returns nothing when the cookie store
    cannot be read. *)
Theorem getTokenFromCookie_fallbacks (w : World) :
  (cookieStore w = None -> getTokenFromCookie w = None) /\
  (forall jar,
     cookieStore w = Some jar ->
     (forall v,
        cookie_get jar (CSRF_COOKIE_NAME (env w)) = Some v ->
        getTokenFromCookie w = Some v) /\
     (forall v,
        cookie_get jar (CSRF_COOKIE_NAME (env w)) = None ->
        cookie_get jar (CSRF_COOKIE_NAME (env w) +:+ "-backup") = Some v ->
        getTokenFromCookie w = Some v) /\
     (cookie_get jar (CSRF_COOKIE_NAME (env w)) = None ->
      cookie_get jar (CSRF_COOKIE_NAME (env w) +:+ "-backup") = None ->
      getTokenFromCookie w =
        if node_env_is (env w) "production" then None
        else cookie_get jar (CSRF_COOKIE_NAME (env w) +:+ "-debug"))).
Proof.
  split.
  - intros Hnone. unfold getTokenFromCookie. now rewrite Hnone.
  - intros jar Hjar. rewrite (getTokenFromCookie_cases _ _ Hjar).
    split; [|split].
    + now intros v ->.
    + now intros v -> ->.
    + now intros -> ->.
Qed.

(** The debug cookie alone, on a development server: it is what
    [getTokenFromCookie] returns. *)
Lemma getTokenFromCookie_fallbacks_witness :
  getTokenFromCookie dev_world_debug_cookie =
    (if node_env_is (env dev_world_debug_cookie) "production" then None
     else cookie_get dev_debug_jar
            (CSRF_COOKIE_NAME (env dev_world_debug_cookie) +:+ "-debug")) /\
  getTokenFromCookie dev_world_debug_cookie = Some "left-over".
Proof.
  split.
  - apply (proj2 (proj2 (proj2 (getTokenFromCookie_fallbacks dev_world_debug_cookie)
                           dev_debug_jar eq_refl)));
      vm_compute; reflexivity.
  - vm_compute. reflexivity.
Defined.

(** C7 as stated fails: on a development server whose store holds the
    debug cookie only, primary and backup cookie are absent and
    [getTokenFromCookie] still returns a token. *)
Lemma getTokenFromCookie_debug_counterexample :
  cookieStore dev_world_debug_cookie = Some dev_debug_jar /\
  dev_debug_jar !! CSRF_COOKIE_NAME (env dev_world_debug_cookie) = None /\
  dev_debug_jar !! (CSRF_COOKIE_NAME (env dev_world_debug_cookie) +:+ "-backup") = None /\
  getTokenFromCookie dev_world_debug_cookie = Some "left-over" /\
  getTokenFromCookie dev_world_debug_cookie <> None.
Proof.
  split; [|split; [|split; [|split]]]; try (vm_compute; reflexivity). discriminate.
Qed.

Lemma getTokenFromCookie_no_store (w : World) :
  cookieStore w = None -> getTokenFromCookie w = None.
Proof. intros H. unfold getTokenFromCookie. now rewrite H. Qed.

(** No stored value under any of the three cookie names: no token. *)
Lemma getTokenFromCookie_no_cookie (w : World) (jar : gmap string Cookie) :
  cookieStore w = Some jar ->
  (forall suffix, In suffix [""; "-backup"; "-debug"] ->
     cookie_get jar (CSRF_COOKIE_NAME (env w) +:+ suffix) = None) ->
  getTokenFromCookie w = None.
Proof.
  intros Hjar Hnone. rewrite (getTokenFromCookie_cases _ _ Hjar).
  assert (Hp : CSRF_COOKIE_NAME (env w) +:+ "" = CSRF_COOKIE_NAME (env w)).
  { unfold CSRF_COOKIE_NAME. destruct (node_env_is _ _); reflexivity. }
  pose proof (Hnone "" ltac:(simpl; tauto)) as H0. rewrite Hp in H0. rewrite H0.
  rewrite (Hnone "-backup" ltac:(simpl; tauto)).
  rewrite (Hnone "-debug" ltac:(simpl; tauto)).
  destruct (node_env_is _ _); reflexivity.
Qed.

(** What [getTokenFromCookie] returns is never the empty string. *)
Lemma getTokenFromCookie_truthy (w : World) (t : string) :
  getTokenFromCookie w = Some t -> truthy (Some t) = true.
Proof.
  destruct (cookieStore w) as [jar|] eqn:Hjar.
  - rewrite (getTokenFromCookie_cases _ _ Hjar).
    destruct (cookie_get jar (CSRF_COOKIE_NAME (env w))) as [p|] eqn:Hp.
    { intros [= <-]. eapply cookie_get_truthy, Hp. }
    destruct (cookie_get jar (CSRF_COOKIE_NAME (env w) +:+ "-backup")) as [b|] eqn:Hb.
    { intros [= <-]. eapply cookie_get_truthy, Hb. }
    destruct (node_env_is (env w) "production"); [discriminate|].
    apply cookie_get_truthy.
  - now rewrite (getTokenFromCookie_no_store _ Hjar).
Qed.

(** ** CSRFProtection.validateToken and the action wrapper *)

Lemma truthy_Some (s : string) : s <> "" -> truthy (Some s) = true.
Proof. intros H. simpl. now destruct (String.eqb_spec s ""). Qed.

(** A token that [setToken] stored is the one [getTokenFromCookie]
    returns afterwards. *)
Lemma setToken_getTokenFromCookie (token : string) (w w' : World) :
  token <> "" -> setToken token w = Some w' -> getTokenFromCookie w' = Some token.
Proof.
  intros Hne. unfold setToken.
  destruct (cookieStore w) as [jar|]; [|discriminate].
  destruct (cookiesWritable w); [|discriminate].
  intros [= <-].
  erewrite getTokenFromCookie_cases by reflexivity.
  cbn [env with_cookies].
  assert (Hget : forall j : gmap string Cookie,
             cookie_get (<[CSRF_COOKIE_NAME (env w) :=
               {| cookie_value := token;
                  cookie_options :=
                    {| httpOnly := true; secure := node_env_is (env w) "production";
                       sameSite := "strict"; path := "/"; maxAge := 60 * 60 * 24 |} |}]> j)
               (CSRF_COOKIE_NAME (env w)) = Some token).
  { intros j. apply cookie_get_Some. eexists. rewrite lookup_insert_eq. eauto. }
  unfold CSRF_COOKIE_NAME in *.
  destruct (node_env_is (env w) "production"); cbn [negb];
    rewrite ?(lookup_insert_ne (M := gmap string)) by discriminate.
  - unfold cookie_get at 1. rewrite lookup_insert_ne by discriminate.
    fold (cookie_get (<["csrf-token-secure" :=
      {| cookie_value := token;
         cookie_options :=
           {| httpOnly := true; secure := true; sameSite := "strict"; path := "/";
              maxAge := 60 * 60 * 24 |} |}]> jar) "csrf-token-secure").
    now rewrite Hget.
  - unfold cookie_get at 1. rewrite !lookup_insert_ne by discriminate.
    fold (cookie_get (<["csrf-token" :=
      {| cookie_value := token;
         cookie_options :=
           {| httpOnly := true; secure := false; sameSite := "strict"; path := "/";
              maxAge := 60 * 60 * 24 |} |}]> jar) "csrf-token").
    now rewrite Hget.
Qed.

Section Guard.

Variable CryptoKey : Type.
Variable generateKey : nat -> option CryptoKey.
Variable sign : CryptoKey -> list Z -> option (list Z).

Local Abbreviation validate := (validateToken CryptoKey generateKey sign).

Lemma validateToken_missing (w : World) :
  validate None w = (false, w) /\ validate (Some "") w = (false, w).
Proof. split; reflexivity. Qed.

(** C1.  For a non-empty submitted token and no stored token,
    [validateToken] returns false, whether the recovery succeeds (the
    store then holds the fresh token) or fails (only the random source
    has moved on). *)
Theorem validateToken_recovery_denies (submitted : string) (w : World) :
  submitted <> "" ->
  getTokenFromCookie w = None ->
  (validate (Some submitted) w).1 = false /\
  (validate (Some submitted) w).2 =
    default (generateToken w).2 (setToken (generateToken w).1 (generateToken w).2).
Proof.
  intros Hsub Hnone. unfold validateToken.
  rewrite (truthy_Some _ Hsub), Hnone. cbn [negb truthy].
  destruct (generateToken w) as [newToken w1]. cbn [fst snd].
  destruct (setToken newToken w1); split; reflexivity.
Qed.

End Guard.

(** The recovery succeeds in [example_world] and fails without a store. *)
Lemma validateToken_recovery_denies_witness :
  ((validateToken unit (fun _ => Some tt) (fun _ m => Some m) (Some "forged") example_world).1
     = false /\
   (validateToken unit (fun _ => Some tt) (fun _ m => Some m) (Some "forged") example_world).2
     = default (generateToken example_world).2
         (setToken (generateToken example_world).1 (generateToken example_world).2)) /\
  getTokenFromCookie
    (validateToken unit (fun _ => Some tt) (fun _ m => Some m) (Some "forged") example_world).2
    = Some "MTIzZTQ1NjdlODliNDJkM2E0NTY0MjY2MTQxNzQwMDB".
Proof.
  split.
  - apply (validateToken_recovery_denies unit (fun _ => Some tt) (fun _ m => Some m)
             "forged" example_world); [discriminate | reflexivity].
  - vm_compute. reflexivity.
Defined.

Section GuardedAction.

Variable CryptoKey : Type.
Variable generateKey : nat -> option CryptoKey.
Variable sign : CryptoKey -> list Z -> option (list Z).

Local Abbreviation validate := (validateToken CryptoKey generateKey sign).
Local Abbreviation protect := (withCSRFProtection CryptoKey generateKey sign).

(** C8.  The wrapped action runs only when the arguments hold a
    [FormData] whose [csrf_token] passes [validateToken].  Without a
    [FormData] the call rejects with [CSRF_NO_FORM_DATA] (400), with an
    invalid token with [CSRF_TOKEN_INVALID] (403); in both cases result
    and world are the same for every action, so none was run.  Otherwise
    the result is the action's on the world left by the validation, its
    errors passed through the wrapper's [catch]. *)
Theorem withCSRFProtection_guards (R : Type) (args : list Arg) (w : World) :
  (find_formdata args = None ->
   forall action : list Arg -> World -> (R + Thrown) * World,
     protect R action args w =
       (inr (SecureActionError "CSRF protection requires FormData" "CSRF_NO_FORM_DATA" 400), w))
  /\
  (forall formData w1,
     find_formdata args = Some formData ->
     validate (getTokenFromFormData formData) w = (false, w1) ->
     forall action : list Arg -> World -> (R + Thrown) * World,
       protect R action args w =
         (inr (SecureActionError "Invalid CSRF token" "CSRF_TOKEN_INVALID" 403), w1))
  /\
  (forall formData w1,
     find_formdata args = Some formData ->
     validate (getTokenFromFormData formData) w = (true, w1) ->
     forall action : list Arg -> World -> (R + Thrown) * World,
       protect R action args w =
         (match (action args w1).1 with
          | inl r => inl r
          | inr error => inr (rethrow error)
          end, (action args w1).2)).
Proof.
  unfold withCSRFProtection. repeat split.
  - intros -> action. reflexivity.
  - intros fd w1 -> -> action. reflexivity.
  - intros fd w1 -> -> action. cbn [negb].
    destruct (action args w1) as [[r|e] w2]; reflexivity.
Qed.

End GuardedAction.

(** The three cases of C8 on concrete calls: no [FormData]; a forged
    token against an empty store; the stored token. *)
Lemma withCSRFProtection_guards_witness :
  withCSRFProtection unit (fun _ => Some tt) (fun _ m => Some m) nat
    (fun args w => (inl (length args), w)) [ArgValue "post-1"] example_world =
    (inr (SecureActionError "CSRF protection requires FormData" "CSRF_NO_FORM_DATA" 400),
     example_world)
  /\
  (withCSRFProtection unit (fun _ => Some tt) (fun _ m => Some m) nat
     (fun args w => (inl (length args), w))
     [ArgFormData [("csrf_token", "forged")]] example_world).1 =
    inr (SecureActionError "Invalid CSRF token" "CSRF_TOKEN_INVALID" 403)
  /\
  (withCSRFProtection unit (fun _ => Some tt) (fun _ m => Some m) nat
     (fun args w => (inl (length args), w))
     [ArgValue "post-1"; ArgFormData [("title", "t"); ("csrf_token", "left-over")]]
     dev_world_debug_cookie).1 = inl 2.
Proof.
  split; [|split].
  - apply (proj1 (withCSRFProtection_guards unit (fun _ => Some tt) (fun _ m => Some m)
                    nat [ArgValue "post-1"] example_world)).
    reflexivity.
  - erewrite (proj1 (proj2 (withCSRFProtection_guards unit (fun _ => Some tt)
                              (fun _ m => Some m) nat
                              [ArgFormData [("csrf_token", "forged")]] example_world)));
      [reflexivity | reflexivity | vm_compute; reflexivity].
  - erewrite (proj2 (proj2 (withCSRFProtection_guards unit (fun _ => Some tt)
                              (fun _ m => Some m) nat
                              [ArgValue "post-1";
                               ArgFormData [("title", "t"); ("csrf_token", "left-over")]]
                              dev_world_debug_cookie)));
      [reflexivity | reflexivity | vm_compute; reflexivity].
Defined.

(** ** SecurityHeaders *)

Section Headers.

Variable url_origin : string -> option string.

Lemma getExternalDomains_env (w1 w2 : World) :
  env w1 = env w2 ->
  getExternalDomains url_origin w1 = getExternalDomains url_origin w2.
Proof. intros H. unfold getExternalDomains. now rewrite H. Qed.

Lemma generateCSP_env (w1 w2 : World) (nonce : option string) (isDevelopment : bool) :
  env w1 = env w2 ->
  generateCSP url_origin w1 nonce isDevelopment =
  generateCSP url_origin w2 nonce isDevelopment.
Proof.
  intros H. unfold generateCSP, buildImgSrc, buildConnectSrc.
  now rewrite (getExternalDomains_env _ _ H).
Qed.

(** C4.  The header bundle and the policy string are functions of the
    environment variables and the nonce: two calls in worlds with the
    same [process.env] and the same nonce argument, whatever their
    cookies and random sources, return the same headers and the same
    policy. *)
Theorem getSecurityHeaders_deterministic (w1 w2 : World) (nonce : option string) :
  env w1 = env w2 ->
  getSecurityHeaders url_origin w1 nonce = getSecurityHeaders url_origin w2 nonce /\
  forall isDevelopment,
    generateCSP url_origin w1 nonce isDevelopment =
    generateCSP url_origin w2 nonce isDevelopment.
Proof.
  intros H. split.
  - unfold getSecurityHeaders.
    rewrite (generateCSP_env _ _ nonce (node_env_is (env w1) "development") H).
    now rewrite H.
  - intros isDevelopment. now apply generateCSP_env.
Qed.

End Headers.

Lemma getSecurityHeaders_deterministic_witness :
  getSecurityHeaders Some example_world (Some "n0nce") =
  getSecurityHeaders Some dev_world_debug_cookie (Some "n0nce") /\
  forall isDevelopment,
    generateCSP Some example_world (Some "n0nce") isDevelopment =
    generateCSP Some dev_world_debug_cookie (Some "n0nce") isDevelopment.
Proof.
  apply (getSecurityHeaders_deterministic Some example_world dev_world_debug_cookie
           (Some "n0nce")).
  reflexivity.
Defined.

(** ** SecurityHeaders.buildScriptSrc *)

Lemma In_mem (t : string) (l : list string) : In t l <-> mem t l = true.
Proof.
  unfold mem. rewrite existsb_exists. split.
  - intros H. exists t. split; [exact H | apply String.eqb_refl].
  - intros (x & Hin & Heq). apply String.eqb_eq in Heq. now subst.
Qed.

Lemma Exists_existsb {A} (p : A -> bool) (l : list A) :
  Exists (fun x => p x = true) l <-> existsb p l = true.
Proof. now rewrite List.Exists_exists, existsb_exists. Qed.

Lemma nonce_source_prefix (v : string) :
  is_nonce_source ("'nonce-" +:+ v +:+ "'") = true.
Proof. reflexivity. Qed.

Ltac decide_sources :=
  rewrite ?In_mem, ?Exists_existsb; vm_compute;
  split; intros; try reflexivity; try discriminate;
  repeat match goal with H : _ /\ _ |- _ => destruct H end;
  try discriminate; try (split; reflexivity).

(** The source expressions the function collects, before they are
    joined. *)
Lemma buildScriptSrc_sources_facts (nonce : option string) (isDevelopment : bool) :
  In "'self'" (buildScriptSrc_sources nonce isDevelopment) /\
  (In ("'nonce-" +:+ default "" nonce +:+ "'") (buildScriptSrc_sources nonce isDevelopment)
   <-> truthy nonce = true) /\
  (Exists (fun s => is_nonce_source s = true)
     (buildScriptSrc_sources nonce isDevelopment)
   <-> truthy nonce = true) /\
  (In "'strict-dynamic'" (buildScriptSrc_sources nonce isDevelopment)
   <-> truthy nonce = true) /\
  (In "'unsafe-inline'" (buildScriptSrc_sources nonce isDevelopment)
   <-> truthy nonce = false /\ isDevelopment = true) /\
  (In "'unsafe-eval'" (buildScriptSrc_sources nonce isDevelopment)
   <-> isDevelopment = true).
Proof.
  split.
  { unfold buildScriptSrc_sources.
    destruct isDevelopment, (truthy nonce); cbn [app]; now left. }
  destruct nonce as [[|c v]|].
  - destruct isDevelopment; (split; [|split; [|split; [|split]]]); decide_sources.
  - split.
    { split; [reflexivity|]. intros _. unfold buildScriptSrc_sources.
      cbn [truthy String.eqb negb default].
      destruct isDevelopment; apply in_or_app; right; now left. }
    split.
    { split; [reflexivity|]. intros _. apply List.Exists_exists.
      exists ("'nonce-" +:+ String c v +:+ "'"). split; [|apply nonce_source_prefix].
      unfold buildScriptSrc_sources. cbn [truthy String.eqb negb default].
      destruct isDevelopment; apply in_or_app; right; now left. }
    destruct isDevelopment; (split; [|split]); decide_sources.
  - destruct isDevelopment; (split; [|split; [|split; [|split]]]); decide_sources.
Qed.

(** The directive string read back: without a space in the nonce, the
    pieces between the spaces of the directive are [script-src] and the
    sources, one by one. *)
Lemma split_spaces_word (w word rest : list ascii) :
  existsb (fun c => Ascii.eqb c " ") w = false ->
  split_spaces_chars word (w ++ rest) = split_spaces_chars (rev w ++ word) rest.
Proof.
  revert word. induction w as [|c w IH]; intros word Hw; [reflexivity|].
  simpl in Hw. apply orb_false_iff in Hw as [Hc Hw].
  cbn [app split_spaces_chars]. rewrite Hc, IH by exact Hw.
  cbn [rev]. now rewrite <- app_assoc.
Qed.

Lemma split_spaces_join (x : string) (l : list string) :
  Forall (fun s => has_space s = false) (x :: l) ->
  split_spaces (join " " (x :: l)) = x :: l.
Proof.
  revert x. induction l as [|y l IH]; intros x Hall.
  - apply Forall_inv in Hall. unfold split_spaces. cbn [join].
    rewrite <- (app_nil_r (chars x)), split_spaces_word by exact Hall.
    cbn [split_spaces_chars]. now rewrite app_nil_r, rev_involutive, str_chars.
  - pose proof (Forall_inv Hall) as Hx. apply Forall_inv_tail in Hall.
    unfold split_spaces. change (join " " (x :: y :: l)) with (x +:+ " " +:+ join " " (y :: l)).
    rewrite chars_app, split_spaces_word by exact Hx.
    rewrite chars_app. cbn [chars list_ascii_of_string app split_spaces_chars Ascii.eqb].
    cbn. rewrite app_nil_r, rev_involutive, str_chars. f_equal.
    apply IH, Hall.
Qed.

Lemma has_space_nonce_source (v : string) :
  has_space ("'nonce-" +:+ v +:+ "'") = has_space v.
Proof.
  unfold has_space. rewrite !chars_app, !existsb_app. simpl. now rewrite orb_false_r.
Qed.

Lemma buildScriptSrc_pieces (nonce : option string) (isDevelopment : bool) :
  has_space (default "" nonce) = false ->
  split_spaces (buildScriptSrc nonce isDevelopment) =
  "script-src" :: buildScriptSrc_sources nonce isDevelopment.
Proof.
  intros Hnonce.
  assert (Hjoin : buildScriptSrc nonce isDevelopment =
                  join " " ("script-src" :: buildScriptSrc_sources nonce isDevelopment)).
  { unfold buildScriptSrc, buildScriptSrc_sources.
    destruct isDevelopment, (truthy nonce); reflexivity. }
  rewrite Hjoin. apply split_spaces_join.
  constructor; [reflexivity|].
  unfold buildScriptSrc_sources.
  destruct isDevelopment, (truthy nonce); cbn [app];
    repeat (constructor; [first [reflexivity | now rewrite has_space_nonce_source]|]);
    constructor.
Qed.

(** C5.  The directive as a string.  For a nonce without a space (the
    nonces of [CSPNonce.generate] hold none) the pieces between the
    spaces of the directive are [script-src] and then the source
    expressions; among these: ['self'] always; ['nonce-<value>'] and
    ['strict-dynamic'] exactly when a nonce is given (a non-empty
    string), in either environment; ['unsafe-inline'] exactly when no
    nonce is given and the environment is development; ['unsafe-eval']
    exactly when the environment is development. *)
Theorem buildScriptSrc_directive_spec (nonce : option string) (isDevelopment : bool) :
  has_space (default "" nonce) = false ->
  exists sources,
    split_spaces (buildScriptSrc nonce isDevelopment) = "script-src" :: sources /\
    In "'self'" sources /\
    (In ("'nonce-" +:+ default "" nonce +:+ "'") sources <-> truthy nonce = true) /\
    (Exists (fun s => is_nonce_source s = true) sources <-> truthy nonce = true) /\
    (In "'strict-dynamic'" sources <-> truthy nonce = true) /\
    (In "'unsafe-inline'" sources <-> truthy nonce = false /\ isDevelopment = true) /\
    (In "'unsafe-eval'" sources <-> isDevelopment = true).
Proof.
  intros Hnonce. exists (buildScriptSrc_sources nonce isDevelopment).
  split; [now apply buildScriptSrc_pieces|].
  apply buildScriptSrc_sources_facts.
Qed.

(** A production policy for the nonce [n0nce]. *)
Lemma buildScriptSrc_directive_spec_witness :
  exists sources,
    split_spaces (buildScriptSrc (Some "n0nce") false) = "script-src" :: sources /\
    In "'self'" sources /\
    (In ("'nonce-" +:+ default "" (Some "n0nce") +:+ "'") sources <->
     truthy (Some "n0nce") = true) /\
    (Exists (fun s => is_nonce_source s = true) sources <-> truthy (Some "n0nce") = true) /\
    (In "'strict-dynamic'" sources <-> truthy (Some "n0nce") = true) /\
    (In "'unsafe-inline'" sources <-> truthy (Some "n0nce") = false /\ false = true) /\
    (In "'unsafe-eval'" sources <-> false = true).
Proof.
  apply (buildScriptSrc_directive_spec (Some "n0nce") false). reflexivity.
Defined.

(** C5 as stated, for every nonce, fails on the directive string: a
    nonce that holds a space closes its own source expression and adds
    further ones.  With the nonce [x' 'unsafe-inline] the production
    directive holds ['unsafe-inline'] although a nonce is given. *)
Lemma buildScriptSrc_nonce_space_counterexample :
  ~ (forall nonce isDevelopment,
       In "'unsafe-inline'" (split_spaces (buildScriptSrc nonce isDevelopment)) <->
       truthy nonce = false /\ isDevelopment = true).
Proof.
  intros claim.
  destruct (proj1 (claim (Some "x' 'unsafe-inline") false)) as [_ H].
  - apply In_mem. vm_compute. reflexivity.
  - discriminate H.
Qed.

(** ** Cache tags *)

(** Every post mutation passes the listing tag, both single-item tags,
    the search tag, the user's tag and the category tag. *)
Lemma post_actions_core_tags (a : PostAction) :
  Forall (fun t => mem t (revalidated a) = true)
    [ CACHE_TAGS.POSTS; CACHE_TAGS.POST_BY_ID; CACHE_TAGS.POST_BY_SLUG;
      CACHE_TAGS.SEARCH_RESULTS; CACHE_TAGS.USER_POSTS; CACHE_TAGS.CATEGORIES ].
Proof. destruct a; repeat constructor. Qed.

(** C3 (the code at the failing input).  No post mutation passes the
    tags [related-posts] and [popular-posts] to [revalidateCache], and
    these are the only tags of the cached related-posts and popular-posts
    reads: their entries survive every post mutation.  The favorite
    toggle does pass [popular-posts]. *)
Theorem post_actions_keep_aggregates (a : PostAction) :
  mem CACHE_TAGS.RELATED_POSTS (revalidated a) = false /\
  mem CACHE_TAGS.POPULAR_POSTS (revalidated a) = false /\
  invalidates (revalidated a) getCachedRelatedPosts = false /\
  invalidates (revalidated a) getCachedPopularPosts = false /\
  invalidates revalidated_by_toggleFavorite getCachedPopularPosts = true.
Proof. destruct a; repeat split. Qed.

(** The other cached post reads are dropped by every post mutation. *)
Lemma post_actions_invalidate_other_reads (a : PostAction) (f : CachedFunction) :
  In f post_reads ->
  f <> getCachedRelatedPosts -> f <> getCachedPopularPosts ->
  invalidates (revalidated a) f = true.
Proof.
  intros Hin Hr Hp. simpl in Hin.
  repeat (destruct Hin as [<-|Hin]; [try contradiction; destruct a; reflexivity|]).
  destruct Hin.
Qed.

(** ** MemoryCache *)

Section StoreFacts.

Variable regexp : string -> option (string -> bool).

Lemma cache_run_snoc (history : list (Z * CacheOp)) (ev : Z * CacheOp) :
  cache_run regexp (history ++ [ev]) =
  (cache_step regexp ev.1 ev.2 (cache_run regexp history)).2.
Proof. unfold cache_run. now rewrite fold_left_app. Qed.

Lemma cache_get_store (key : string) (now : Z) (cache : gmap string Entry) (k : string)
  (e : Entry) :
  (cache_get key now cache).2 !! k = Some e -> cache !! k = Some e.
Proof.
  unfold cache_get. destruct (cache !! key) as [entry|] eqn:Hk.
  - destruct (expires entry <? now)%Z; simpl; [|tauto].
    rewrite lookup_delete_Some. tauto.
  - simpl. rewrite lookup_delete_Some. tauto.
Qed.

(** Every entry of the store was written by a [set] of the history, with
    the expiry that [set] computed. *)
Lemma cache_run_entry (history : list (Z * CacheOp)) (key : string) (e : Entry) :
  cache_run regexp history !! key = Some e ->
  exists t ttl,
    In (t, OpSet key (value e) ttl) history /\
    expires e = (t + default 300 ttl * 1000)%Z.
Proof.
  revert key e. induction history as [|[t op] history IH] using rev_ind; intros key e.
  - unfold cache_run. simpl. rewrite lookup_empty. discriminate.
  - rewrite cache_run_snoc. cbn [fst snd].
    assert (Hold : cache_run regexp history !! key = Some e ->
                   exists t' ttl,
                     In (t', OpSet key (value e) ttl) (history ++ [(t, op)]) /\
                     expires e = (t' + default 300 ttl * 1000)%Z).
    { intros H. destruct (IH _ _ H) as (t' & ttl & Hin & He).
      exists t', ttl. split; [apply in_or_app; now left | exact He]. }
    destruct op as [k|k v ttl|k|pattern]; cbn [cache_step snd].
    + intros H. apply Hold. eapply cache_get_store, H.
    + unfold cache_set. rewrite lookup_insert_Some.
      intros [[<- <-]|[_ H]]; [|now apply Hold].
      exists t, ttl. split; [apply in_or_app; right; now left | reflexivity].
    + unfold cache_del. rewrite lookup_delete_Some. intros [_ H]. now apply Hold.
    + unfold cache_clear. destruct (truthy pattern).
      * destruct (regexp _) as [test|]; simpl.
        -- rewrite map_lookup_filter_Some. intros [H _]. now apply Hold.
        -- apply Hold.
      * simpl. rewrite lookup_empty. discriminate.
Qed.

(** C10 as the code has it.  After any history of calls, [get] returns a
    value only if the history holds a [set] of that key and value whose
    expiry (clock reading at the [set] plus [ttl] seconds, 300 by
    default) is not before the current clock reading, and it leaves the
    store as it is; an entry whose expiry lies before the current
    reading makes [get] return nothing and is removed. *)
Theorem memoryCache_get_not_expired (history : list (Z * CacheOp)) (key : string) (now : Z) :
  (forall v cache',
     cache_get key now (cache_run regexp history) = (Some v, cache') ->
     (exists t ttl,
        In (t, OpSet key v ttl) history /\ (now <= t + default 300 ttl * 1000)%Z) /\
     cache' = cache_run regexp history)
  /\
  (forall e,
     cache_run regexp history !! key = Some e -> (expires e < now)%Z ->
     cache_get key now (cache_run regexp history) =
       (None, delete key (cache_run regexp history)) /\
     delete key (cache_run regexp history) !! key = None).
Proof.
  split.
  - intros v cache'. unfold cache_get.
    destruct (cache_run regexp history !! key) as [e|] eqn:He; [|discriminate].
    destruct (expires e <? now)%Z eqn:Hexp; [discriminate|].
    intros [= <- <-]. split; [|reflexivity].
    destruct (cache_run_entry _ _ _ He) as (t & ttl & Hin & Hex).
    exists t, ttl. split; [exact Hin|]. apply Z.ltb_ge in Hexp. lia.
  - intros e He Hlt. unfold cache_get. rewrite He.
    apply Z.ltb_lt in Hlt. rewrite Hlt. split; [reflexivity | apply lookup_delete_eq].
Qed.

End StoreFacts.

(** A value set at clock reading 0 for one second: served at reading
    1000, gone at reading 1001. *)
Lemma memoryCache_get_not_expired_witness :
  ((exists t ttl,
      In (t, OpSet "k" "v" ttl) [(0%Z, OpSet "k" "v" (Some 1%Z))] /\
      (1000 <= t + default 300 ttl * 1000)%Z) /\
   cache_run (fun _ => None) [(0%Z, OpSet "k" "v" (Some 1%Z))] =
   cache_run (fun _ => None) [(0%Z, OpSet "k" "v" (Some 1%Z))]) /\
  (cache_get "k" 1001 (cache_run (fun _ => None) [(0%Z, OpSet "k" "v" (Some 1%Z))]) =
     (None, delete "k" (cache_run (fun _ => None) [(0%Z, OpSet "k" "v" (Some 1%Z))])) /\
   delete "k" (cache_run (fun _ => None) [(0%Z, OpSet "k" "v" (Some 1%Z))]) !! "k" = None).
Proof.
  split.
  - apply (proj1 (memoryCache_get_not_expired (fun _ => None)
                    [(0%Z, OpSet "k" "v" (Some 1%Z))] "k" 1000) "v").
    vm_compute. reflexivity.
  - apply (proj2 (memoryCache_get_not_expired (fun _ => None)
                    [(0%Z, OpSet "k" "v" (Some 1%Z))] "k" 1001)
             {| value := "v"; expires := 1000 |}).
    + vm_compute. reflexivity.
    + simpl. lia.
Defined.

(** C10 as stated fails: at the very clock reading of the expiry the
    entry is still served, although that reading is not strictly before
    the expiry. *)
Lemma memoryCache_boundary_counterexample :
  ~ (forall (regexp : string -> option (string -> bool)) history key now v cache',
       cache_get key now (cache_run regexp history) = (Some v, cache') ->
       exists t ttl,
         In (t, OpSet key v ttl) history /\ (now < t + default 300 ttl * 1000)%Z).
Proof.
  intros claim.
  destruct (claim (fun _ => None) [(0%Z, OpSet "k" "v" (Some 1%Z))] "k" 1000%Z "v"
              (cache_run (fun _ => None) [(0%Z, OpSet "k" "v" (Some 1%Z))]))
    as (t & ttl & Hin & Hlt).
  - vm_compute. reflexivity.
  - destruct Hin as [[= <- <-]|[]]. simpl in Hlt. lia.
Qed.

(** ** Cache key generators *)

Lemma chars_inj (s t : string) : chars s = chars t -> s = t.
Proof. intros H. rewrite <- (str_chars s), <- (str_chars t). now rewrite H. Qed.



Lemma uint_chars (d : Decimal.uint) :
  Forall (fun c => is_numeral_char c = true) (chars (NilEmpty.string_of_uint d)).
Proof. induction d; simpl; constructor; (reflexivity || assumption). Qed.

Lemma number_to_string_chars (n : Z) :
  Forall (fun c => is_numeral_char c = true) (chars (number_to_string n)).
Proof.
  assert (Hu : forall d, Forall (fun c => is_numeral_char c = true)
                           (chars (NilZero.string_of_uint d))).
  { intros d. destruct d; try apply uint_chars. repeat constructor. }
  unfold number_to_string. destruct (Z.to_int n); simpl.
  - apply Hu.
  - constructor; [reflexivity | apply Hu].
Qed.




Ltac by_cases_on c :=
  destruct c as [[] [] [] [] [] [] [] []]; vm_compute; try reflexivity; try discriminate.

Lemma to_lower_not_upper (c : ascii) : is_upper (to_lower c) = false.
Proof. by_cases_on c. Qed.

Lemma to_lower_idem (c : ascii) : to_lower (to_lower c) = to_lower c.
Proof. by_cases_on c. Qed.

Lemma to_lower_space (c : ascii) : is_space (to_lower c) = is_space c.
Proof. by_cases_on c. Qed.

Lemma kept_is_key_char (c : ascii) :
  is_upper c = false -> is_word c || Ascii.eqb c "-" = true -> is_key_char c = true.
Proof. by_cases_on c. Qed.

Lemma key_char_facts (c : ascii) :
  is_key_char c = true ->
  to_lower c = c /\ is_space c = false /\ is_word c || Ascii.eqb c "-" = true.
Proof. by_cases_on c; intros _; repeat split. Qed.

Lemma dash_not_upper : is_upper "-" = false.
Proof. reflexivity. Qed.

Lemma drop_spaces_Forall (P : ascii -> Prop) (l : list ascii) :
  Forall P l -> Forall P (drop_spaces l).
Proof.
  induction 1 as [|c l Hc Hl IH]; cbn [drop_spaces]; [constructor|].
  destruct (is_space c); [exact IH | now constructor].
Qed.

Lemma trim_Forall (P : ascii -> Prop) (l : list ascii) :
  Forall P l -> Forall P (trim l).
Proof.
  intros H. unfold trim. apply List.Forall_rev, drop_spaces_Forall, List.Forall_rev,
    drop_spaces_Forall, H.
Qed.

Lemma spaces_to_dash_Forall (P : ascii -> Prop) (b : bool) (l : list ascii) :
  P "-"%char -> Forall P l -> Forall P (spaces_to_dash b l).
Proof.
  intros Hd H. revert b. induction H as [|c l Hc Hl IH]; intros b;
    cbn [spaces_to_dash]; [constructor|].
  destruct (is_space c); [destruct b|]; auto.
Qed.

Lemma keep_word_or_dash_key_chars (l : list ascii) :
  Forall (fun c => is_upper c = false) l ->
  Forall (fun c => is_key_char c = true) (keep_word_or_dash l).
Proof.
  induction 1 as [|c l Hc Hl IH]; cbn [keep_word_or_dash]; [constructor|].
  destruct (is_word c || Ascii.eqb c "-") eqn:E; [|exact IH].
  constructor; [now apply kept_is_key_char | exact IH].
Qed.

Lemma normalizeQuery_key_chars (query : string) :
  Forall (fun c => is_key_char c = true) (chars (normalizeQuery query)).
Proof.
  unfold normalizeQuery. rewrite chars_str.
  apply keep_word_or_dash_key_chars, spaces_to_dash_Forall; [reflexivity|].
  apply trim_Forall, List.Forall_forall. intros c (c' & <- & _)%in_map_iff.
  apply to_lower_not_upper.
Qed.

Lemma drop_spaces_no_space (l : list ascii) :
  Forall (fun c => is_space c = false) l -> drop_spaces l = l.
Proof. destruct 1 as [|c l Hc _]; cbn [drop_spaces]; [reflexivity | now rewrite Hc]. Qed.

Lemma normalize_key_chars (l : list ascii) :
  Forall (fun c => is_key_char c = true) l ->
  keep_word_or_dash (spaces_to_dash false (trim (map to_lower l))) = l.
Proof.
  intros H.
  assert (Hlow : map to_lower l = l).
  { induction H as [|c l Hc _ IH]; [reflexivity|]. cbn [map].
    now rewrite IH, (proj1 (key_char_facts c Hc)). }
  assert (Hsp : Forall (fun c => is_space c = false) l).
  { eapply List.Forall_impl; [|exact H]. intros c Hc. apply (key_char_facts c Hc). }
  rewrite Hlow. unfold trim.
  rewrite (drop_spaces_no_space l Hsp).
  rewrite (drop_spaces_no_space (rev l)) by now apply List.Forall_rev.
  rewrite rev_involutive. clear Hlow Hsp.
  assert (Hgen : forall b, keep_word_or_dash (spaces_to_dash b l) = l).
  { induction H as [|c l Hc _ IH]; intros b; [reflexivity|].
    destruct (key_char_facts c Hc) as (_ & Hs & Hk).
    cbn [spaces_to_dash]. rewrite Hs. cbn [keep_word_or_dash]. rewrite Hk.
    now rewrite IH. }
  apply Hgen.
Qed.


(** *** Reading a key back *)







Local Abbreviation entry_ok :=
  (fun kv : string * string =>
     ~ In "-"%char (chars kv.1) /\ ~ In "-"%char (chars kv.2) /\ ~ In ":"%char (chars kv.2)).







(** *** Numerals *)




Section KeyFacts.

Variable localeCompare : string -> string -> Z.








End KeyFacts.



(* ===================================================================== *)
(** * Part II, continued                                                  *)
(* ===================================================================== *)

(** ** CSRFProtection: issuing, comparing, clearing *)

Lemma token_of_uuids_nonempty (u1 u2 : string) :
  is_uuid u1 = true -> is_uuid u2 = true -> token_of_uuids u1 u2 <> "".
Proof.
  intros H1 H2 E. destruct (token_of_uuids_format _ _ H1 H2) as [Hlen _].
  rewrite E in Hlen. discriminate Hlen.
Qed.

Lemma generateToken_nonempty (w : World) :
  is_uuid (uuidSource w (rngIndex w)) = true ->
  is_uuid (uuidSource w (S (rngIndex w))) = true ->
  (generateToken w).1 <> "".
Proof. intros H1 H2. now apply token_of_uuids_nonempty. Qed.

Lemma generateToken_world (w : World) :
  (generateToken w).2 = with_rng (S (S (rngIndex w))) w.
Proof. reflexivity. Qed.

Lemma setToken_writable (token : string) (w : World) (jar : gmap string Cookie) :
  cookieStore w = Some jar -> cookiesWritable w = true ->
  exists w', setToken token w = Some w'.
Proof. intros Hjar Hw. unfold setToken. rewrite Hjar, Hw. eauto. Qed.

Lemma truthy_Some_value (o : option string) :
  truthy o = true -> o = Some (default "" o).
Proof. destruct o; [reflexivity | discriminate]. Qed.

(** The comparison loop: with as many bytes on both sides, the
    accumulated value is zero exactly when it was zero before and the
    two signatures are equal. *)
Lemma xor_accumulate_zero (result : Z) (sigA sigB : list Z) :
  length sigA = length sigB ->
  xor_accumulate result sigA sigB = 0%Z <-> result = 0%Z /\ sigA = sigB.
Proof.
  revert result sigB. induction sigA as [|a sigA IH]; intros result [|b sigB] Hlen;
    try discriminate Hlen; cbn [xor_accumulate hd tl].
  - tauto.
  - injection Hlen as Hlen. rewrite (IH _ _ Hlen), Z.lor_eq_0_iff. split.
    + intros [[Hr Hx] ->]. apply Z.lxor_eq in Hx. now subst.
    + intros [Hr [= -> ->]]. now rewrite Z.lxor_nilpotent.
Qed.

Section Comparator.

Variable CryptoKey : Type.
Variable generateKey : nat -> option CryptoKey.
Variable sign : CryptoKey -> list Z -> option (list Z).

Local Abbreviation compare := (timingSafeEqual CryptoKey generateKey sign).
Local Abbreviation validate := (validateToken CryptoKey generateKey sign).

(** X1.  When the key is drawn and both strings are signed, with
    signatures of one length, [timingSafeEqual] answers true exactly when
    the two signatures are equal, and it answers the same for the
    arguments swapped. *)
Theorem timingSafeEqual_exact (a b : string) (w : World) (key : CryptoKey)
  (sigA sigB : list Z) :
  generateKey (rngIndex w) = Some key ->
  sign key (utf8_encode a) = Some sigA ->
  sign key (utf8_encode b) = Some sigB ->
  length sigA = length sigB ->
  (compare a b w).1 = Some (bool_decide (sigA = sigB)) /\
  (compare b a w).1 = (compare a b w).1.
Proof.
  intros Hkey Ha Hb Hlen. unfold timingSafeEqual. rewrite Hkey, Ha, Hb. cbn [fst].
  assert (Hab : (xor_accumulate 0 sigA sigB =? 0)%Z = bool_decide (sigA = sigB)).
  { destruct (Z.eqb_spec (xor_accumulate 0 sigA sigB) 0) as [E|E];
      rewrite xor_accumulate_zero in E by exact Hlen.
    - symmetry. apply bool_decide_eq_true. tauto.
    - symmetry. apply bool_decide_eq_false. tauto. }
  assert (Hba : (xor_accumulate 0 sigB sigA =? 0)%Z = bool_decide (sigA = sigB)).
  { destruct (Z.eqb_spec (xor_accumulate 0 sigB sigA) 0) as [E|E];
      rewrite xor_accumulate_zero in E by (symmetry; exact Hlen).
    - symmetry. apply bool_decide_eq_true. destruct E; congruence.
    - symmetry. apply bool_decide_eq_false. intros ->. tauto. }
  now rewrite Hab, Hba.
Qed.

(** X2.  The round trip of the guard: a token stored by [setToken]
    passes [validateToken] on the next request, provided the HMAC key is
    drawn and the token is signed. *)
Theorem validateToken_accepts_stored (token : string) (w w' : World) (key : CryptoKey)
  (sig : list Z) :
  token <> "" ->
  setToken token w = Some w' ->
  generateKey (rngIndex w') = Some key ->
  sign key (utf8_encode token) = Some sig ->
  (validate (Some token) w').1 = true /\
  cookieStore (validate (Some token) w').2 = cookieStore w'.
Proof.
  intros Hne Hset Hkey Hsig. unfold validateToken.
  rewrite (truthy_Some _ Hne), (setToken_getTokenFromCookie _ _ _ Hne Hset),
    (truthy_Some _ Hne).
  cbn [negb from_option id]. unfold timingSafeEqual. rewrite Hkey, Hsig.
  assert (E : xor_accumulate 0 sig sig = 0%Z) by (now apply xor_accumulate_zero).
  rewrite E. split; reflexivity.
Qed.

(** X3.  With a stored token, [validateToken] fails closed when Web
    Crypto rejects (no key, or no signature): the answer is false, and
    the cookies are left as they were. *)
Theorem validateToken_crypto_failure (submitted stored : string) (w : World) :
  submitted <> "" ->
  getTokenFromCookie w = Some stored ->
  (generateKey (rngIndex w) = None \/
   forall key, generateKey (rngIndex w) = Some key ->
     sign key (utf8_encode submitted) = None \/ sign key (utf8_encode stored) = None) ->
  (validate (Some submitted) w).1 = false /\
  cookieStore (validate (Some submitted) w).2 = cookieStore w.
Proof.
  intros Hne Hget Hfail. unfold validateToken.
  rewrite (truthy_Some _ Hne), Hget, (getTokenFromCookie_truthy _ _ Hget).
  cbn [negb from_option id]. unfold timingSafeEqual.
  destruct (generateKey (rngIndex w)) as [key|] eqn:Hkey.
  - destruct Hfail as [Hfail|Hfail]; [discriminate|].
    destruct (Hfail key eq_refl) as [E|E]; rewrite E.
    + split; reflexivity.
    + destruct (sign key (utf8_encode submitted)); split; reflexivity.
  - split; reflexivity.
Qed.

End Comparator.

Lemma timingSafeEqual_exact_witness :
  (timingSafeEqual unit example_key example_sign "abc" "abd" example_world).1 =
    Some (bool_decide ([97; 98; 99]%Z = [97; 98; 100]%Z)) /\
  (timingSafeEqual unit example_key example_sign "abd" "abc" example_world).1 =
  (timingSafeEqual unit example_key example_sign "abc" "abd" example_world).1.
Proof.
  apply (timingSafeEqual_exact unit example_key example_sign "abc" "abd" example_world tt);
    reflexivity.
Defined.

Lemma validateToken_accepts_stored_witness :
  (validateToken unit example_key example_sign (Some "t0ken") issued_world).1 = true /\
  cookieStore (validateToken unit example_key example_sign (Some "t0ken") issued_world).2 =
  cookieStore issued_world.
Proof.
  apply (validateToken_accepts_stored unit example_key example_sign "t0ken"
           example_world issued_world tt (utf8_encode "t0ken"));
    [discriminate | vm_compute; reflexivity | reflexivity | reflexivity].
Defined.

Lemma validateToken_crypto_failure_witness :
  (validateToken unit no_key example_sign (Some "t0ken") issued_world).1 = false /\
  cookieStore (validateToken unit no_key example_sign (Some "t0ken") issued_world).2 =
  cookieStore issued_world.
Proof.
  apply (validateToken_crypto_failure unit no_key example_sign "t0ken" "t0ken" issued_world);
    [discriminate | vm_compute; reflexivity | left; reflexivity].
Defined.

(** ** CSRFProtection.getOrCreateToken and clearTokens *)

(** X4.  On a writable cookie store fed with UUIDs, the token that
    [getOrCreateToken] returns is the stored token afterwards, and a
    second call returns the same token and changes nothing. *)
Theorem getOrCreateToken_stable (w : World) (jar : gmap string Cookie) :
  cookieStore w = Some jar ->
  cookiesWritable w = true ->
  is_uuid (uuidSource w (rngIndex w)) = true ->
  is_uuid (uuidSource w (S (rngIndex w))) = true ->
  getTokenFromCookie (getOrCreateToken w).2 = Some (getOrCreateToken w).1 /\
  getOrCreateToken (getOrCreateToken w).2 = getOrCreateToken w.
Proof.
  intros Hjar Hw H1 H2.
  assert (Hstored : getTokenFromCookie (getOrCreateToken w).2 = Some (getOrCreateToken w).1).
  { unfold getOrCreateToken.
    destruct (truthy (getTokenFromCookie w)) eqn:Ht; cbn [negb].
    - cbn [fst snd]. now apply truthy_Some_value.
    - pose proof (generateToken_nonempty w H1 H2) as Hne.
      destruct (generateToken w) as [newToken w1] eqn:Hgen. cbn [fst] in Hne.
      assert (Hw1 : w1 = with_rng (S (S (rngIndex w))) w).
      { rewrite <- generateToken_world. now rewrite Hgen. }
      destruct (setToken_writable newToken w1 jar) as [w2 Hset];
        [now subst w1 | now subst w1 |].
      rewrite Hset. cbn [fst snd]. eapply setToken_getTokenFromCookie; eauto. }
  split; [exact Hstored|].
  unfold getOrCreateToken at 1. rewrite Hstored.
  assert (Ht : truthy (Some (getOrCreateToken w).1) = true).
  { eapply getTokenFromCookie_truthy, Hstored. }
  rewrite Ht. cbn [negb from_option id]. now destruct (getOrCreateToken w).
Qed.

Lemma getOrCreateToken_stable_witness :
  getTokenFromCookie (getOrCreateToken example_world).2 =
    Some (getOrCreateToken example_world).1 /\
  getOrCreateToken (getOrCreateToken example_world).2 = getOrCreateToken example_world.
Proof.
  apply (getOrCreateToken_stable example_world ∅); reflexivity.
Defined.

Lemma with_rng_with_rng (n m : nat) (w : World) :
  with_rng n (with_rng m w) = with_rng n w.
Proof. reflexivity. Qed.

Lemma getTokenFromCookie_with_rng (n : nat) (w : World) :
  getTokenFromCookie (with_rng n w) = getTokenFromCookie w.
Proof. reflexivity. Qed.

Lemma setToken_read_only (t : string) (w : World) :
  cookieStore w = None \/ cookiesWritable w = false -> setToken t w = None.
Proof.
  intros Hro. unfold setToken. destruct Hro as [-> | Hro]; [reflexivity|].
  rewrite Hro. now destruct (cookieStore w).
Qed.

(** Without a stored token and without a writable store, the second
    token drawn is returned and four UUIDs are used up. *)
Lemma getOrCreateToken_fallback (w : World) :
  getTokenFromCookie w = None ->
  (cookieStore w = None \/ cookiesWritable w = false) ->
  getOrCreateToken w =
    (token_of_uuids (uuidSource w (S (S (rngIndex w)))) (uuidSource w (S (S (S (rngIndex w))))),
     with_rng (S (S (S (S (rngIndex w))))) w).
Proof.
  intros Hnone Hro. unfold getOrCreateToken. rewrite Hnone. cbn [truthy negb].
  unfold generateToken at 1, randomUUID at 1 2.
  cbn [rngIndex uuidSource with_rng]. rewrite with_rng_with_rng.
  rewrite setToken_read_only by exact Hro.
  reflexivity.
Qed.

Section Fallback.

Variable CryptoKey : Type.
Variable generateKey : nat -> option CryptoKey.
Variable sign : CryptoKey -> list Z -> option (list Z).

(** X5.  Where no token is stored and the store cannot be written (or
    read), [getOrCreateToken] hands out a token that is stored nowhere:
    the cookies are as before, and [validateToken] rejects that very
    token. *)
Theorem getOrCreateToken_fallback_rejected (w : World) :
  getTokenFromCookie w = None ->
  (cookieStore w = None \/ cookiesWritable w = false) ->
  cookieStore (getOrCreateToken w).2 = cookieStore w /\
  (validateToken CryptoKey generateKey sign
     (Some (getOrCreateToken w).1) (getOrCreateToken w).2).1 = false.
Proof.
  intros Hnone Hro. rewrite (getOrCreateToken_fallback w Hnone Hro). cbn [fst snd].
  split; [reflexivity|].
  unfold validateToken. rewrite getTokenFromCookie_with_rng, Hnone.
  destruct (truthy (Some _)); cbn [negb truthy]; [|reflexivity].
  destruct (generateToken _) as [newToken w1].
  now destruct (setToken newToken w1).
Qed.

End Fallback.

Lemma getOrCreateToken_fallback_rejected_witness :
  cookieStore (getOrCreateToken no_store_world).2 = cookieStore no_store_world /\
  (validateToken unit example_key example_sign
     (Some (getOrCreateToken no_store_world).1) (getOrCreateToken no_store_world).2).1 = false.
Proof.
  apply (getOrCreateToken_fallback_rejected unit example_key example_sign no_store_world);
    [reflexivity | left; reflexivity].
Defined.

Lemma clearTokens_cookie_get (w : World) (jar : gmap string Cookie) (suffix : string) :
  cookieStore w = Some jar -> cookiesWritable w = true ->
  In suffix [""; "-backup"; "-debug"] ->
  forall jar', cookieStore (clearTokens w) = Some jar' ->
  cookie_get jar' (CSRF_COOKIE_NAME (env w) +:+ suffix) = None.
Proof.
  intros Hjar Hw Hin jar'. unfold clearTokens. rewrite Hjar, Hw.
  cbn [cookieStore with_cookies]. intros [= <-].
  unfold cookie_get, CSRF_COOKIE_NAME.
  destruct (node_env_is (env w) "production"); simpl in Hin;
    destruct Hin as [<-|[<-|[<-|[]]]]; cbn [String.append];
    rewrite ?lookup_delete_eq, ?(lookup_delete_ne (M := gmap string)) by discriminate;
    rewrite ?lookup_delete_eq, ?(lookup_delete_ne (M := gmap string)) by discriminate;
    rewrite ?lookup_delete_eq; reflexivity.
Qed.

Section Logout.

Variable CryptoKey : Type.
Variable generateKey : nat -> option CryptoKey.
Variable sign : CryptoKey -> list Z -> option (list Z).

(** X6.  After [clearTokens] on a writable store no token is stored, so
    every submitted token is rejected by [validateToken]; cookies under
    other names are left alone.  On a read-only store [clearTokens]
    changes nothing: the tokens stay. *)
Theorem clearTokens_clears (w : World) (jar : gmap string Cookie) :
  cookieStore w = Some jar ->
  (cookiesWritable w = true ->
   getTokenFromCookie (clearTokens w) = None /\
   (forall submitted,
      (validateToken CryptoKey generateKey sign submitted (clearTokens w)).1 = false) /\
   (forall name,
      ~ In name [CSRF_COOKIE_NAME (env w); CSRF_COOKIE_NAME (env w) +:+ "-backup";
                 CSRF_COOKIE_NAME (env w) +:+ "-debug"] ->
      exists jar', cookieStore (clearTokens w) = Some jar' /\ jar' !! name = jar !! name))
  /\
  (cookiesWritable w = false -> clearTokens w = w).
Proof.
  intros Hjar. split.
  - intros Hw.
    assert (Hjar' : cookieStore (clearTokens w) =
              Some (delete (CSRF_COOKIE_NAME (env w) +:+ "-debug")
                      (delete (CSRF_COOKIE_NAME (env w) +:+ "-backup")
                         (delete (CSRF_COOKIE_NAME (env w)) jar)))).
    { unfold clearTokens. now rewrite Hjar, Hw. }
    assert (Henv : env (clearTokens w) = env w).
    { unfold clearTokens. now rewrite Hjar, Hw. }
    assert (Hnone : getTokenFromCookie (clearTokens w) = None).
    { apply (getTokenFromCookie_no_cookie _ _ Hjar'). rewrite Henv.
      intros suffix Hin. now apply (clearTokens_cookie_get w jar suffix Hjar Hw Hin). }
    split; [exact Hnone|]. split.
    + intros submitted. unfold validateToken.
      destruct (truthy submitted); cbn [negb]; [|reflexivity].
      rewrite Hnone. cbn [truthy negb].
      destruct (generateToken _) as [newToken w1].
      now destruct (setToken newToken w1).
    + intros name Hname. eexists. split; [exact Hjar'|].
      rewrite !lookup_delete_ne; [reflexivity | | |];
        intros E; apply Hname; simpl; auto.
  - intros Hw. unfold clearTokens. now rewrite Hjar, Hw.
Qed.

End Logout.

Lemma clearTokens_clears_witness :
  getTokenFromCookie (clearTokens issued_world) = None /\
  (forall submitted,
     (validateToken unit example_key example_sign submitted (clearTokens issued_world)).1
       = false) /\
  (forall name,
     ~ In name [CSRF_COOKIE_NAME (env issued_world);
                CSRF_COOKIE_NAME (env issued_world) +:+ "-backup";
                CSRF_COOKIE_NAME (env issued_world) +:+ "-debug"] ->
     exists jar',
       cookieStore (clearTokens issued_world) = Some jar' /\
       jar' !! name = default ∅ (cookieStore issued_world) !! name).
Proof.
  apply (proj1 (clearTokens_clears unit example_key example_sign issued_world
                  (default ∅ (cookieStore issued_world)) eq_refl)).
  reflexivity.
Defined.

(** ** CSRFProtection.healthCheck *)

Section HealthFacts.

Variable cookies_error_message : string.

(** X7.  Right after a successful [setToken] the health check finds the
    token and reports no issue and no recommendation, in every
    environment; and whenever it finds no token it reports an issue and
    a recommendation. *)
Theorem healthCheck_after_setToken (w : World) :
  (forall token w0,
     token <> "" -> setToken token w0 = Some w ->
     healthCheck cookies_error_message w =
       {| hasToken := true; cookieIssues := []; recommendations := [] |}) /\
  (hasToken (healthCheck cookies_error_message w) = false ->
   cookieIssues (healthCheck cookies_error_message w) <> [] /\
   recommendations (healthCheck cookies_error_message w) <> []).
Proof.
  split.
  - intros token w0 Hne Hset.
    pose proof (setToken_getTokenFromCookie _ _ _ Hne Hset) as Hget.
    unfold healthCheck. rewrite Hget, (truthy_Some _ Hne). cbn [negb].
    unfold setToken in Hset.
    destruct (cookieStore w0) as [jar|]; [|discriminate].
    destruct (cookiesWritable w0); [|discriminate].
    injection Hset as <-. cbn [env cookieStore with_cookies].
    destruct (node_env_is (env w0) "production"); cbn [negb]; [reflexivity|].
    rewrite lookup_insert_eq. cbn [fmap option_fmap option_map cookie_value].
    now rewrite (truthy_Some _ Hne).
  - unfold healthCheck.
    destruct (truthy (getTokenFromCookie w)); cbn [negb].
    + destruct (negb (node_env_is _ _)); [destruct (cookieStore w)|]; discriminate.
    + intros _.
      destruct (negb (node_env_is _ _)); [destruct (cookieStore w) as [jar|]|];
        cbn [cookieIssues recommendations]; try (split; discriminate).
      destruct (negb (truthy _)); split; discriminate.
Qed.

End HealthFacts.

Lemma healthCheck_after_setToken_witness :
  healthCheck "cookies was called outside a request scope" issued_world =
    {| hasToken := true; cookieIssues := []; recommendations := [] |}.
Proof.
  apply (proj1 (healthCheck_after_setToken "cookies was called outside a request scope"
                  issued_world) "t0ken" example_world);
    [discriminate | vm_compute; reflexivity].
Defined.

(** ** withCSRFProtection: what it rejects with *)

Lemma rethrow_shape (error : Thrown) :
  is_redirect (rethrow error) = true \/
  exists message code statusCode, rethrow error = SecureActionError message code statusCode.
Proof.
  destruct error as [m c s|d|m]; cbn [rethrow].
  - right. eauto.
  - destruct (includes d "NEXT_REDIRECT") eqn:E; [left; exact E | right; eauto].
  - right. eauto.
Qed.

Section Rejections.

Variable CryptoKey : Type.
Variable generateKey : nat -> option CryptoKey.
Variable sign : CryptoKey -> list Z -> option (list Z).

(** X8.  Whatever the wrapped action throws, a call of the wrapper
    rejects only with a Next.js redirect or with a [SecureActionError]:
    no other error of the action reaches the caller. *)
Theorem withCSRFProtection_rejections (R : Type)
  (action : list Arg -> World -> (R + Thrown) * World) (args : list Arg) (w : World)
  (error : Thrown) (w' : World) :
  withCSRFProtection CryptoKey generateKey sign R action args w = (inr error, w') ->
  is_redirect error = true \/
  exists message code statusCode, error = SecureActionError message code statusCode.
Proof.
  unfold withCSRFProtection.
  destruct (find_formdata args) as [fd|].
  - destruct (validateToken _ _ _ _ w) as [isValid w1].
    destruct isValid; cbn [negb].
    + destruct (action args w1) as [[r|e] w2]; [discriminate|].
      intros [= <- <-]. apply rethrow_shape.
    + intros [= <- <-]. right. cbn. eauto.
  - intros [= <- <-]. right. cbn. eauto.
Qed.

End Rejections.

(** An action that fails with a database error, behind a valid token. *)
Lemma withCSRFProtection_rejections_witness :
  is_redirect (SecureActionError "Action failed" "ACTION_ERROR" 500) = true \/
  exists message code statusCode,
    SecureActionError "Action failed" "ACTION_ERROR" 500 =
    SecureActionError message code statusCode.
Proof.
  apply (withCSRFProtection_rejections unit example_key example_sign nat
           (fun _ w => (inr (OtherError "connection lost"), w))
           [ArgFormData [("csrf_token", "t0ken")]] issued_world
           (SecureActionError "Action failed" "ACTION_ERROR" 500)
           (with_rng (S (rngIndex issued_world)) issued_world)).
  vm_compute. reflexivity.
Defined.

(** ** SecurityHeaders: the bundle *)

Section Bundle.

Variable url_origin : string -> option string.

Lemma getSecurityHeaders_generateCSP (w : World) (nonce : option string) :
  getSecurityHeaders url_origin w nonce =
  (fun csp =>
     [ ("X-Content-Type-Options", "nosniff");
       ("X-XSS-Protection", "1; mode=block");
       ("Referrer-Policy", "strict-origin-when-cross-origin");
       ("X-Frame-Options",
        if node_env_is (env w) "development" then "SAMEORIGIN" else "DENY");
       ("Permissions-Policy", "geolocation=(), microphone=(), camera=()") ]
     ++ (if node_env_is (env w) "development" then []
         else [ ("Strict-Transport-Security", "max-age=63072000; includeSubDomains; preload");
                ("X-DNS-Prefetch-Control", "off") ])
     ++ [ ("Content-Security-Policy", csp) ])
  <$> generateCSP url_origin w nonce (node_env_is (env w) "development").
Proof.
  unfold getSecurityHeaders.
  destruct (node_env_is (env w) "development");
    destruct (generateCSP _ _ _ _); reflexivity.
Qed.

(** X9.  A header bundle that is built names each header once.  It
    holds the five baseline headers and the policy in every environment;
    the transport headers (HSTS, DNS prefetch control) exactly when
    [NODE_ENV] is not [development], so also when it is unset; and the
    frame option is [SAMEORIGIN] in development and [DENY] otherwise. *)
Theorem getSecurityHeaders_bundle (w : World) (nonce : option string)
  (headers : list (string * string)) :
  getSecurityHeaders url_origin w nonce = Some headers ->
  NoDup (map fst headers) /\
  Forall (fun name => is_Some (obj_get headers name))
    [ "X-Content-Type-Options"; "X-XSS-Protection"; "Referrer-Policy"; "X-Frame-Options";
      "Permissions-Policy"; "Content-Security-Policy" ] /\
  (is_Some (obj_get headers "Strict-Transport-Security") <->
     node_env_is (env w) "development" = false) /\
  (is_Some (obj_get headers "X-DNS-Prefetch-Control") <->
     node_env_is (env w) "development" = false) /\
  obj_get headers "X-Frame-Options" =
    Some (if node_env_is (env w) "development" then "SAMEORIGIN" else "DENY") /\
  obj_get headers "Content-Security-Policy" =
    generateCSP url_origin w nonce (node_env_is (env w) "development").
Proof.
  rewrite getSecurityHeaders_generateCSP.
  destruct (generateCSP _ _ _ _) as [csp|]; [|discriminate].
  intros [= <-].
  destruct (node_env_is (env w) "development"); cbn.
  - split; [apply (bool_decide_unpack _); vm_compute; exact I|].
    split; [repeat constructor; eexists; reflexivity|].
    repeat split; try discriminate; try (intros [? [=]]).
  - split; [apply (bool_decide_unpack _); vm_compute; exact I|].
    split; [repeat constructor; eexists; reflexivity|].
    repeat split; intros; eexists; reflexivity.
Qed.

End Bundle.

Lemma getSecurityHeaders_bundle_witness :
  exists headers,
    getSecurityHeaders example_origin production_world (Some "n0nce") = Some headers /\
    is_Some (obj_get headers "Strict-Transport-Security") /\
    obj_get headers "X-Frame-Options" = Some "DENY".
Proof.
  destruct (getSecurityHeaders example_origin production_world (Some "n0nce"))
    as [headers|] eqn:E; [|vm_compute in E; discriminate].
  exists headers. split; [reflexivity|].
  destruct (getSecurityHeaders_bundle example_origin production_world (Some "n0nce")
              headers E) as (_ & _ & Hsts & _ & Hframe & _).
  split; [apply Hsts; vm_compute; reflexivity | exact Hframe].
Defined.

Lemma starts_with_app (p r : list ascii) : starts_with p (p ++ r) = true.
Proof.
  induction p as [|c p IH]; [reflexivity|]. cbn [app starts_with].
  now rewrite Ascii.eqb_refl, IH.
Qed.

Lemma ends_with_append (s p : string) : ends_with (s +:+ p) p = true.
Proof. unfold ends_with. rewrite chars_app, rev_app_distr. apply starts_with_app. Qed.

Lemma starts_with_append (s p : string) : starts_with (chars p) (chars (p +:+ s)) = true.
Proof. rewrite chars_app. apply starts_with_app. Qed.

Lemma starts_with_prefix (p l : list ascii) :
  starts_with p l = true -> exists r, l = p ++ r.
Proof.
  revert l. induction p as [|c p IH]; intros l H; [now exists l|].
  destruct l as [|d l]; [discriminate|]. cbn [starts_with] in H.
  apply andb_true_iff in H as [Hc Hp]. apply Ascii.eqb_eq in Hc as ->.
  destruct (IH _ Hp) as [r ->]. now exists r.
Qed.

Lemma starts_with_app_short (p l r : list ascii) :
  length p <= length l -> starts_with p (l ++ r) = starts_with p l.
Proof.
  revert l. induction p as [|c p IH]; intros l Hlen; [reflexivity|].
  destruct l as [|d l]; [cbn in Hlen; lia|].
  cbn [app starts_with]. rewrite IH; [reflexivity | cbn in Hlen; lia].
Qed.

Lemma ends_with_skip (a b p : string) :
  ends_with b p = true -> ends_with (a +:+ b) p = true.
Proof.
  unfold ends_with. intros H. rewrite chars_app, rev_app_distr.
  destruct (starts_with_prefix _ _ H) as [r ->]. rewrite <- List.app_assoc.
  apply starts_with_app.
Qed.

(** A string that ends with [q] ends with a shorter [p] exactly when
    [q] does. *)
Lemma ends_with_through (s q p : string) :
  ends_with s q = true -> String.length p <= String.length q ->
  ends_with s p = ends_with q p.
Proof.
  unfold ends_with. intros H Hlen.
  destruct (starts_with_prefix _ _ H) as [r ->].
  apply starts_with_app_short.
  rewrite !length_rev, <- !str_length, !str_chars. exact Hlen.
Qed.

Section Policy.

Variable url_origin : string -> option string.

Lemma getExternalDomains_None (w : World) :
  getExternalDomains url_origin w = None <->
  truthy (env w !! "NEXT_PUBLIC_SUPABASE_URL") = true /\
  url_origin (default "" (env w !! "NEXT_PUBLIC_SUPABASE_URL")) = None.
Proof.
  unfold getExternalDomains.
  destruct (truthy (env w !! "NEXT_PUBLIC_SUPABASE_URL")).
  - destruct (url_origin _); cbn; split; try discriminate; try tauto.
    intros [_ [=]].
  - split; [discriminate | intros [[=] _]].
Qed.

(** X10.  [generateCSP] throws exactly when [NEXT_PUBLIC_SUPABASE_URL]
    is set and is no URL.  A policy that is built starts with
    [default-src 'self'] and the [script-src] directive; in development
    it ends with [block-all-mixed-content], otherwise with
    [upgrade-insecure-requests] as one more directive. *)
Theorem generateCSP_outcome (w : World) (nonce : option string) (isDevelopment : bool) :
  (generateCSP url_origin w nonce isDevelopment = None <->
   truthy (env w !! "NEXT_PUBLIC_SUPABASE_URL") = true /\
   url_origin (default "" (env w !! "NEXT_PUBLIC_SUPABASE_URL")) = None) /\
  (forall csp,
     generateCSP url_origin w nonce isDevelopment = Some csp ->
     starts_with (chars "default-src 'self'; script-src 'self' ") (chars csp) = true /\
     ends_with csp
       (if isDevelopment then "; frame-ancestors 'none'; block-all-mixed-content"
        else "; block-all-mixed-content; upgrade-insecure-requests") = true /\
     ends_with csp "upgrade-insecure-requests" = negb isDevelopment).
Proof.
  split.
  - rewrite <- getExternalDomains_None.
    unfold generateCSP, buildImgSrc, buildConnectSrc.
    destruct (getExternalDomains url_origin w); cbn; split; congruence.
  - intros csp. unfold generateCSP.
    destruct (buildImgSrc url_origin w) as [imgSrc|]; [|discriminate].
    destruct (buildConnectSrc url_origin w isDevelopment) as [connectSrc|]; [|discriminate].
    intros [= <-]. split.
    { unfold buildScriptSrc, buildScriptSrc_sources.
      destruct isDevelopment, (truthy nonce); reflexivity. }
    destruct isDevelopment.
    + assert (Hend : ends_with
                (join "; "
                   ([ "default-src 'self'"; buildScriptSrc nonce true; buildStyleSrc; imgSrc;
                      buildFontSrc; connectSrc; buildFrameSrc; "object-src 'none'";
                      "base-uri 'self'"; "form-action 'self'"; "frame-ancestors 'none'";
                      "block-all-mixed-content" ] ++ []))
                "; frame-ancestors 'none'; block-all-mixed-content" = true).
      { cbn [app join]. do 19 apply ends_with_skip. reflexivity. }
      pose proof (ends_with_through _ _ "upgrade-insecure-requests" Hend
                    ltac:(cbn; lia)) as Hup.
      split; [exact Hend | exact Hup].
    + assert (Hend : ends_with
                (join "; "
                   ([ "default-src 'self'"; buildScriptSrc nonce false; buildStyleSrc; imgSrc;
                      buildFontSrc; connectSrc; buildFrameSrc; "object-src 'none'";
                      "base-uri 'self'"; "form-action 'self'"; "frame-ancestors 'none'";
                      "block-all-mixed-content" ] ++ ["upgrade-insecure-requests"]))
                "; block-all-mixed-content; upgrade-insecure-requests" = true).
      { cbn [app join]. do 21 apply ends_with_skip. reflexivity. }
      pose proof (ends_with_through _ _ "upgrade-insecure-requests" Hend
                    ltac:(cbn; lia)) as Hup.
      split; [exact Hend | exact Hup].
Qed.

(** X11.  The header bundle depends on six environment variables and
    on nothing else of [process.env]: two environments that agree on
    them give the same bundle for the same nonce. *)
Theorem getSecurityHeaders_env_frame (w1 w2 : World) (nonce : option string) :
  Forall (fun name => env w1 !! name = env w2 !! name) header_env_names ->
  getSecurityHeaders url_origin w1 nonce = getSecurityHeaders url_origin w2 nonce.
Proof.
  intros Hall. unfold header_env_names in Hall.
  repeat match goal with
         | H : Forall _ (_ :: _) |- _ =>
             let E := fresh "E" in
             pose proof (Forall_inv H) as E; cbv beta in E; apply Forall_inv_tail in H
         end.
  unfold getSecurityHeaders, generateCSP, buildImgSrc, buildConnectSrc,
    getExternalDomains, node_env_is.
  repeat match goal with E : env w1 !! _ = env w2 !! _ |- _ => rewrite E; clear E end.
  reflexivity.
Qed.

End Policy.

Lemma generateCSP_outcome_witness :
  generateCSP example_origin misconfigured_world (Some "n0nce") false = None.
Proof.
  apply (proj1 (generateCSP_outcome example_origin misconfigured_world (Some "n0nce") false)).
  split; vm_compute; reflexivity.
Defined.

Lemma getSecurityHeaders_env_frame_witness :
  getSecurityHeaders example_origin production_world (Some "n0nce") =
  getSecurityHeaders example_origin production_world' (Some "n0nce").
Proof.
  apply (getSecurityHeaders_env_frame example_origin production_world production_world').
  repeat constructor.
Defined.

(** ** MemoryCache: round trips and frame *)

Section StoreLaws.

Variable regexp : string -> option (string -> bool).

Lemma cache_run_app (h1 h2 : list (Z * CacheOp)) :
  cache_run regexp (h1 ++ h2) =
  fold_left (fun cache ev => (cache_step regexp ev.1 ev.2 cache).2) h2 (cache_run regexp h1).
Proof. unfold cache_run. apply fold_left_app. Qed.

Lemma eqb_false_ne (k key : string) : String.eqb k key = false -> k <> key.
Proof. intros H ->. now rewrite String.eqb_refl in H. Qed.

Lemma cache_step_untouched (now : Z) (op : CacheOp) (cache : gmap string Entry)
  (key : string) :
  touches regexp key op = false ->
  (cache_step regexp now op cache).2 !! key = cache !! key.
Proof.
  destruct op as [k|k v ttl|k|pattern]; cbn [touches cache_step snd].
  - intros H%eqb_false_ne. unfold cache_get.
    destruct (cache !! k) as [e|]; [destruct (expires e <? now)%Z|]; cbn [snd];
      try reflexivity; now apply lookup_delete_ne.
  - intros H%eqb_false_ne. unfold cache_set. now apply lookup_insert_ne.
  - intros H%eqb_false_ne. unfold cache_del. now apply lookup_delete_ne.
  - unfold cache_clear. destruct (truthy pattern); [|discriminate].
    destruct (regexp _) as [test|]; [|reflexivity]. intros Ht. cbn [from_option id].
    destruct (cache !! key) as [e|] eqn:He.
    + apply map_lookup_filter_Some. split; [exact He | exact Ht].
    + apply map_lookup_filter_None. left. exact He.
Qed.

Lemma cache_step_removes (now : Z) (op : CacheOp) (cache : gmap string Entry)
  (key : string) :
  removes regexp key op = true ->
  (cache_step regexp now op cache).2 !! key = None.
Proof.
  destruct op as [k|k v ttl|k|pattern]; cbn [removes touches cache_step snd];
    try discriminate.
  - intros H%String.eqb_eq. subst k. apply lookup_delete_eq.
  - unfold cache_clear. destruct (truthy pattern); [|intros _; cbn; now rewrite lookup_empty].
    destruct (regexp _) as [test|]; [|discriminate]. intros Ht. cbn [from_option id].
    apply map_lookup_filter_None. right. intros e _. cbn. rewrite Ht. discriminate.
Qed.

Lemma cache_step_absent (now : Z) (op : CacheOp) (cache : gmap string Entry)
  (key : string) :
  is_set_of key op = false -> cache !! key = None ->
  (cache_step regexp now op cache).2 !! key = None.
Proof.
  intros Hset Hnone. destruct ((cache_step regexp now op cache).2 !! key) as [e|] eqn:He;
    [|reflexivity].
  exfalso. revert He.
  destruct op as [k|k v ttl|k|pattern]; cbn [cache_step snd].
  - intros H%(cache_get_store regexp). congruence.
  - cbn [is_set_of] in Hset. apply eqb_false_ne in Hset. unfold cache_set.
    rewrite lookup_insert_ne by exact Hset. congruence.
  - unfold cache_del. rewrite lookup_delete_Some. intros [_ H]. congruence.
  - unfold cache_clear. destruct (truthy pattern); [|cbn; now rewrite lookup_empty].
    destruct (regexp _) as [test|]; cbn [from_option id]; [|congruence].
    rewrite map_lookup_filter_Some. intros [H _]. congruence.
Qed.

Lemma cache_step_leaves (ev : Z * CacheOp) (cache : gmap string Entry)
  (key : string) (e : Entry) :
  leaves regexp key (expires e) ev = true -> cache !! key = Some e ->
  (cache_step regexp ev.1 ev.2 cache).2 !! key = Some e.
Proof.
  unfold leaves. intros H He.
  destruct (touches regexp key ev.2) eqn:Ht;
    [|now rewrite cache_step_untouched]. cbn [negb orb] in H.
  destruct ev as [t [k|k v ttl|k|pattern]]; cbn [fst snd] in *; try discriminate.
  apply String.eqb_eq in Ht. subst k. apply Z.leb_le in H.
  cbn [cache_step snd]. unfold cache_get. rewrite He.
  destruct (expires e <? t)%Z eqn:Hlt; [apply Z.ltb_lt in Hlt; lia | exact He].
Qed.

(** X12.  A value that was set is served until its expiry: after
    [set(key, value, ttl)] and any later calls that leave the key alone
    (calls on other keys, reads of the key up to its expiry, [clear]
    with a pattern that does not accept the key or is no regular
    expression), [get(key)] returns the value at every clock reading up
    to the expiry, and leaves the store as it is. *)
Theorem memoryCache_serves_last_set (before later : list (Z * CacheOp)) (t0 : Z)
  (key val : string) (ttl : option Z) (now : Z) :
  Forall (fun ev => leaves regexp key (t0 + default 300 ttl * 1000)%Z ev = true) later ->
  (now <= t0 + default 300 ttl * 1000)%Z ->
  cache_get key now (cache_run regexp (before ++ (t0, OpSet key val ttl) :: later)) =
  (Some val, cache_run regexp (before ++ (t0, OpSet key val ttl) :: later)).
Proof.
  intros Hlater Hnow.
  assert (He : cache_run regexp (before ++ (t0, OpSet key val ttl) :: later) !! key =
               Some {| value := val; expires := (t0 + default 300 ttl * 1000)%Z |}).
  { rewrite cache_run_app. cbn [fold_left fst snd cache_step].
    generalize (cache_run regexp before). intros cache.
    assert (H0 : cache_set key val ttl t0 cache !! key =
                 Some {| value := val; expires := (t0 + default 300 ttl * 1000)%Z |})
      by apply lookup_insert_eq.
    revert H0. generalize (cache_set key val ttl t0 cache). clear cache.
    induction Hlater as [|ev later Hev _ IH]; intros cache H0; [exact H0|].
    cbn [fold_left]. apply IH. now apply cache_step_leaves. }
  unfold cache_get. rewrite He. cbn [expires value].
  destruct (_ <? now)%Z eqn:Hlt; [apply Z.ltb_lt in Hlt; lia | reflexivity].
Qed.

(** X13.  A removed key stays removed until it is set again: after
    [del(key)], [clear()] without pattern or with the empty pattern, or
    [clear(pattern)] with a pattern whose regular expression accepts the
    key, and any later calls other than [set(key, ..)], [get(key)]
    returns null at every clock reading. *)
Theorem memoryCache_removed_until_set (before later : list (Z * CacheOp)) (t : Z)
  (op : CacheOp) (key : string) (now : Z) :
  removes regexp key op = true ->
  Forall (fun ev => is_set_of key ev.2 = false) later ->
  (cache_get key now (cache_run regexp (before ++ (t, op) :: later))).1 = None.
Proof.
  intros Hop Hlater.
  assert (He : cache_run regexp (before ++ (t, op) :: later) !! key = None).
  { rewrite cache_run_app. cbn [fold_left fst snd].
    pose proof (cache_step_removes t op (cache_run regexp before) key Hop) as H0.
    revert H0. generalize ((cache_step regexp t op (cache_run regexp before)).2).
    induction Hlater as [|ev later Hev _ IH]; intros cache H0; [exact H0|].
    cbn [fold_left]. apply IH. now apply cache_step_absent. }
  unfold cache_get. now rewrite He.
Qed.

(** X14.  Every call changes only the keys it touches: [get], [set] and
    [del] leave the entries of all other keys as they are, [clear] with
    a pattern leaves the entries of the keys its regular expression
    rejects, and a [clear] whose pattern is no regular expression
    leaves every entry. *)
Theorem memoryCache_frame (now : Z) (op : CacheOp) (cache : gmap string Entry)
  (key : string) :
  touches regexp key op = false ->
  (cache_step regexp now op cache).2 !! key = cache !! key /\
  (cache_get key now (cache_step regexp now op cache).2).1 = (cache_get key now cache).1.
Proof.
  intros H. pose proof (cache_step_untouched now op cache key H) as E.
  split; [exact E|]. unfold cache_get. rewrite E.
  destruct (cache !! key) as [e|]; [destruct (expires e <? now)%Z|]; reflexivity.
Qed.

End StoreLaws.

Lemma memoryCache_serves_last_set_witness :
  cache_get "k" 2000
    (cache_run (fun _ => None)
       ([(0%Z, OpSet "k" "old" None)] ++
        (1000%Z, OpSet "k" "v" (Some 1%Z)) ::
        [(1500%Z, OpGet "k"); (1600%Z, OpDel "j"); (1700%Z, OpClear (Some "("))])) =
  (Some "v",
   cache_run (fun _ => None)
       ([(0%Z, OpSet "k" "old" None)] ++
        (1000%Z, OpSet "k" "v" (Some 1%Z)) ::
        [(1500%Z, OpGet "k"); (1600%Z, OpDel "j"); (1700%Z, OpClear (Some "("))])).
Proof.
  apply (memoryCache_serves_last_set (fun _ => None)).
  - repeat constructor.
  - simpl. lia.
Defined.

Lemma memoryCache_removed_until_set_witness :
  (cache_get "k" 5
     (cache_run (fun _ => None)
        ([(0%Z, OpSet "k" "v" None)] ++
         (1%Z, OpClear (Some "")) :: [(2%Z, OpSet "j" "w" None); (3%Z, OpGet "k")]))).1 = None.
Proof.
  apply (memoryCache_removed_until_set (fun _ => None)).
  - reflexivity.
  - repeat constructor.
Defined.

Lemma memoryCache_frame_witness :
  (cache_step (fun _ => None) 7 (OpDel "j") (cache_run (fun _ => None) [(0%Z, OpSet "k" "v" None)])).2
    !! "k" =
  cache_run (fun _ => None) [(0%Z, OpSet "k" "v" None)] !! "k" /\
  (cache_get "k" 7
     (cache_step (fun _ => None) 7 (OpDel "j")
        (cache_run (fun _ => None) [(0%Z, OpSet "k" "v" None)])).2).1 =
  (cache_get "k" 7 (cache_run (fun _ => None) [(0%Z, OpSet "k" "v" None)])).1.
Proof.
  apply (memoryCache_frame (fun _ => None)). reflexivity.
Defined.

(** ** The cache probe on a MemoryCache *)

Lemma cache_get_reading_set (key val : string) (ttl : option Z) (t0 : Z)
  (clock : nat -> Z) (n : nat) (cache : gmap string Entry) :
  cache_get_reading key clock n (cache_set key val ttl t0 cache) =
  (if (t0 + default 300 ttl * 1000 <? clock n)%Z then (None, delete key cache)
   else (Some val, cache_set key val ttl t0 cache), S n).
Proof.
  unfold cache_get_reading, cache_get, cache_set. rewrite lookup_insert_eq.
  cbn [expires value]. destruct (_ <? clock n)%Z; [|reflexivity].
  now rewrite delete_insert_eq.
Qed.

Lemma cache_get_reading_del (key : string) (clock : nat -> Z) (n : nat)
  (cache : gmap string Entry) :
  cache_get_reading key clock n (cache_del key cache) = (None, delete key cache, n).
Proof.
  unfold cache_get_reading, cache_del. rewrite lookup_delete_eq.
  now rewrite delete_delete_eq.
Qed.

(** X15.  On a [MemoryCache] the probe of the status route reports a
    successful read exactly when the clock reading inside [get] is at
    most 60 seconds after the reading inside [set]; it always reports a
    verified deletion; it reads the clock nine times, the last reading
    closing the deletion timer; and it leaves the store as it found it,
    except that its own key [test:<first reading>] has no entry. *)
Theorem testCacheOperations_on_memory (clock : nat -> Z) (cache : gmap string Entry) :
  get_success (testCacheOperations clock cache).1 = (clock 5%nat <=? clock 2%nat + 60000)%Z /\
  delete_success (testCacheOperations clock cache).1 = true /\
  set_time (testCacheOperations clock cache).1 =
    number_to_string (clock 3%nat - clock 1%nat)%Z +:+ "ms" /\
  get_time (testCacheOperations clock cache).1 =
    number_to_string (clock 6%nat - clock 4%nat)%Z +:+ "ms" /\
  delete_time (testCacheOperations clock cache).1 =
    number_to_string (clock 8%nat - clock 7%nat)%Z +:+ "ms" /\
  (testCacheOperations clock cache).2 =
    delete ("test:" +:+ number_to_string (clock 0%nat)) cache.
Proof.
  unfold testCacheOperations. cbv zeta.
  rewrite cache_get_reading_set.
  replace (clock 2%nat + default 300 (Some 60) * 1000)%Z with (clock 2%nat + 60000)%Z
    by (cbn; lia).
  rewrite Z.leb_antisym.
  destruct (clock 2%nat + 60000 <? clock 5%nat)%Z; cbn [negb];
    rewrite cache_get_reading_del;
    cbn [fst snd get_success delete_success set_time get_time delete_time];
    unfold cache_set; rewrite ?delete_insert_eq, ?delete_delete_eq;
    (split; [reflexivity|]); (split; [reflexivity|]); (split; [reflexivity|]);
    (split; [reflexivity|]); (split; reflexivity).
Qed.

(** ** Invalidation *)

Lemma invalidates_In (tags : list string) (f : CachedFunction) :
  invalidates tags f = true <-> exists t, In t (allTags f) /\ In t tags.
Proof.
  unfold invalidates. rewrite existsb_exists. unfold mem.
  split; intros (t & Ht & H); exists t; (split; [exact Ht|]).
  - apply existsb_exists in H as (t' & Hin & ->%String.eqb_eq). exact Hin.
  - apply existsb_exists. exists t. split; [exact H | apply String.eqb_refl].
Qed.

(** ** memoize *)

Section JsMapFacts.

Context {V : Type}.

Lemma jsmap_get_In (m : list (string * V)) (k : string) (v : V) :
  jsmap_get m k = Some v -> In (k, v) m.
Proof.
  induction m as [|[k' v'] m IH]; cbn [jsmap_get]; [discriminate|].
  destruct (String.eqb k' k) eqn:E.
  - apply String.eqb_eq in E. intros [= ->]. subst. now left.
  - intros H. right. auto.
Qed.

Lemma jsmap_get_None (m : list (string * V)) (k : string) :
  jsmap_get m k = None <-> ~ In k (map fst m).
Proof.
  induction m as [|[k' v'] m IH]; cbn [jsmap_get map fst In]; [tauto|].
  destruct (String.eqb k' k) eqn:E.
  - apply String.eqb_eq in E. split; [discriminate | tauto].
  - apply String.eqb_neq in E. tauto.
Qed.

Lemma jsmap_set_new (m : list (string * V)) (k : string) (v : V) :
  jsmap_get m k = None -> jsmap_set m k v = m ++ [(k, v)].
Proof.
  induction m as [|[k' v'] m IH]; cbn [jsmap_get jsmap_set app]; [reflexivity|].
  destruct (String.eqb k' k); [discriminate|]. intros H. now rewrite IH.
Qed.

Lemma jsmap_delete_new (m : list (string * V)) (k : string) (v : V) :
  jsmap_get m k = None -> jsmap_delete (m ++ [(k, v)]) k = m.
Proof.
  induction m as [|[k' v'] m IH]; cbn [jsmap_get jsmap_delete app].
  - now rewrite String.eqb_refl.
  - destruct (String.eqb k' k); [discriminate|]. intros H. now rewrite IH.
Qed.

Lemma jsmap_delete_absent (m : list (string * V)) (k : string) :
  jsmap_get m k = None -> jsmap_delete m k = m.
Proof.
  induction m as [|[k' v'] m IH]; cbn [jsmap_get jsmap_delete]; [reflexivity|].
  destruct (String.eqb k' k); [discriminate|]. intros H. now rewrite IH.
Qed.

End JsMapFacts.

Section MemoizeFacts.

Context {A R : Type}.
Variable key_of : A -> string.
Variable maxSize : Z.

Local Abbreviation call := (memo_call key_of maxSize).
Local Abbreviation run_calls := (memo_run (R := R) key_of maxSize).

Local Abbreviation evicted := (memo_evicted (R := R) maxSize).

Lemma memo_call_hit (args : A) (run : Outcome R) (cache : list (string * Outcome R))
  (m : Metrics) (promise : Outcome R) :
  jsmap_get cache (key_of args) = Some promise ->
  call args run (cache, m) = (promise, false, (cache, recordHit m)).
Proof. intros H. unfold memo_call. now rewrite H. Qed.

Lemma memo_call_miss (args : A) (run : Outcome R) (cache : list (string * Outcome R))
  (m : Metrics) :
  jsmap_get cache (key_of args) = None ->
  call args run (cache, m) =
  (run, true,
   (match run with
    | Fulfils r => evicted cache ++ [(key_of args, Fulfils r)]
    | _ => evicted cache
    end,
    match run with
    | Rejects _ => recordError (recordMiss m)
    | _ => recordMiss m
    end)).
Proof.
  intros H. unfold memo_call. rewrite H.
  assert (Hev : (if (maxSize <=? Z.of_nat (length cache))%Z
                 then match cache with
                      | [] => cache
                      | (firstKey, _) :: _ => jsmap_delete cache firstKey
                      end
                 else cache) = evicted cache).
  { unfold memo_evicted. destruct (_ <=? _)%Z; [|reflexivity].
    destruct cache as [|[k p] cache]; [reflexivity|].
    cbn [jsmap_delete tl]. now rewrite String.eqb_refl. }
  rewrite Hev.
  assert (Hnone : jsmap_get (evicted cache) (key_of args) = None).
  { unfold memo_evicted. destruct (_ <=? _)%Z; [|exact H].
    destruct cache as [|[k p] cache]; [reflexivity|].
    cbn [jsmap_get tl] in *. destruct (String.eqb k (key_of args)); [discriminate|exact H]. }
  destruct run as [r|e|e]; [| |reflexivity].
  - now rewrite jsmap_set_new.
  - rewrite jsmap_set_new by exact Hnone. now rewrite jsmap_delete_new.
Qed.

End MemoizeFacts.

Section MemoizeLaws.

Context {A R : Type}.
Variable key_of : A -> string.
Variable maxSize : Z.

Local Abbreviation call := (memo_call key_of maxSize).
Local Abbreviation run_calls := (memo_run (R := R) key_of maxSize).
Local Abbreviation evicted := (memo_evicted (R := R) maxSize).

Lemma memo_run_cons (args : A) (run : Outcome R) (rest : list (A * Outcome R))
  (st : MemoState) :
  run_calls ((args, run) :: rest) st =
  (((call args run st).1.1, (call args run st).1.2) ::
     (run_calls rest (call args run st).2).1,
   (run_calls rest (call args run st).2).2).
Proof.
  cbn [memo_run]. destruct (call args run st) as [[result called] st'].
  cbn [fst snd]. now destruct (run_calls rest st') as [results st''].
Qed.

Lemma memo_run_app (l1 l2 : list (A * Outcome R)) (st : MemoState) :
  run_calls (l1 ++ l2) st =
  ((run_calls l1 st).1 ++ (run_calls l2 (run_calls l1 st).2).1,
   (run_calls l2 (run_calls l1 st).2).2).
Proof.
  revert st. induction l1 as [|[args run] l1 IH]; intros st.
  - cbn [app memo_run fst snd]. now destruct (run_calls l2 st).
  - cbn [app]. rewrite !memo_run_cons, IH. reflexivity.
Qed.

Lemma memo_call_cases (args : A) (run : Outcome R) (st : MemoState) :
  (exists promise,
     jsmap_get st.1 (key_of args) = Some promise /\
     call args run st = (promise, false, (st.1, recordHit st.2))) \/
  (jsmap_get st.1 (key_of args) = None /\
   call args run st =
   (run, true,
    (match run with
     | Fulfils r => evicted st.1 ++ [(key_of args, Fulfils r)]
     | _ => evicted st.1
     end,
     match run with
     | Rejects _ => recordError (recordMiss st.2)
     | _ => recordMiss st.2
     end))).
Proof.
  destruct st as [cache m]. cbn [fst snd].
  destruct (jsmap_get cache (key_of args)) as [promise|] eqn:E.
  - left. exists promise. split; [reflexivity | now apply memo_call_hit].
  - right. split; [reflexivity | now apply memo_call_miss].
Qed.

(** X17.  The counters follow the calls: over any sequence of awaited
    calls, from any state, [hits] grows by the number of calls answered
    from the map, [misses] by the number of calls that called the
    wrapped function, [errors] by the number of those whose promise
    rejected (a call that throws is a miss and no error), and the
    [total] of [getStats] by the number of calls. *)
Theorem memoize_counters (calls : list (A * Outcome R)) (st : MemoState) :
  length (run_calls calls st).1 = length calls /\
  hits (run_calls calls st).2.2 =
    (hits st.2 + Z.of_nat (length (List.filter (fun x => negb x.2) (run_calls calls st).1)))%Z /\
  misses (run_calls calls st).2.2 =
    (misses st.2 + Z.of_nat (length (List.filter (fun x => x.2) (run_calls calls st).1)))%Z /\
  errors (run_calls calls st).2.2 =
    (errors st.2 +
     Z.of_nat (length (List.filter (fun x => x.2 && match x.1 with Rejects _ => true | _ => false end)
                         (run_calls calls st).1)))%Z /\
  stats_total (run_calls calls st).2.2 = (stats_total st.2 + Z.of_nat (length calls))%Z.
Proof.
  revert st. induction calls as [|[args run] calls IH]; intros st.
  - cbn. unfold stats_total. repeat split; lia.
  - rewrite memo_run_cons.
    destruct (memo_call_cases args run st) as [(promise & _ & E)|[_ E]]; rewrite E;
      clear E; cbn [fst snd length].
    + destruct (IH (st.1, recordHit st.2)) as (Hlen & Hh & Hm & He & Ht).
      rewrite Hlen, Hh, Hm, He, Ht. unfold stats_total.
      cbn [fst snd List.filter negb andb length recordHit hits misses errors].
      repeat split; lia.
    + match goal with
      | |- context [run_calls calls ?s] =>
          destruct (IH s) as (Hlen & Hh & Hm & He & Ht)
      end.
      rewrite Hlen, Hh, Hm, He, Ht. unfold stats_total.
      destruct run as [r|e|e];
        cbn [fst snd List.filter negb andb length recordMiss recordError hits misses errors];
        repeat split; lia.
Qed.

Lemma evicted_In (cache : list (string * Outcome R)) (kp : string * Outcome R) :
  In kp (evicted cache) -> In kp cache.
Proof.
  unfold memo_evicted. destruct (_ <=? _)%Z; [|tauto].
  destruct cache; [tauto | now right].
Qed.

Lemma evicted_get_None (cache : list (string * Outcome R)) (k : string) :
  jsmap_get cache k = None -> jsmap_get (evicted cache) k = None.
Proof.
  rewrite !jsmap_get_None. intros H Hin. apply H.
  apply in_map_iff in Hin as (kp & <- & Hin). apply in_map, evicted_In, Hin.
Qed.

Lemma evicted_ok (cache : list (string * Outcome R)) :
  memo_ok maxSize cache ->
  NoDup (map fst (evicted cache)) /\
  Forall (fun kp => exists r, kp.2 = Fulfils r) (evicted cache) /\
  (Z.of_nat (length (evicted cache)) + 1 <= Z.max maxSize 1)%Z.
Proof.
  intros (Hnd & Hall & Hlen). unfold memo_evicted.
  destruct (maxSize <=? Z.of_nat (length cache))%Z eqn:E.
  - apply Z.leb_le in E. destruct cache as [|kp cache]; cbn [tl].
    + split; [constructor|]. split; [constructor|]. cbn. lia.
    + cbn [map] in Hnd. apply NoDup_cons in Hnd as [_ Hnd].
      apply Forall_inv_tail in Hall. cbn [length] in *.
      split; [exact Hnd|]. split; [exact Hall|]. lia.
  - apply Z.leb_gt in E. split; [exact Hnd|]. split; [exact Hall|]. lia.
Qed.

Lemma memo_call_ok (args : A) (run : Outcome R) (st : MemoState) :
  memo_ok maxSize st.1 -> memo_ok maxSize (call args run st).2.1.
Proof.
  intros Hok.
  destruct (memo_call_cases args run st) as [(promise & _ & ->)|[Hnone ->]];
    [exact Hok|]. cbn [fst snd].
  destruct (evicted_ok _ Hok) as (Hnd & Hall & Hlen).
  apply evicted_get_None, jsmap_get_None in Hnone.
  destruct run as [r|e|e]; unfold memo_ok.
  - rewrite map_app, length_app. cbn [map fst length].
    split; [|split].
    + apply NoDup_app. split; [exact Hnd|]. split; [|apply NoDup_singleton].
      intros k Hk ->%list_elem_of_singleton. apply Hnone.
      now apply list_elem_of_In.
    + apply Forall_app. split; [exact Hall|]. constructor; [now exists r | constructor].
    + lia.
  - split; [exact Hnd|]. split; [exact Hall|]. lia.
  - split; [exact Hnd|]. split; [exact Hall|]. lia.
Qed.

Lemma memo_run_ok (calls : list (A * Outcome R)) (st : MemoState) :
  memo_ok maxSize st.1 -> memo_ok maxSize (run_calls calls st).2.1.
Proof.
  revert st. induction calls as [|[args run] calls IH]; intros st Hok; [exact Hok|].
  rewrite memo_run_cons. cbn [snd]. apply IH. now apply memo_call_ok.
Qed.

(** Every promise in the map was put there by a call of the sequence
    that called the wrapped function and saw it fulfil. *)
Lemma memo_run_origin (calls : list (A * Outcome R)) (m : Metrics) (k : string)
  (p : Outcome R) :
  In (k, p) (run_calls calls ([], m)).2.1 ->
  exists pre post args r,
    calls = pre ++ (args, Fulfils r) :: post /\
    key_of args = k /\ p = Fulfils r /\
    (call args (Fulfils r) (run_calls pre ([], m)).2).1.2 = true.
Proof.
  revert k p. induction calls as [|[a run] calls IH] using rev_ind; intros k p.
  - cbn. tauto.
  - rewrite memo_run_app. cbn [snd]. rewrite memo_run_cons. cbn [memo_run snd].
    assert (Hold : In (k, p) (run_calls calls ([], m)).2.1 ->
                   exists pre post args r,
                     calls ++ [(a, run)] = pre ++ (args, Fulfils r) :: post /\
                     key_of args = k /\ p = Fulfils r /\
                     (call args (Fulfils r) (run_calls pre ([], m)).2).1.2 = true).
    { intros H. destruct (IH _ _ H) as (pre & post & args & r & -> & Hk & Hp & Hc).
      exists pre, (post ++ [(a, run)]), args, r.
      split; [now rewrite <- List.app_assoc|]. tauto. }
    destruct (memo_call_cases a run (run_calls calls ([], m)).2)
      as [(promise & _ & E)|[Hnone E]]; rewrite E; cbn [fst snd]; [exact Hold|].
    destruct run as [r|e|e]; try (intros H; apply Hold, evicted_In, H).
    intros [H|[[= <- <-]|[]]]%in_app_or; [apply Hold, evicted_In, H|].
    exists calls, [], a, r. split; [reflexivity|]. split; [reflexivity|].
    split; [reflexivity|].
    destruct (run_calls calls ([], m)).2 as [cache m']. cbn [fst] in Hnone.
    now rewrite (memo_call_miss key_of maxSize a (Fulfils r) cache m' Hnone).
Qed.

(** X18.  The map of a memoized function that starts empty keeps its
    shape over every sequence of awaited calls: its keys are distinct,
    it holds fulfilled promises only, and it never holds more than
    [maxSize] entries, one entry when [maxSize] is below one. *)
Theorem memoize_map_invariant (calls : list (A * Outcome R)) (m : Metrics) :
  NoDup (map fst (run_calls calls ([], m)).2.1) /\
  Forall (fun kp => exists r, kp.2 = Fulfils r) (run_calls calls ([], m)).2.1 /\
  (Z.of_nat (length (run_calls calls ([], m)).2.1) <= Z.max maxSize 1)%Z.
Proof.
  apply (memo_run_ok calls ([], m)). unfold memo_ok. cbn.
  split; [constructor|]. split; [constructor|]. lia.
Qed.

(** X19.  A call answered from the map returns what an earlier call
    computed: when a call after a sequence of awaited calls does not
    call the wrapped function, an earlier call of the sequence with the
    same key called it, saw its promise fulfil, and the value returned
    now is that earlier value, whatever the wrapped function would
    return now. *)
Theorem memoize_hit_origin (calls : list (A * Outcome R)) (m : Metrics) (args : A)
  (run : Outcome R) :
  (call args run (run_calls calls ([], m)).2).1.2 = false ->
  exists pre post args' r,
    calls = pre ++ (args', Fulfils r) :: post /\
    key_of args' = key_of args /\
    (call args' (Fulfils r) (run_calls pre ([], m)).2).1.2 = true /\
    (call args run (run_calls calls ([], m)).2).1.1 = Fulfils r.
Proof.
  destruct (memo_call_cases args run (run_calls calls ([], m)).2)
    as [(promise & Hget & ->)|[_ ->]]; cbn [fst snd]; [intros _|discriminate].
  apply jsmap_get_In in Hget.
  destruct (memo_run_origin _ _ _ _ Hget) as (pre & post & args' & r & Hc & Hk & Hp & Hcall).
  exists pre, post, args', r. tauto.
Qed.

(** X20.  Eviction follows insertion, not use: when the map is full, a
    call answered from its oldest entry leaves the map as it is, and the
    next call with a new key drops that very entry, so that the call
    after it with the first key calls the wrapped function again. *)
Theorem memoize_evicts_oldest (args0 : A) (p0 : Outcome R)
  (rest : list (string * Outcome R)) (m : Metrics) (run0 run0' : Outcome R)
  (args : A) (r : R) :
  NoDup (key_of args0 :: map fst rest) ->
  (maxSize <= Z.of_nat (S (length rest)))%Z ->
  jsmap_get ((key_of args0, p0) :: rest) (key_of args) = None ->
  call args0 run0 ((key_of args0, p0) :: rest, m) =
    (p0, false, ((key_of args0, p0) :: rest, recordHit m)) /\
  call args (Fulfils r) ((key_of args0, p0) :: rest, recordHit m) =
    (Fulfils r, true, (rest ++ [(key_of args, Fulfils r)], recordMiss (recordHit m))) /\
  (call args0 run0' (rest ++ [(key_of args, Fulfils r)], recordMiss (recordHit m))).1 =
    (run0', true).
Proof.
  intros Hnd Hfull Hnew.
  split; [apply memo_call_hit; cbn [jsmap_get]; now rewrite String.eqb_refl|].
  assert (Hev : evicted ((key_of args0, p0) :: rest) = rest).
  { unfold memo_evicted. cbn [length tl].
    destruct (_ <=? _)%Z eqn:E; [reflexivity | apply Z.leb_gt in E; lia]. }
  split; [rewrite (memo_call_miss key_of maxSize _ _ _ _ Hnew); now rewrite Hev|].
  rewrite memo_call_miss; [reflexivity|].
  apply jsmap_get_None. rewrite map_app, in_app_iff. cbn [map fst In].
  apply NoDup_cons in Hnd as [Hnot _].
  intros [H|[H|[]]].
  - apply Hnot. now apply list_elem_of_In.
  - cbn [jsmap_get] in Hnew. rewrite H, String.eqb_refl in Hnew. discriminate.
Qed.

(** X21.  A failed call is not remembered but costs an entry: when the
    wrapped function is called and its promise rejects or the call
    throws, the caller sees that failure, the map holds no entry for the
    key afterwards, so the next call with the key calls the function
    again; yet a full map has lost its oldest entry. *)
Theorem memoize_failure_not_cached (args : A) (run : Outcome R) (st : MemoState) :
  jsmap_get st.1 (key_of args) = None ->
  (forall r, run <> Fulfils r) ->
  (call args run st).1 = (run, true) /\
  (call args run st).2.1 = evicted st.1 /\
  jsmap_get (call args run st).2.1 (key_of args) = None /\
  (forall run', (call args run' (call args run st).2).1 = (run', true)) /\
  ((maxSize <= Z.of_nat (length st.1))%Z -> (call args run st).2.1 = tl st.1).
Proof.
  intros Hnone Hfail. destruct st as [cache m]. cbn [fst] in *.
  rewrite (memo_call_miss key_of maxSize args run cache m Hnone). cbn [fst snd].
  assert (E : match run with
              | Fulfils r => evicted cache ++ [(key_of args, Fulfils r)]
              | _ => evicted cache
              end = evicted cache).
  { destruct run as [r|e|e]; [now destruct (Hfail r) | reflexivity | reflexivity]. }
  rewrite E. pose proof (evicted_get_None _ _ Hnone) as Hev.
  split; [reflexivity|]. split; [reflexivity|]. split; [exact Hev|].
  split.
  - intros run'. now rewrite memo_call_miss.
  - intros Hfull. unfold memo_evicted. apply Z.leb_le in Hfull. now rewrite Hfull.
Qed.

End MemoizeLaws.

Lemma memoize_hit_origin_witness :
  exists pre post args' r,
    [("a", Fulfils 1); ("b", Rejects "down"); ("a", Fulfils 2)] =
      pre ++ (args', Fulfils r) :: post /\
    id args' = id "a" /\
    (memo_call id 2 args' (Fulfils r) (memo_run id 2 pre ([], metrics_reset)).2).1.2 = true /\
    (memo_call id 2 "a" (Fulfils 3)
       (memo_run id 2 [("a", Fulfils 1); ("b", Rejects "down"); ("a", Fulfils 2)]
          ([], metrics_reset)).2).1.1 = Fulfils r.
Proof.
  apply (memoize_hit_origin id 2
           [("a", Fulfils 1); ("b", Rejects "down"); ("a", Fulfils 2)] metrics_reset
           "a" (Fulfils 3)).
  vm_compute. reflexivity.
Defined.

Lemma memoize_evicts_oldest_witness :
  memo_call id 2 "a" (Fulfils 0) ([("a", Fulfils 1); ("b", Fulfils 2)], metrics_reset) =
    (Fulfils 1, false, ([("a", Fulfils 1); ("b", Fulfils 2)], recordHit metrics_reset)) /\
  memo_call id 2 "c" (Fulfils 3)
    ([("a", Fulfils 1); ("b", Fulfils 2)], recordHit metrics_reset) =
    (Fulfils 3, true,
     ([("b", Fulfils 2)] ++ [("c", Fulfils 3)], recordMiss (recordHit metrics_reset))) /\
  (memo_call id 2 "a" (Fulfils 4)
     ([("b", Fulfils 2)] ++ [("c", Fulfils 3)], recordMiss (recordHit metrics_reset))).1 =
    (Fulfils 4, true).
Proof.
  apply (memoize_evicts_oldest id 2 "a" (Fulfils 1) [("b", Fulfils 2)] metrics_reset
           (Fulfils 0) (Fulfils 4) "c" 3).
  - apply (bool_decide_unpack _). vm_compute. exact I.
  - cbn. lia.
  - reflexivity.
Defined.

Lemma memoize_failure_not_cached_witness :
  (memo_call id 2 "c" (Rejects "down") ([("a", Fulfils 1); ("b", Fulfils 2)], metrics_reset)).1 =
    (Rejects "down", true) /\
  (memo_call id 2 "c" (Rejects "down") ([("a", Fulfils 1); ("b", Fulfils 2)], metrics_reset)).2.1 =
    memo_evicted 2 [("a", Fulfils 1); ("b", Fulfils 2)] /\
  jsmap_get
    (memo_call id 2 "c" (Rejects "down") ([("a", Fulfils 1); ("b", Fulfils 2)], metrics_reset)).2.1
    (id "c") = None /\
  (forall run',
     (memo_call id 2 "c" run'
        (memo_call id 2 "c" (Rejects "down")
           ([("a", Fulfils 1); ("b", Fulfils 2)], metrics_reset)).2).1 = (run', true)) /\
  ((2 <= Z.of_nat (length ([("a", Fulfils 1); ("b", Fulfils 2)], metrics_reset).1))%Z ->
   (memo_call id 2 "c" (Rejects "down") ([("a", Fulfils 1); ("b", Fulfils 2)], metrics_reset)).2.1 =
     tl ([("a", Fulfils 1); ("b", Fulfils 2)], metrics_reset).1).
Proof.
  apply (memoize_failure_not_cached id 2 "c" (Rejects "down")
           ([("a", Fulfils 1); ("b", Fulfils 2)], metrics_reset)).
  - reflexivity.
  - discriminate.
Defined.

(** ** clearAllCaches and the cached reads *)

Section ReadLaws.

Context {R : Type}.
Variable regexp : string -> option (string -> bool).

Lemma data_get_In (entries : @DataCache R) (key : list string) (r : R) :
  data_get entries key = Some r -> exists tags, In (key, (r, tags)) entries.
Proof.
  induction entries as [|[k [r' tags]] entries IH]; cbn [data_get]; [discriminate|].
  destruct (bool_decide (k = key)) eqn:E.
  - apply bool_decide_eq_true in E as ->. intros [= ->]. exists tags. now left.
  - intros H. destruct (IH H) as [tags' Hin]. exists tags'. now right.
Qed.

Lemma revalidateTag_In (tag : string) (entries : @DataCache R)
  (e : list string * (R * list string)) :
  In e (revalidateTag tag entries) <-> In e entries /\ mem tag e.2.2 = false.
Proof.
  unfold revalidateTag. rewrite filter_In, negb_true_iff. reflexivity.
Qed.

Lemma revalidateCache_In (tags : list string) (entries : @DataCache R)
  (e : list string * (R * list string)) :
  In e (revalidateCache tags entries) <->
  In e entries /\ forall tag, In tag tags -> mem tag e.2.2 = false.
Proof.
  unfold revalidateCache. revert entries.
  induction tags as [|tag tags IH]; intros entries; cbn [fold_left].
  - split; [intros H; split; [exact H | intros ? []] | tauto].
  - rewrite IH, revalidateTag_In. split.
    + intros [[Hin Htag] Hrest]. split; [exact Hin|].
      intros tag' [<-|H]; auto.
    + intros [Hin Hall]. split; [split; [exact Hin|]|]; intros; apply Hall;
        [now left | now right].
Qed.

(** A function one of whose tags is revalidated keeps no entry. *)
Lemma revalidateCache_drops (tags : list string) (f : CachedFunction)
  (args_json : list string) (entries : @DataCache R) :
  invalidates tags f = true ->
  (forall r tags', In (keyParts f args_json, (r, tags')) entries -> tags' = allTags f) ->
  data_get (revalidateCache tags entries) (keyParts f args_json) = None.
Proof.
  intros Hinv Hok.
  destruct (data_get _ _) as [r|] eqn:E; [|reflexivity]. exfalso.
  apply data_get_In in E as [tags' Hin].
  apply revalidateCache_In in Hin as [Hin Hall].
  apply Hok in Hin as ->. cbn [snd] in Hall.
  apply invalidates_In in Hinv as (t & Ht & Htags).
  specialize (Hall t Htags). apply In_mem in Ht. congruence.
Qed.

(** X16.  [clearAllCaches] on a [MemoryCache] empties the store and
    revalidates the twelve tags of [CACHE_TAGS], which drops the data
    cache entry of every call of a cached function that carries one of
    them; all functions made by [createCachedFunction] in the query and
    content modules do.  A function that wraps the query itself runs it
    on the next call.  The three functions that wrap a [memoize]
    wrapper, [getCachedPosts], [getCachedPostSearch] and
    [getCachedRelatedPosts], do not: [clearAllCaches] leaves the maps of
    these wrappers as they are, and while such a map holds the key the
    next call returns the value held there and does not run the
    query. *)
Theorem clearAllCaches_then_read (cache : gmap string Entry) (f : CachedFunction)
  (args_json : list string) (memo_key : string) (run : Outcome R)
  (entries : @DataCache R) (memo : @MemoState R) :
  invalidates cache_tag_values f = true ->
  (forall r tags, In (keyParts f args_json, (r, tags)) entries -> tags = allTags f) ->
  (clearAllCaches (cache_clear regexp None) cache).1 = ∅ /\
  data_get
    (revalidateCache (clearAllCaches (cache_clear regexp None) cache).2 entries)
    (keyParts f args_json) = None /\
  (fn f = Query ->
   (cached_call f args_json memo_key run
      (revalidateCache (clearAllCaches (cache_clear regexp None) cache).2 entries,
       memo)).1 =
   (match run with Throws e => Rejects e | _ => run end, true)) /\
  (fn f = MemoizedQuery ->
   forall r,
     jsmap_get memo.1 memo_key = Some (Fulfils r) ->
     (cached_call f args_json memo_key run
        (revalidateCache (clearAllCaches (cache_clear regexp None) cache).2 entries,
         memo)).1 = (Fulfils r, false)) /\
  Forall (fun g => invalidates cache_tag_values g = true) (post_reads ++ metadata_reads) /\
  List.filter (fun g => match fn g with MemoizedQuery => true | Query => false end)
    (post_reads ++ metadata_reads) =
  [getCachedPosts; getCachedPostSearch; getCachedRelatedPosts].
Proof.
  intros Hinv Hok. unfold clearAllCaches, cache_clear. cbn [truthy fst snd].
  pose proof (revalidateCache_drops cache_tag_values f args_json entries Hinv Hok) as Hnone.
  split; [reflexivity|]. split; [exact Hnone|].
  split; [|split; [|split]].
  - intros Hfn. unfold cached_call. rewrite Hnone, Hfn. now destruct run.
  - intros Hfn r Hget. unfold cached_call. rewrite Hnone, Hfn.
    destruct memo as [map m]. cbn [fst] in Hget.
    now rewrite (memo_call_hit id 1000 memo_key run map m (Fulfils r) Hget).
  - apply List.Forall_forall. apply forallb_forall. vm_compute. reflexivity.
  - vm_compute. reflexivity.
Qed.

End ReadLaws.

(** A page of posts is read, a post is changed and [clearAllCaches] is
    called: the next read of the page returns the rows of the first
    read, and the query is not run. *)
Lemma clearAllCaches_then_read_witness :
  (cached_call getCachedPosts ["{}"] "posts-paginated-{}" (Fulfils "new rows")
     (revalidateCache (clearAllCaches (cache_clear (fun _ => None) None) ∅).2
        (cached_call getCachedPosts ["{}"] "posts-paginated-{}" (Fulfils "old rows")
           ([], ([], metrics_reset))).2.1,
      (cached_call getCachedPosts ["{}"] "posts-paginated-{}" (Fulfils "old rows")
         ([], ([], metrics_reset))).2.2)).1 =
  (Fulfils "old rows", false).
Proof.
  refine (proj1 (proj2 (proj2 (proj2
            (clearAllCaches_then_read (fun _ => None) ∅ getCachedPosts ["{}"]
               "posts-paginated-{}" (Fulfils "new rows")
               (cached_call getCachedPosts ["{}"] "posts-paginated-{}" (Fulfils "old rows")
                  ([], ([], metrics_reset))).2.1
               (cached_call getCachedPosts ["{}"] "posts-paginated-{}" (Fulfils "old rows")
                  ([], ([], metrics_reset))).2.2
               _ _)))) eq_refl "old rows" _).
  - vm_compute. reflexivity.
  - intros r tags [[= <- <-]|[]]. reflexivity.
  - vm_compute. reflexivity.
Defined.

(** ** Query normalisation *)

Section NormalKeys.

Variable localeCompare : string -> string -> Z.

(** X22.  The normalised query is written in lower-case letters,
    digits, underscore and dash only, and normalising is idempotent; so
    the search key of a query is also the search key of its normalised
    text, under every filter object and collation. *)
Theorem normalizeQuery_idempotent (query : string) (filters : list (string * Prim)) :
  Forall (fun c => is_key_char c = true) (chars (normalizeQuery query)) /\
  normalizeQuery (normalizeQuery query) = normalizeQuery query /\
  generateSearchKey localeCompare (normalizeQuery query) filters =
  generateSearchKey localeCompare query filters.
Proof.
  pose proof (normalizeQuery_key_chars query) as Hk.
  assert (Hid : normalizeQuery (normalizeQuery query) = normalizeQuery query).
  { unfold normalizeQuery at 1. rewrite (normalize_key_chars _ Hk). apply str_chars. }
  split; [exact Hk|]. split; [exact Hid|].
  unfold generateSearchKey. cbv zeta. now rewrite Hid.
Qed.

End NormalKeys.

Lemma all_space_rev (l : list ascii) :
  forallb is_space (rev l) = forallb is_space l.
Proof.
  apply eq_true_iff_eq. rewrite !forallb_forall.
  split; intros H c Hc; apply H; [now apply in_rev in Hc | now apply in_rev].
Qed.

Lemma drop_spaces_all (ws l : list ascii) :
  forallb is_space ws = true -> drop_spaces (ws ++ l) = drop_spaces l.
Proof.
  induction ws as [|c ws IH]; cbn [forallb app drop_spaces]; [reflexivity|].
  intros [Hc Hws]%andb_true_iff. rewrite Hc. auto.
Qed.

Lemma drop_spaces_some (a l : list ascii) :
  forallb is_space a = false -> drop_spaces (a ++ l) = drop_spaces a ++ l.
Proof.
  induction a as [|c a IH]; cbn [forallb app drop_spaces]; [discriminate|].
  destruct (is_space c); cbn [andb]; [exact IH | reflexivity].
Qed.

Lemma drop_spaces_some_kept (a : list ascii) :
  forallb is_space a = false -> forallb is_space (drop_spaces a) = false.
Proof.
  induction a as [|c a IH]; cbn [forallb drop_spaces]; [discriminate|].
  destruct (is_space c) eqn:E; cbn [andb]; [exact IH|]. intros _. cbn [forallb].
  now rewrite E.
Qed.

Lemma trim_app_l (ws l : list ascii) :
  forallb is_space ws = true -> trim (ws ++ l) = trim l.
Proof. intros H. unfold trim. now rewrite drop_spaces_all. Qed.

Lemma trim_app_r (l ws : list ascii) :
  forallb is_space ws = true -> trim (l ++ ws) = trim l.
Proof.
  intros H. unfold trim. destruct (forallb is_space l) eqn:E.
  - rewrite drop_spaces_all by exact E.
    rewrite <- (app_nil_r ws), <- (app_nil_r l), !drop_spaces_all by assumption.
    reflexivity.
  - rewrite drop_spaces_some by exact E. rewrite rev_app_distr.
    rewrite drop_spaces_all by now rewrite all_space_rev. reflexivity.
Qed.

(** Trimming a text with a run of white space inside it, neither side
    being white space only. *)
Lemma trim_app_mid (a ws b : list ascii) :
  forallb is_space a = false -> forallb is_space b = false ->
  trim (a ++ ws ++ b) = drop_spaces a ++ ws ++ rev (drop_spaces (rev b)).
Proof.
  intros Ha Hb. unfold trim. rewrite drop_spaces_some by exact Ha.
  rewrite !rev_app_distr, <- List.app_assoc.
  rewrite drop_spaces_some by now rewrite all_space_rev.
  rewrite !rev_app_distr, !rev_involutive, <- List.app_assoc. reflexivity.
Qed.

Lemma last_cons (a : bool) (l : list bool) (d : bool) :
  List.last (a :: l) d = List.last l a.
Proof.
  revert a d. induction l as [|x l IH]; intros a d; [reflexivity|].
  change (List.last (a :: x :: l) d) with (List.last (x :: l) d).
  now rewrite !IH.
Qed.

Lemma spaces_to_dash_app (b : bool) (x y : list ascii) :
  spaces_to_dash b (x ++ y) =
  spaces_to_dash b x ++ spaces_to_dash (List.last (map is_space x) b) y.
Proof.
  revert b. induction x as [|c x IH]; intros b; [reflexivity|].
  cbn [app spaces_to_dash map]. rewrite last_cons.
  destruct (is_space c) eqn:E; [destruct b|]; rewrite IH; reflexivity.
Qed.

Lemma spaces_to_dash_run (b : bool) (ws : list ascii) :
  ws <> [] -> forallb is_space ws = true ->
  spaces_to_dash b ws = (if b then [] else ["-"%char]) /\
  List.last (map is_space ws) b = true.
Proof.
  revert b. induction ws as [|c ws IH]; intros b Hne Hall; [contradiction|].
  cbn [forallb] in Hall. apply andb_true_iff in Hall as [Hc Hws].
  cbn [spaces_to_dash map]. rewrite last_cons, Hc.
  destruct ws as [|c' ws]; [destruct b; split; reflexivity|].
  destruct (IH true ltac:(discriminate) Hws) as [Hrun Hlast].
  rewrite Hlast, Hrun. destruct b; split; reflexivity.
Qed.

(** The part of the normalisation after [toLowerCase]. *)
Lemma normal_form_run (a ws b : list ascii) :
  ws <> [] -> forallb is_space ws = true ->
  spaces_to_dash false (trim (a ++ ws ++ b)) =
  spaces_to_dash false (trim (a ++ " "%char :: b)).
Proof.
  intros Hne Hws.
  destruct (forallb is_space a) eqn:Ha.
  - rewrite !trim_app_l by assumption.
    change (" "%char :: b) with ([" "%char] ++ b). rewrite !trim_app_l by reflexivity.
    reflexivity.
  - destruct (forallb is_space b) eqn:Hb.
    + rewrite (List.app_assoc a ws b), (trim_app_r (a ++ ws) b) by exact Hb.
      change (a ++ " "%char :: b) with (a ++ [" "%char] ++ b).
      rewrite (List.app_assoc a [" "%char] b), (trim_app_r (a ++ [" "%char]) b)
        by exact Hb.
      rewrite (trim_app_r a ws) by exact Hws. now rewrite (trim_app_r a [" "%char]).
    + change (a ++ " "%char :: b) with (a ++ [" "%char] ++ b).
      rewrite !trim_app_mid by assumption.
      rewrite !spaces_to_dash_app.
      destruct (spaces_to_dash_run (List.last (map is_space (drop_spaces a)) false) ws Hne Hws)
        as [-> ->].
      destruct (spaces_to_dash_run (List.last (map is_space (drop_spaces a)) false) [" "%char]
                  ltac:(discriminate) eq_refl) as [-> ->].
      reflexivity.
Qed.

Lemma map_to_lower_spaces (ws : list ascii) :
  forallb is_space (map to_lower ws) = forallb is_space ws.
Proof.
  induction ws as [|c ws IH]; [reflexivity|]. cbn [map forallb].
  now rewrite to_lower_space, IH.
Qed.

(** X23.  White space counts only as a separator of words: white space
    before and after the query is ignored, and a run of white space
    inside it normalises as one space does. *)
Theorem normalizeQuery_white_space (pre query post run : string) :
  forallb is_space (chars pre) = true -> forallb is_space (chars post) = true ->
  forallb is_space (chars run) = true -> run <> "" ->
  normalizeQuery (pre +:+ query +:+ post) = normalizeQuery query /\
  normalizeQuery (pre +:+ run +:+ post) = "" /\
  forall tail, normalizeQuery (query +:+ run +:+ tail) = normalizeQuery (query +:+ " " +:+ tail).
Proof.
  intros Hpre Hpost Hrun Hne. unfold normalizeQuery.
  rewrite !chars_app, !map_app.
  rewrite <- map_to_lower_spaces in Hpre, Hpost, Hrun.
  split; [|split].
  - rewrite trim_app_l by exact Hpre. now rewrite trim_app_r.
  - rewrite trim_app_l by exact Hpre. rewrite trim_app_r by exact Hpost.
    rewrite <- (app_nil_r (map to_lower (chars run))), trim_app_l by exact Hrun.
    reflexivity.
  - intros tail. rewrite !chars_app, !map_app. f_equal. f_equal.
    apply normal_form_run; [|exact Hrun].
    intros H. apply Hne. apply chars_inj. destruct (chars run); [reflexivity|discriminate].
Qed.

Lemma normalizeQuery_white_space_witness :
  normalizeQuery ("  " +:+ "Rocq  Proofs" +:+ " ") = normalizeQuery "Rocq  Proofs" /\
  normalizeQuery ("  " +:+ "   " +:+ " ") = "" /\
  forall tail,
    normalizeQuery ("Rocq  Proofs" +:+ "   " +:+ tail) =
    normalizeQuery ("Rocq  Proofs" +:+ " " +:+ tail).
Proof.
  apply (normalizeQuery_white_space "  " "Rocq  Proofs" " " "   ");
    try reflexivity; discriminate.
Defined.

(** ** Post actions: the slug loop *)

Lemma unique_slug_loop_spec (taken : string -> bool) (baseSlug : string) (k : nat) :
  forall (fuel : nat) (slug : string) (counter : Z),
    counter = (1000 - Z.of_nat k)%Z -> (1 <= counter)%Z -> k < fuel ->
    unique_slug_loop fuel taken baseSlug slug counter =
    Some (match find (fun s => negb (taken s))
                  (slug ::
                   map (fun n => baseSlug +:+ "-" +:+ number_to_string (Z.of_nat n))
                     (seq (Z.to_nat counter) k)) with
          | Some s => inl s
          | None => inr "Unable to generate unique slug"
          end).
Proof.
  induction k as [|k IH]; intros fuel slug counter Hc Hpos Hfuel;
    (destruct fuel as [|fuel]; [lia|]); cbn [unique_slug_loop seq map find].
  - destruct (negb (taken slug)); [reflexivity|].
    cbv zeta. destruct (counter + 1 >? 1000)%Z eqn:E; [reflexivity|].
    rewrite Z.gtb_ltb in E. apply Z.ltb_ge in E. lia.
  - destruct (negb (taken slug)); [reflexivity|].
    cbv zeta. destruct (counter + 1 >? 1000)%Z eqn:E.
    + rewrite Z.gtb_ltb in E. apply Z.ltb_lt in E. lia.
    + rewrite (IH fuel _ (counter + 1)%Z) by lia.
      rewrite Z2Nat.id by lia.
      replace (Z.to_nat (counter + 1)) with (S (Z.to_nat counter)) by lia.
      reflexivity.
Qed.

Lemma slug_taken_true (posts : Posts) (exclude : option string) (id : string) (p : Post) :
  posts !! id = Some p -> exclude <> Some id -> slug_taken posts exclude (slug p) = true.
Proof.
  intros Hp Hex. unfold slug_taken. apply existsb_exists. exists (id, p).
  split; [apply list_elem_of_In; now apply elem_of_map_to_list|].
  cbn [fst snd]. rewrite String.eqb_refl. cbn [andb].
  apply negb_true_iff, bool_decide_eq_false. exact Hex.
Qed.

Lemma numeral_is_key_char (c : ascii) : is_numeral_char c = true -> is_key_char c = true.
Proof. by_cases_on c. Qed.

(** A slug generated from a title is written in lower-case letters,
    digits, underscore and dash, and so is each candidate built on it. *)
Lemma slug_candidates_key_chars (title s : string) :
  In s (slug_candidates (baseSlug_of None title)) ->
  Forall (fun c => is_key_char c = true) (chars s).
Proof.
  assert (Hbase : Forall (fun c => is_key_char c = true)
                    (chars (baseSlug_of None title))).
  { unfold baseSlug_of, slug_of_title. cbn [truthy]. rewrite chars_str.
    apply keep_word_or_dash_key_chars, spaces_to_dash_Forall; [reflexivity|].
    apply List.Forall_forall. intros c (c' & <- & _)%in_map_iff.
    apply to_lower_not_upper. }
  unfold slug_candidates. intros [<-|Hin]; [exact Hbase|].
  apply in_map_iff in Hin as (n & <- & _). rewrite !chars_app.
  apply Forall_app. split; [exact Hbase|].
  apply Forall_app. split; [repeat constructor|].
  eapply List.Forall_impl; [|apply number_to_string_chars].
  intros c. apply numeral_is_key_char.
Qed.

(** X24.  The slug loop of [createPostAction] and [updatePostAction]
    returns: it tries the base slug and then the base slug with the
    suffixes [-1] to [-999], in this order, a thousand candidates, and
    yields the first one no post holds; it throws exactly when all of
    them are held.  More iterations than a thousand are never used.  A
    slug found is the slug of no post of the table, the edited post
    apart; and a slug found for a title, no slug being given, is written
    in lower-case letters, digits, underscore and dash. *)
Theorem ensureUniqueSlug_first_free (taken : string -> bool) (baseSlug : string) :
  ensureUniqueSlug taken baseSlug =
    Some (match find (fun s => negb (taken s)) (slug_candidates baseSlug) with
          | Some s => inl s
          | None => inr "Unable to generate unique slug"
          end) /\
  length (slug_candidates baseSlug) = 1000 /\
  (forall s, ensureUniqueSlug taken baseSlug = Some (inl s) ->
             taken s = false /\ In s (slug_candidates baseSlug)) /\
  (ensureUniqueSlug taken baseSlug = Some (inr "Unable to generate unique slug") <->
   Forall (fun s => taken s = true) (slug_candidates baseSlug)) /\
  (forall fuel, 1000 <= fuel ->
     unique_slug_loop fuel taken baseSlug baseSlug 1 = ensureUniqueSlug taken baseSlug) /\
  (forall (posts : Posts) (exclude : option string) (s id : string) (p : Post),
     ensureUniqueSlug (slug_taken posts exclude) baseSlug = Some (inl s) ->
     posts !! id = Some p -> slug p = s -> exclude = Some id) /\
  (forall title s,
     ensureUniqueSlug taken (baseSlug_of None title) = Some (inl s) ->
     Forall (fun c => is_key_char c = true) (chars s)).
Proof.
  assert (Hcand : forall taken' base s,
            unique_slug_loop 1000 taken' base base 1 = Some (inl s) ->
            In s (slug_candidates base)).
  { intros taken' base s. rewrite (unique_slug_loop_spec taken' base 999) by lia.
    destruct (find _ _) as [s'|] eqn:E; [|discriminate].
    intros [= <-]. now apply find_some in E as [E _]. }
  assert (Hloop : forall taken' s,
            unique_slug_loop 1000 taken' baseSlug baseSlug 1 = Some (inl s) ->
            taken' s = false).
  { intros taken' s. rewrite (unique_slug_loop_spec taken' baseSlug 999) by lia.
    destruct (find _ _) as [s'|] eqn:E; [|discriminate].
    intros [= <-]. apply find_some in E as [_ E]. now apply negb_true_iff. }
  assert (Hspec : forall fuel, 1000 <= fuel ->
            unique_slug_loop fuel taken baseSlug baseSlug 1 =
            Some (match find (fun s => negb (taken s)) (slug_candidates baseSlug) with
                  | Some s => inl s
                  | None => inr "Unable to generate unique slug"
                  end)).
  { intros fuel Hfuel. apply (unique_slug_loop_spec taken baseSlug 999); lia. }
  assert (Hrun := Hspec 1000 (le_n _)). fold (ensureUniqueSlug taken baseSlug) in Hrun.
  split; [exact Hrun|].
  split; [unfold slug_candidates; cbn [length]; now rewrite length_map, length_seq|].
  split; [|split].
  - intros s. rewrite Hrun.
    destruct (find _ _) as [s'|] eqn:E; [|discriminate].
    intros [= <-]. apply find_some in E as [Hin Hfree].
    split; [now apply negb_true_iff | exact Hin].
  - rewrite Hrun. destruct (find _ _) as [s'|] eqn:E.
    + split; [discriminate|]. intros Hall. apply find_some in E as [Hin Hfree].
      rewrite List.Forall_forall in Hall. rewrite (Hall _ Hin) in Hfree. discriminate.
    + split; [intros _|reflexivity]. apply List.Forall_forall. intros s Hin.
      pose proof (find_none _ _ E s Hin) as H. now apply negb_false_iff.
  - split; [intros fuel Hfuel; now rewrite Hrun, Hspec|].
    split.
    + intros posts exclude s id p Hs Hp Hslug. apply Hloop in Hs.
      destruct (decide (exclude = Some id)) as [|Hne]; [assumption|].
      rewrite <- Hslug, (slug_taken_true posts exclude id p Hp Hne) in Hs. discriminate.
    + intros title s Hs. apply (slug_candidates_key_chars title), Hcand with taken, Hs.
Qed.

(** With the slug [hello] held, a post titled alike gets [hello-1]. *)
Lemma ensureUniqueSlug_first_free_witness :
  (fun s => String.eqb s "hello") "hello-1" = false /\ In "hello-1" (slug_candidates "hello").
Proof.
  apply (proj1 (proj2 (proj2 (ensureUniqueSlug_first_free
                                (fun s => String.eqb s "hello") "hello")))).
  vm_compute. reflexivity.
Defined.

(** ** Post actions: publication and status *)

Section StatusLaws.

Variable auth_error : option string.

Local Abbreviation run_action := (run_status_action auth_error).

Lemma admin_post_inr (fallback : string) (currentUser : option UserData) (postId : string)
  (posts : Posts) (p : Post) :
  admin_post auth_error fallback currentUser postId posts = inr p <->
  (exists userData, currentUser = Some userData /\ role userData = "ADMIN") /\
  postId <> "" /\ posts !! postId = Some p.
Proof.
  unfold admin_post. destruct currentUser as [userData|].
  - destruct (String.eqb (role userData) "ADMIN") eqn:Hr; cbn [negb].
    + apply String.eqb_eq in Hr. cbn [truthy].
      destruct (String.eqb postId "") eqn:Hid; cbn [negb].
      * apply String.eqb_eq in Hid. split; [discriminate | tauto].
      * apply String.eqb_neq in Hid.
        destruct (posts !! postId) as [q|].
        -- split; [intros [= ->]; eauto | intros (_ & _ & [= ->]); reflexivity].
        -- split; [discriminate | intros (_ & _ & [=])].
    + apply String.eqb_neq in Hr. split; [discriminate|].
      intros [(u & [= <-] & Hu) _]. contradiction.
  - split; [discriminate | intros [(u & [=] & _) _]].
Qed.

(** What the four actions have in common. *)
Lemma status_action_shape (a : StatusAction) (now : Z) (currentUser : option UserData)
  (postId : string) (posts : Posts) :
  (exists message, run_action a now currentUser postId posts = action_failed message posts) \/
  (exists p p' message,
     admin_post auth_error
       match a with
       | Approve => "Failed to approve post"
       | Reject => "Failed to reject post"
       | TogglePublish => "Failed to update post status"
       | ToggleFeatured => "Failed to update post featured status"
       end currentUser postId posts = inr p /\
     result (run_action a now currentUser postId posts) = inl message /\
     posts_after (run_action a now currentUser postId posts) = <[postId := p']> posts /\
     revalidated_tags (run_action a now currentUser postId posts) = post_tags /\
     title p' = title p /\ slug p' = slug p /\ authorId p' = authorId p /\
     updatedAt p' = now /\
     match a with
     | Approve =>
         status p = PENDING_APPROVAL /\ isPublished p' = true /\ status p' = APPROVED /\
         isFeatured p' = isFeatured p
     | Reject =>
         status p = PENDING_APPROVAL /\ isPublished p' = false /\ status p' = REJECTED /\
         isFeatured p' = isFeatured p
     | TogglePublish =>
         isPublished p' = negb (isPublished p) /\
         status p' = (if isPublished p then DRAFT else APPROVED) /\
         isFeatured p' = isFeatured p
     | ToggleFeatured =>
         isPublished p' = isPublished p /\ status p' = status p /\
         isFeatured p' = negb (isFeatured p)
     end).
Proof.
  destruct a; cbn [run_status_action];
    unfold approvePost, rejectPost, togglePostPublish, togglePostFeatured;
    destruct (admin_post _ _ _ _ _) as [message|p] eqn:E; try (left; eauto; fail).
  - destruct (status p) eqn:Hs; cbn [status_eqb negb]; try (left; eauto; fail).
    right. do 3 eexists. split; [reflexivity|]. cbn. repeat split; assumption.
  - destruct (status p) eqn:Hs; cbn [status_eqb negb]; try (left; eauto; fail).
    right. do 3 eexists. split; [reflexivity|]. cbn. repeat split; assumption.
  - right. do 3 eexists. split; [reflexivity|]. cbn. repeat split.
    now destruct (isPublished p).
  - right. do 3 eexists. split; [reflexivity|]. cbn. repeat split.
Qed.

(** X25.  The four status actions fail closed.  A caller who is not
    an administrator (no session, or another role), an empty post id
    and an unknown post id are all rejected; and every rejected call
    leaves the posts table as it is and revalidates no tag and no
    path. *)
Theorem status_actions_fail_closed (a : StatusAction) (now : Z)
  (currentUser : option UserData) (postId : string) (posts : Posts) :
  ((forall userData, currentUser = Some userData -> role userData <> "ADMIN") \/
   postId = "" \/ posts !! postId = None ->
   exists message, result (run_action a now currentUser postId posts) = inr message) /\
  (forall message,
     result (run_action a now currentUser postId posts) = inr message ->
     posts_after (run_action a now currentUser postId posts) = posts /\
     revalidated_tags (run_action a now currentUser postId posts) = [] /\
     revalidated_paths (run_action a now currentUser postId posts) = []).
Proof.
  destruct (status_action_shape a now currentUser postId posts)
    as [(message & ->)|(p & p' & message & Hadm & Hres & _)].
  - split; [intros _; now exists message|]. intros m _. repeat split.
  - split; [|intros m Hm; rewrite Hres in Hm; discriminate].
    apply admin_post_inr in Hadm as ((u & Hu & Hrole) & Hid & Hp).
    intros [H|[H|H]]; [now destruct (H u Hu) | contradiction | congruence].
Qed.

(** X26.  A post is published exactly when its status is [APPROVED]:
    every status the create and update actions write has this form, and
    the four status actions keep it on every post of the table. *)
Theorem status_actions_keep_publication (a : StatusAction) (now : Z)
  (currentUser : option UserData) (postId : string) (posts : Posts) :
  map_Forall (fun _ p => publication_consistent p = true) posts ->
  map_Forall (fun _ p => publication_consistent p = true)
    (posts_after (run_action a now currentUser postId posts)) /\
  (forall userRole requestedPublish,
     Bool.eqb (written_status userRole requestedPublish).1
       (status_eqb (written_status userRole requestedPublish).2 APPROVED) = true).
Proof.
  intros Hall. split.
  - destruct (status_action_shape a now currentUser postId posts)
      as [(message & ->)|(p & p' & message & Hadm & _ & -> & _ & _ & _ & _ & _ & Ha)];
      [exact Hall|].
    apply admin_post_inr in Hadm as (_ & _ & Hp).
    apply map_Forall_insert_2; [|exact Hall].
    pose proof (Hall _ _ Hp) as Hc. unfold publication_consistent in *.
    destruct a.
    + destruct Ha as (_ & -> & -> & _). reflexivity.
    + destruct Ha as (_ & -> & -> & _). reflexivity.
    + destruct Ha as (-> & -> & _). now destruct (isPublished p).
    + destruct Ha as (-> & -> & _). exact Hc.
  - intros userRole requestedPublish. unfold written_status.
    destruct (String.eqb userRole "ADMIN"); [destruct requestedPublish|]; reflexivity.
Qed.

(** The four status actions never make a post pending. *)
Lemma status_action_not_pending (a : StatusAction) (now : Z)
  (currentUser : option UserData) (id postId : string) (posts : Posts) :
  (forall p, posts !! postId = Some p -> status p <> PENDING_APPROVAL) ->
  forall p, posts_after (run_action a now currentUser id posts) !! postId = Some p ->
            status p <> PENDING_APPROVAL.
Proof.
  intros Hinv.
  destruct (status_action_shape a now currentUser id posts)
    as [(m & ->)|(q & q' & m & Hadm & _ & -> & _ & _ & _ & _ & _ & Hcase)];
    [exact Hinv|].
  apply admin_post_inr in Hadm as (_ & _ & Hq).
  intros p. destruct (decide (id = postId)) as [->|Hne].
  - rewrite lookup_insert_eq. intros [= <-].
    destruct a.
    + destruct Hcase as (_ & _ & -> & _). discriminate.
    + destruct Hcase as (_ & _ & -> & _). discriminate.
    + destruct Hcase as (_ & -> & _). destruct (isPublished q); discriminate.
    + destruct Hcase as (_ & -> & _). now apply Hinv.
  - rewrite lookup_insert_ne by exact Hne. apply Hinv.
Qed.

Lemma run_status_actions_not_pending
  (calls : list (StatusAction * Z * option UserData * string)) (postId : string)
  (posts : Posts) :
  (forall p, posts !! postId = Some p -> status p <> PENDING_APPROVAL) ->
  forall p, run_status_actions auth_error calls posts !! postId = Some p ->
            status p <> PENDING_APPROVAL.
Proof.
  revert posts. induction calls as [|[[[a now] user] id] calls IH]; intros posts Hinv;
    [exact Hinv|].
  cbn [run_status_actions fold_left fst snd]. apply IH.
  now apply status_action_not_pending.
Qed.

(** X27.  [approvePostAction] and [rejectPostAction] succeed exactly
    for an administrator on an existing post whose status is
    [PENDING_APPROVAL].  The post is then approved and published, or
    rejected and unpublished, and every other post is as before.  After
    that, and after any further calls of the four status actions, both
    actions fail on this post for every caller: none of the four
    actions writes [PENDING_APPROVAL], so only another writer of that
    status opens the decision again. *)
Theorem approve_reject_only_pending (a : StatusAction) (now : Z)
  (currentUser : option UserData) (postId : string) (posts : Posts) :
  a = Approve \/ a = Reject ->
  ((exists message, result (run_action a now currentUser postId posts) = inl message) <->
   (exists userData, currentUser = Some userData /\ role userData = "ADMIN") /\
   postId <> "" /\
   exists p, posts !! postId = Some p /\ status p = PENDING_APPROVAL) /\
  (forall message,
     result (run_action a now currentUser postId posts) = inl message ->
     (exists p',
        posts_after (run_action a now currentUser postId posts) !! postId = Some p' /\
        isPublished p' = match a with Approve => true | _ => false end /\
        status p' = match a with Approve => APPROVED | _ => REJECTED end) /\
     (forall other,
        other <> postId ->
        posts_after (run_action a now currentUser postId posts) !! other = posts !! other) /\
     (forall later a' now' currentUser',
        a' = Approve \/ a' = Reject ->
        exists message',
          run_action a' now' currentUser' postId
            (run_status_actions auth_error later
               (posts_after (run_action a now currentUser postId posts))) =
          action_failed message'
            (run_status_actions auth_error later
               (posts_after (run_action a now currentUser postId posts))))).
Proof.
  intros Ha.
  assert (Hpending : forall a' now' user' table,
            a' = Approve \/ a' = Reject ->
            (forall p, table !! postId = Some p -> status p <> PENDING_APPROVAL) ->
            exists message',
              run_action a' now' user' postId table = action_failed message' table).
  { intros a' now' user' table Ha' Hinv.
    destruct (status_action_shape a' now' user' postId table)
      as [(m' & E')|(q & q' & m' & Hadm' & _ & _ & _ & _ & _ & _ & _ & Hcase')];
      [now exists m'|].
    apply admin_post_inr in Hadm' as (_ & _ & Hq).
    exfalso. apply (Hinv q Hq). destruct Ha' as [-> | ->]; apply Hcase'. }
  split.
  - split.
    + intros [message Hres].
      destruct (status_action_shape a now currentUser postId posts)
        as [(m & E)|(p & p' & m & Hadm & _ & _ & _ & _ & _ & _ & _ & Hcase)];
        [rewrite E in Hres; discriminate|].
      apply admin_post_inr in Hadm as (Hu & Hid & Hp).
      split; [exact Hu|]. split; [exact Hid|]. exists p. split; [exact Hp|].
      destruct Ha as [-> | ->]; apply Hcase.
    + intros ((userData & -> & Hrole) & Hid & p & Hp & Hst).
      destruct Ha as [-> | ->]; cbn [run_status_action];
        unfold approvePost, rejectPost, admin_post;
        rewrite Hrole; cbn [String.eqb Ascii.eqb Bool.eqb negb truthy];
        apply String.eqb_neq in Hid; rewrite Hid; cbn [negb]; rewrite Hp, Hst;
        cbn [status_eqb negb result]; eauto.
  - intros message Hres.
    destruct (status_action_shape a now currentUser postId posts)
      as [(m & E)|(p & p' & m & Hadm & _ & Hposts & _ & _ & _ & _ & _ & Hcase)];
      [rewrite E in Hres; discriminate|].
    apply admin_post_inr in Hadm as (_ & _ & Hp). rewrite Hposts.
    assert (Hst : isPublished p' = match a with Approve => true | _ => false end /\
                  status p' = match a with Approve => APPROVED | _ => REJECTED end).
    { destruct Ha as [-> | ->]; destruct Hcase as (_ & H2 & H3 & _); split; assumption. }
    destruct Hst as (Hpub & Hstat).
    split; [exists p'; split; [apply lookup_insert_eq | now split]|].
    split; [intros other Hne; now apply lookup_insert_ne|].
    intros later a' now' currentUser' Ha'. apply Hpending; [exact Ha'|].
    apply run_status_actions_not_pending.
    intros q. rewrite lookup_insert_eq. intros [= <-]. rewrite Hstat.
    destruct a; discriminate.
Qed.

(** X28.  [togglePostPublishAction] looks at [isPublished] only: an
    unpublished post is published and approved whatever its status, also
    when it was rejected or is pending, and a second toggle leaves it an
    unpublished draft; the other columns of the post, the clock reading
    apart, and the other posts stay as they are. *)
Theorem togglePostPublish_twice (now now' : Z) (userData : UserData) (postId : string)
  (posts : Posts) (p : Post) :
  role userData = "ADMIN" -> postId <> "" -> posts !! postId = Some p ->
  posts_after (togglePostPublish auth_error now (Some userData) postId posts) =
    <[postId := {| title := title p; slug := slug p; authorId := authorId p;
                   isPublished := negb (isPublished p); isFeatured := isFeatured p;
                   status := (if isPublished p then DRAFT else APPROVED);
                   updatedAt := now |}]> posts /\
  posts_after
    (togglePostPublish auth_error now' (Some userData) postId
       (posts_after (togglePostPublish auth_error now (Some userData) postId posts))) =
    <[postId := {| title := title p; slug := slug p; authorId := authorId p;
                   isPublished := isPublished p; isFeatured := isFeatured p;
                   status := (if isPublished p then APPROVED else DRAFT);
                   updatedAt := now' |}]> posts.
Proof.
  intros Hrole Hid Hp.
  assert (Hadm : forall fallback posts' q,
            posts' !! postId = Some q ->
            admin_post auth_error fallback (Some userData) postId posts' = inr q).
  { intros fallback posts' q Hq. apply admin_post_inr. eauto. }
  assert (H1 : posts_after (togglePostPublish auth_error now (Some userData) postId posts) =
    <[postId := {| title := title p; slug := slug p; authorId := authorId p;
                   isPublished := negb (isPublished p); isFeatured := isFeatured p;
                   status := (if isPublished p then DRAFT else APPROVED);
                   updatedAt := now |}]> posts).
  { unfold togglePostPublish. rewrite (Hadm _ _ _ Hp). cbn [posts_after].
    now destruct (isPublished p). }
  split; [exact H1|]. rewrite H1.
  unfold togglePostPublish. rewrite (Hadm _ _ _ (lookup_insert_eq _ _ _)).
  cbn [posts_after title slug authorId isPublished isFeatured status].
  rewrite insert_insert_eq, negb_involutive. now destruct (isPublished p).
Qed.

End StatusLaws.

Lemma status_actions_fail_closed_witness :
  exists message,
    result (run_status_action None Approve 5
              (Some {| user_id := "u1"; role := "USER" |}) "p1" example_posts) = inr message.
Proof.
  apply (proj1 (status_actions_fail_closed None Approve 5
                  (Some {| user_id := "u1"; role := "USER" |}) "p1" example_posts)).
  left. intros userData [= <-]. discriminate.
Defined.

Lemma status_actions_keep_publication_witness :
  map_Forall (fun _ p => publication_consistent p = true)
    (posts_after
       (run_status_action None TogglePublish 5 (Some example_admin) "p2" example_posts)).
Proof.
  refine (proj1 (status_actions_keep_publication None TogglePublish 5 (Some example_admin)
                   "p2" example_posts _)).
  intros k p. unfold example_posts.
  rewrite lookup_insert_Some. intros [[_ <-]|[_ H]]; [reflexivity|].
  apply lookup_singleton_Some in H as [_ <-]. reflexivity.
Defined.

(** After an approval and a publish toggle by an administrator, a
    rejection still fails. *)
Lemma approve_reject_only_pending_witness :
  exists message',
    run_status_action None Reject 9 (Some example_admin) "p1"
      (run_status_actions None [(TogglePublish, 7%Z, Some example_admin, "p1")]
         (posts_after
            (run_status_action None Approve 5 (Some example_admin) "p1" example_posts))) =
    action_failed message'
      (run_status_actions None [(TogglePublish, 7%Z, Some example_admin, "p1")]
         (posts_after
            (run_status_action None Approve 5 (Some example_admin) "p1" example_posts))).
Proof.
  refine (proj2 (proj2 (proj2 (approve_reject_only_pending None Approve 5
                                 (Some example_admin) "p1" example_posts
                                 (or_introl eq_refl))
                          ("Post " +:+ quote +:+ "Hello" +:+ quote
                           +:+ " approved and published successfully") _))
            [(TogglePublish, 7%Z, Some example_admin, "p1")] Reject 9%Z
            (Some example_admin) (or_intror eq_refl)).
  vm_compute. reflexivity.
Defined.

(** A rejected post is published by one toggle. *)
Lemma togglePostPublish_twice_witness :
  posts_after (togglePostPublish None 5 (Some example_admin) "p2" example_posts) =
    <[ "p2" := {| title := "Again"; slug := "again"; authorId := "u2";
                  isPublished := true; isFeatured := true;
                  status := APPROVED; updatedAt := 5 |} ]> example_posts.
Proof.
  refine (proj1 (togglePostPublish_twice None 5 6 example_admin "p2" example_posts
                   {| title := "Again"; slug := "again"; authorId := "u2";
                      isPublished := false; isFeatured := true;
                      status := REJECTED; updatedAt := 0 |} eq_refl _ _)).
  - discriminate.
  - vm_compute. reflexivity.
Defined.

(** ** The middleware *)

Lemma obj_get_set_ne (o : list (string * string)) (k k' v : string) :
  k <> k' -> obj_get (obj_set o k v) k' = obj_get o k'.
Proof.
  intros Hne. induction o as [|[k0 v0] o IH]; cbn [obj_set obj_get].
  - destruct (String.eqb k k') eqn:E; [apply String.eqb_eq in E; contradiction|reflexivity].
  - destruct (String.eqb k0 k) eqn:E; cbn [obj_get].
    + apply String.eqb_eq in E. subst k0.
      destruct (String.eqb k k') eqn:E'; [apply String.eqb_eq in E'; contradiction|].
      reflexivity.
    + now rewrite IH.
Qed.

Lemma obj_get_fold_set (sets o : list (string * string)) (name : string) :
  ~ In name (map fst sets) ->
  obj_get (fold_left (fun o kv => obj_set o kv.1 kv.2) sets o) name = obj_get o name.
Proof.
  revert o. induction sets as [|[k v] sets IH]; intros o Hnot; [reflexivity|].
  cbn [fold_left fst snd]. cbn [map fst In] in Hnot.
  rewrite IH by tauto. apply obj_get_set_ne. tauto.
Qed.

Section MiddlewareLaws.

Variable CryptoKey : Type.
Variable generateKey : nat -> option CryptoKey.
Variable sign : CryptoKey -> list Z -> option (list Z).
Variable url_origin : string -> option string.
Variable nonce : string.
Variable updateSession : Request -> option bool.
Variable getClientIdentifier : Request -> string.
Variable rate_limit : string -> option RateLimitResult.
Variable getRateLimitHeaders : RateLimitResult -> list (string * string).
Variable rateLimitExceeded : bool.

Local Abbreviation run_middleware :=
  (middleware CryptoKey generateKey sign url_origin nonce updateSession getClientIdentifier
     rate_limit getRateLimitHeaders rateLimitExceeded).
Local Abbreviation csrf_step := (middleware_csrf CryptoKey generateKey sign).
Local Abbreviation validate := (validateToken CryptoKey generateKey sign).

Lemma middleware_csrf_cases (request : Request) (securityHeaders : list (string * string))
  (w : World) :
  csrf_step request securityHeaders w =
  if csrf_checked request then
    if negb (truthy (csrf_header request)) then
      (Some (JsonReply 403 "CSRF_TOKEN_MISSING" None securityHeaders), w)
    else if (validate (csrf_header request) w).1 then
      (None, (validate (csrf_header request) w).2)
    else
      (Some (JsonReply 403 "CSRF_TOKEN_INVALID" None securityHeaders),
       (validate (csrf_header request) w).2)
  else (None, w).
Proof.
  unfold middleware_csrf, csrf_checked.
  destruct (mem (method request) state_changing_methods); [|reflexivity].
  cbn [andb]. cbv zeta.
  destruct (negb (shouldSkipCSRF (pathname request)) && is_api_path (pathname request));
    [|reflexivity].
  destruct (negb (truthy (csrf_header request))); [reflexivity|].
  destruct (validate (csrf_header request) w) as [[] w1]; reflexivity.
Qed.

(** After the CSRF step the middleware only adds the rate limit. *)
Lemma middleware_after_csrf (now1 now2 : Z) (request : Request) (w : World)
  (securityHeaders : list (string * string)) :
  updateSession request = Some false ->
  getSecurityHeaders url_origin w (Some nonce) = Some securityHeaders ->
  forall w1,
    csrf_step request securityHeaders w = (None, w1) ->
    (run_middleware now1 now2 request w).1.2 = w1 /\
    forall status_code code retry headers,
      (run_middleware now1 now2 request w).1.1 = JsonReply status_code code retry headers ->
      status_code <> 403%Z.
Proof.
  intros Hs Hh w1 Hc. unfold middleware. rewrite Hs, Hh, Hc.
  destruct (is_api_path (pathname request)); [|split; [reflexivity | discriminate]].
  destruct (rate_limit _) as [r|];
    [|split; [reflexivity | intros ? ? ? ? [= <- _ _ _]; discriminate]].
  destruct (negb (allowed r)); [|split; [reflexivity | discriminate]].
  destruct rateLimitExceeded;
    (split; [reflexivity | intros ? ? ? ? [= <- _ _ _]; discriminate]).
Qed.

(** X29.  The CSRF gate of the middleware, for a request whose session
    response is no redirect and whose security headers are built.  A
    [POST], [PUT], [DELETE] or [PATCH] request to a path under [/api/]
    outside the exempt prefixes is answered 403 without a call of the
    rate limiter, with code [CSRF_TOKEN_MISSING] when the header is
    absent or empty and [CSRF_TOKEN_INVALID] when [validateToken]
    rejects it, and with the security headers; it passes the gate only
    with a token that [validateToken] accepts.  Every other request is
    never answered 403 and leaves cookies and random source as they
    are. *)
Theorem middleware_csrf_gate (now1 now2 : Z) (request : Request) (w : World)
  (securityHeaders : list (string * string)) :
  updateSession request = Some false ->
  getSecurityHeaders url_origin w (Some nonce) = Some securityHeaders ->
  (csrf_checked request = true ->
   (truthy (csrf_header request) = false ->
    run_middleware now1 now2 request w =
      (JsonReply 403 "CSRF_TOKEN_MISSING" None securityHeaders, w, 0)) /\
   (truthy (csrf_header request) = true ->
    (validate (csrf_header request) w).1 = false ->
    run_middleware now1 now2 request w =
      (JsonReply 403 "CSRF_TOKEN_INVALID" None securityHeaders,
       (validate (csrf_header request) w).2, 0)) /\
   ((forall code retry headers,
       (run_middleware now1 now2 request w).1.1 <> JsonReply 403 code retry headers) ->
    truthy (csrf_header request) = true /\
    (validate (csrf_header request) w).1 = true)) /\
  (csrf_checked request = false ->
   (run_middleware now1 now2 request w).1.2 = w /\
   forall code retry headers,
     (run_middleware now1 now2 request w).1.1 <> JsonReply 403 code retry headers).
Proof.
  intros Hs Hh.
  pose proof (middleware_csrf_cases request securityHeaders w) as Hc.
  split.
  - intros Hchk. rewrite Hchk in Hc.
    assert (Hmiss : truthy (csrf_header request) = false ->
              run_middleware now1 now2 request w =
              (JsonReply 403 "CSRF_TOKEN_MISSING" None securityHeaders, w, 0)).
    { intros Ht. rewrite Ht in Hc. cbn [negb] in Hc.
      unfold middleware. now rewrite Hs, Hh, Hc. }
    assert (Hinv : truthy (csrf_header request) = true ->
              (validate (csrf_header request) w).1 = false ->
              run_middleware now1 now2 request w =
              (JsonReply 403 "CSRF_TOKEN_INVALID" None securityHeaders,
               (validate (csrf_header request) w).2, 0)).
    { intros Ht Hv. rewrite Ht, Hv in Hc. cbn [negb] in Hc.
      unfold middleware. now rewrite Hs, Hh, Hc. }
    split; [exact Hmiss|]. split; [exact Hinv|].
    intros Hno. destruct (truthy (csrf_header request)) eqn:Ht.
    + split; [reflexivity|].
      destruct ((validate (csrf_header request) w).1) eqn:Hv; [reflexivity|].
      exfalso. apply (Hno "CSRF_TOKEN_INVALID" None securityHeaders).
      now rewrite (Hinv eq_refl eq_refl).
    + exfalso. apply (Hno "CSRF_TOKEN_MISSING" None securityHeaders).
      now rewrite (Hmiss eq_refl).
  - intros Hchk. rewrite Hchk in Hc.
    destruct (middleware_after_csrf now1 now2 request w securityHeaders Hs Hh w Hc)
      as [Hw Hno].
    split; [exact Hw|]. intros code retry headers E. now apply (Hno _ _ _ _ E).
Qed.

(** X30.  The headers of the middleware's responses, again for a
    session response that is no redirect: while the security headers
    cannot be built (a Supabase URL that is no URL) every request is
    answered 500 with three basic headers and no policy; otherwise a
    403 carries the security headers, a 429 carries each of them that
    the rate-limit headers and [Retry-After] do not overwrite, and a
    request passed on has them set first, with the nonce of the policy
    in the [x-nonce] header and in the cookie. *)
Theorem middleware_security_headers (now1 now2 : Z) (request : Request) (w : World) :
  updateSession request = Some false ->
  (getSecurityHeaders url_origin w (Some nonce) = None ->
   run_middleware now1 now2 request w = (middleware_error, w, 0)) /\
  (forall securityHeaders,
     getSecurityHeaders url_origin w (Some nonce) = Some securityHeaders ->
     match (run_middleware now1 now2 request w).1.1 with
     | SessionReply => False
     | JsonReply status_code code retry headers =>
         (status_code = 403%Z /\ headers = securityHeaders) \/
         (status_code = 429%Z /\
          forall name,
            name <> "Retry-After" ->
            ~ In name (map fst (getRateLimitHeaders
                                  (default {| allowed := false; resetTime := 0 |}
                                     (rate_limit (getClientIdentifier request))))) ->
            obj_get headers name = obj_get securityHeaders name) \/
         (status_code = 500%Z /\ headers = basicSecurityHeaders /\
          is_api_path (pathname request) = true)
     | NextReply x_nonce cookie header_sets =>
         x_nonce = nonce /\ nonce_value cookie = nonce /\
         nonce_secure cookie = negb (node_env_is (env w) "development") /\
         exists more, header_sets = securityHeaders ++ more
     end).
Proof.
  intros Hs. split.
  - intros Hh. unfold middleware. now rewrite Hs, Hh.
  - intros securityHeaders Hh. unfold middleware. rewrite Hs, Hh.
    rewrite middleware_csrf_cases.
    destruct (csrf_checked request);
      [destruct (negb (truthy (csrf_header request)));
         [left; split; reflexivity|];
       destruct ((validate (csrf_header request) w).1);
         [|left; split; reflexivity]|];
      cbv iota beta;
      (destruct (is_api_path (pathname request)) eqn:Hapi;
       [|cbn [fst snd]; repeat split; exists []; now rewrite app_nil_r]);
      (destruct (rate_limit _) as [r|]; cbn [fst snd from_option id];
       [|right; right; repeat split]);
      (destruct (negb (allowed r)); [destruct rateLimitExceeded|]; cbn [fst snd];
       [ right; left; split; [reflexivity|]; intros name Hra Hnot;
         rewrite obj_get_set_ne by (intros E; apply Hra; now rewrite E);
         now apply obj_get_fold_set
       | right; right; repeat split
       | repeat split; eauto ]).
Qed.

End MiddlewareLaws.

Lemma middleware_csrf_gate_witness :
  example_middleware example_request production_world =
  (JsonReply 403 "CSRF_TOKEN_MISSING" None
     (default [] (getSecurityHeaders example_origin production_world (Some "n0nce"))),
   production_world, 0).
Proof.
  refine (proj1 (proj1 (middleware_csrf_gate unit example_key example_sign example_origin
                          "n0nce" (fun _ => Some false) (fun _ => "client")
                          (fun _ => Some {| allowed := true; resetTime := 0 |})
                          (fun _ => []) true 0 0 example_request production_world
                          (default [] (getSecurityHeaders example_origin production_world
                                         (Some "n0nce")))
                          eq_refl _) _) _).
  - vm_compute. reflexivity.
  - reflexivity.
  - reflexivity.
Defined.

Lemma middleware_security_headers_witness :
  example_middleware example_request misconfigured_world =
  (middleware_error, misconfigured_world, 0).
Proof.
  refine (proj1 (middleware_security_headers unit example_key example_sign example_origin
                   "n0nce" (fun _ => Some false) (fun _ => "client")
                   (fun _ => Some {| allowed := true; resetTime := 0 |})
                   (fun _ => []) true 0 0 example_request misconfigured_world eq_refl) _).
  vm_compute. reflexivity.
Defined.
